(** * mcts-cpp: the UCT search tree of [TreeNode.h]

  A shallow embedding of [mcts::UCTreeNode<N_ACTIONS, URand>] and of the
  operations on it ([selectAction], [expand], [rollOut], [updateStats],
  [iterate], [bestAction], [vValue], [qValue], [numOfNodes], [maxDepth],
  the constructor, the copy constructor, the destructor and
  [operator<<]) and of [SimpleURand], followed by the properties of the
  search tree that the specification states and by further properties of
  the code.

  Conventions.
  - [double] is IEEE binary64, i.e. Rocq's primitive [float]; the
    arithmetic of the source is written with the primitive operations.
  - [int] is a 32-bit two's complement integer, held in [Z]; where the
    source adds [int]s the wrap-around is written out ([int_wrap]).
  - A node owns its children, so a [UCTreeNode*] into the tree below
    [this] is the list of action indices leading to the node ([ptr]).
    Dereferencing a pointer that does not lead to a node (a null or
    indeterminate slot, an index outside the array) is undefined
    behaviour.
  - [assert] is enabled (the build type is Debug): a failed assertion
    aborts the program. *)

From Stdlib Require Import ZArith Floats Lia Ascii.
From stdpp Require Import base tactics option list strings.

#[local] Open Scope Z_scope.

(** ** Machine numbers *)

Definition INT_MIN : Z := -2147483648.
Definition INT_MAX : Z := 2147483647.

(** The value of an [int] computation after wrap-around. *)
Definition int_wrap (z : Z) : Z := (z + 2147483648) mod 4294967296 - 2147483648.

Definition int_add (a b : Z) : Z := int_wrap (a + b).

(** [static_cast<double>(i)] for an [int] (or any integer below 2^63). *)
Definition double_of_int (z : Z) : float :=
if z <? 0 then (- of_uint63 (Uint63.of_Z (- z)))%float
else of_uint63 (Uint63.of_Z z).

(** The integral part of a double, rounded toward zero; [None] for NaN and
  the infinities. *)
Definition double_trunc (x : float) : option Z :=
match Prim2SF x with
| S754_zero _ => Some 0
| S754_finite s m e =>
    let a := if 0 <=? e then Z.pos m * 2 ^ e else Z.pos m / 2 ^ (- e) in
    Some (if s then - a else a)
| S754_infinity _ | S754_nan => None
end.

(** Conversion of a [double] to [int] ([int action = rand_i()*N_ACTIONS]):
  truncation.  When the truncated value does not fit in an [int] the
  conversion is undefined in C++; the model returns what the x86-64
  conversion instruction yields there, [INT_MIN]. *)
Definition double_to_int (x : float) : Z :=
match double_trunc x with
| Some z => if (INT_MIN <=? z) && (z <=? INT_MAX) then z else INT_MIN
| None => INT_MIN
end.

(** [x >= y] on doubles: false as soon as one side is NaN. *)
Definition double_ge (x y : float) : bool := PrimFloat.leb y x.

(** The state of the shifter that rounds a mantissa, after [j] binary
    digits of [m0] have been shifted out: the digits that are left, and
    the digit shifted out last. *)
Definition shifted (m0 j : Z) (x : shr_record) : Prop :=
  shr_m x = m0 / 2 ^ j ∧ (1 <= j -> shr_r x = Z.odd (m0 / 2 ^ (j - 1))).

(** ** Constants of the header *)

(** [const double EPSILON = 1e-6;] *)
Definition EPSILON : float := 0x1.0c6f7a0b5ed8dp-20%float.

(** [const double MAX_ROLLOUT_ITERATIONS = 50;] *)
Definition MAX_ROLLOUT_ITERATIONS : nat := 50.

(** [const double DEFAULT_GAMMA = 0.9;] *)
Definition DEFAULT_GAMMA : float := 0x1.ccccccccccccdp-1%float.

(** [std::numeric_limits<double>::max()] *)
Definition DBL_MAX : float := 0x1.fffffffffffffp+1023%float.

(** ** What the header takes from its environment *)

(** The C library: the hidden state [W] behind [rand()], the constant
  [RAND_MAX] and [std::log]. *)
Class Libc (W : Type) := {
c_rand : W -> Z * W;
RAND_MAX : Z;
c_log : float -> float
}.

(** The template parameter [URand]: a default-constructible object whose
  call operator yields a double, changes the object, and may touch the
  state of the C library. *)
Class URand (W G : Type) := {
urand_new : G;
urand_call : G -> W -> float * G * W
}.

(** The template parameter [Generator]: a callable giving the reward of an
  action index. *)
Class Generator (W M : Type) := {
generator_call : M -> Z -> W -> float * M * W
}.

(** [struct SimpleURand]: [static_cast<double>(rand()%RAND_MAX)/RAND_MAX]. *)
Inductive SimpleURand : Type := mkSimpleURand.

#[export] Instance SimpleURand_URand {W} `{Libc W} : URand W SimpleURand := {
urand_new := mkSimpleURand;
urand_call g w :=
  let '(r, w') := c_rand w in
  ((double_of_int (Z.rem r RAND_MAX) / double_of_int RAND_MAX)%float, g, w')
}.

(** ** Outcomes *)

Inductive fault : Type :=
| AssertionFailed       (* [assert(...)] aborted the program *)
| UndefinedBehaviour    (* a null, indeterminate or out-of-bounds access *)
| LoopBound.            (* the traversal loop did not stop within its bound *)

Inductive result (A : Type) : Type :=
| Ok (a : A)
| Fault (f : fault).
Arguments Ok {A} a.
Arguments Fault {A} f.

(** Sequencing: a fault ends the computation. *)
#[export] Instance result_ret : MRet result := fun _ a => Ok a.
#[export] Instance result_bind : MBind result := fun _ _ k m =>
match m with
| Ok a => k a
| Fault f => Fault f
end.

(** ** The node *)

(** One element of [UCTreeNode* vpChildren_i[N_ACTIONS]]. *)
Inductive slot (A : Type) : Type :=
| Null
| Ptr (child : A)
| Indeterminate.   (* never written since the object was allocated *)
Arguments Null {A}.
Arguments Ptr {A} child.
Arguments Indeterminate {A}.

#[local] Set Warnings "-register-all,-inexact-float".

Inductive UCTreeNode (G : Type) : Type := mkUCTreeNode {
vpChildren_i : list (slot (UCTreeNode G));
isLeaf_i : bool;
nVisits_i : float;
totValue_i : float;
gamma_i : float;
rand_i : G
}.
Arguments mkUCTreeNode {G}.
Arguments vpChildren_i {G}.
Arguments isLeaf_i {G}.
Arguments nVisits_i {G}.
Arguments totValue_i {G}.
Arguments gamma_i {G}.
Arguments rand_i {G}.

Definition slot_Forall {A} (P : A -> Prop) (s : slot A) : Prop :=
match s with
| Ptr c => P c
| Null | Indeterminate => True
end.

(** Induction over the tree: the children held by the slots come with the
  induction hypothesis. *)
Section TreeInduction.
Context {G : Type} (P : UCTreeNode G -> Prop).
Hypothesis step : forall cs l v t g r,
  Forall (slot_Forall P) cs -> P (mkUCTreeNode cs l v t g r).

Fixpoint UCTreeNode_tree_ind (n : UCTreeNode G) : P n :=
  match n with
  | mkUCTreeNode cs l v t g r =>
      step cs l v t g r
        ((fix slots (cs : list (slot (UCTreeNode G))) :
            Forall (slot_Forall P) cs :=
            match cs with
            | [] => List.Forall_nil _
            | s :: cs' =>
                @List.Forall_cons _ (slot_Forall P) s cs'
                  (match s return slot_Forall P s with
                   | Ptr c => UCTreeNode_tree_ind c
                   | Null | Indeterminate => I
                   end)
                  (slots cs')
            end) cs)
  end.
End TreeInduction.

(** A pointer to a node of the tree owned by [this]: the action indices
  from [this] down to the node; [[]] is [this] itself. *)
Definition ptr : Type := list nat.

(** What [operator<<] hands to the stream, piece by piece; how the stream
    turns a number into characters is not modelled. *)
Inductive output : Type :=
| OutString (s : string)
| OutChar (c : ascii)
| OutInt (k : Z)
| OutDouble (x : float).

Section UCT.
Context {W G : Type} `{!Libc W} `{!URand W G}.

(** The template parameter [N_ACTIONS]. *)
Variable N_ACTIONS : nat.

Abbreviation node := (UCTreeNode G).

Definition set_children (cs : list (slot node)) (n : node) : node :=
  mkUCTreeNode cs (isLeaf_i n) (nVisits_i n) (totValue_i n) (gamma_i n) (rand_i n).

Definition set_rand (g : G) (n : node) : node :=
  mkUCTreeNode (vpChildren_i n) (isLeaf_i n) (nVisits_i n) (totValue_i n)
               (gamma_i n) g.

(** The array of a node that has just been allocated. *)
Definition alloc_slots : list (slot node) := replicate N_ACTIONS Indeterminate.

(** [for(int k=0; k<N_ACTIONS; ++k) vpChildren_i[k] = v;] *)
Definition write_slots (v : slot node) (cs : list (slot node)) : list (slot node) :=
  foldl (fun cs k => <[k := v]> cs) cs (seq 0 N_ACTIONS).

(** [UCTreeNode(double inGamma=DEFAULT_GAMMA, URand inRand=URand())] *)
Definition new_UCTreeNode (inGamma : float) (inRand : G) : node :=
  mkUCTreeNode (write_slots Null alloc_slots) true 0 0 inGamma inRand.

(** [bool isLeaf() const] *)
Definition isLeaf (this : node) : bool := isLeaf_i this.

(** [void expand()]: every child is [new UCTreeNode()], the constructor
    called with its default arguments. *)
Definition expand (this : node) : node :=
  if negb (isLeaf_i this) then this
  else
    mkUCTreeNode
      (write_slots (Ptr (new_UCTreeNode DEFAULT_GAMMA urand_new)) (vpChildren_i this))
      false (nVisits_i this) (totValue_i this) (gamma_i this) (rand_i this).

(** [void updateStats(double value)] *)
Definition updateStats (value : float) (this : node) : node :=
  mkUCTreeNode (vpChildren_i this) (isLeaf_i this)
               (nVisits_i this + 1)%float (totValue_i this + value)%float
               (gamma_i this) (rand_i this).

(** The UCT value of a child, before the tie-breaking noise. *)
Definition uctValue (this pCur : node) : float :=
  (totValue_i pCur / (nVisits_i pCur + EPSILON) +
   sqrt (c_log (nVisits_i this + 1) / (nVisits_i pCur + EPSILON)))%float.

(** The body of the loop of [selectAction], from index [k] on, [count]
    iterations left. *)
Fixpoint selectAction_loop (count k : nat) (this : node) (selected : nat)
    (bestValue : float) (w : W) : result (nat * node * W) :=
  match count with
  | O => Ok (selected, this, w)
  | S count =>
      match vpChildren_i this !! k with
      | Some (Ptr pCur) =>
          let '(r, g, w) := urand_call (rand_i this) w in
          let value := (uctValue this pCur + r * EPSILON)%float in
          let this := set_rand g this in
          if double_ge value bestValue
          then selectAction_loop count (S k) this k value w
          else selectAction_loop count (S k) this selected bestValue w
      | Some Null => Fault AssertionFailed
      | Some Indeterminate | None => Fault UndefinedBehaviour
      end
  end.

(** [int selectAction()] *)
Definition selectAction (this : node) (w : W) : result (nat * node * W) :=
  if isLeaf_i this then Fault AssertionFailed
  else selectAction_loop N_ACTIONS 0 this 0 (- DBL_MAX)%float w.

(** [double vValue() const] *)
Definition vValue (this : node) : float := (totValue_i this / nVisits_i this)%float.

(** [double qValue(int action) const] *)
Definition qValue (this : node) (action : Z) : result float :=
  if negb (0 <=? action) then Fault AssertionFailed
  else if negb (action <? Z.of_nat N_ACTIONS) then Fault AssertionFailed
  else
    match vpChildren_i this !! Z.to_nat action with
    | Some (Ptr child) => Ok (vValue child)
    | _ => Fault UndefinedBehaviour
    end.

(** The loop of [bestAction]; the noise is
    [static_cast<double>(rand())*EPSILON/RAND_MAX]. *)
Fixpoint bestAction_loop (count k : nat) (this : node) (selected : nat)
    (bestValue : float) (w : W) : result (nat * W) :=
  match count with
  | O => Ok (selected, w)
  | S count =>
      match vpChildren_i this !! k with
      | Some (Ptr pCur) =>
          let expValue := (totValue_i pCur / (nVisits_i pCur + EPSILON))%float in
          let '(r, w) := c_rand w in
          let expValue :=
            (expValue + double_of_int r * EPSILON / double_of_int RAND_MAX)%float in
          if double_ge expValue bestValue
          then bestAction_loop count (S k) this k expValue w
          else bestAction_loop count (S k) this selected bestValue w
      | Some Null => Fault AssertionFailed
      | Some Indeterminate | None => Fault UndefinedBehaviour
      end
  end.

(** [int bestAction()] *)
Definition bestAction (this : node) (w : W) : result (Z * node * W) :=
  if isLeaf_i this then
    let '(r, g, w) := urand_call (rand_i this) w in
    Ok (double_to_int (r * double_of_int (Z.of_nat N_ACTIONS)), set_rand g this, w)
  else
    '(selected, w) ← bestAction_loop N_ACTIONS 0 this 0 (- DBL_MAX)%float w;
    Ok (Z.of_nat selected, this, w).

(** [int numOfNodes() const] *)
Fixpoint numOfNodes (this : node) : result Z :=
  if isLeaf_i this then Ok 1
  else
    (fix loop (cs : list (slot node)) (result : Z) {struct cs} :=
       match cs with
       | [] => Ok result
       | Ptr child :: cs =>
           n ← numOfNodes child;
           loop cs (int_add result n)
       | _ :: _ => Fault UndefinedBehaviour
       end) (vpChildren_i this) 1.

(** [int maxDepth(int parentDepth=0) const]; the local variable
    [maxDepth] of the source is [deepest] here. *)
Fixpoint maxDepth (this : node) (parentDepth : Z) : result Z :=
  if isLeaf_i this then Ok (int_add parentDepth 1)
  else
    (fix loop (cs : list (slot node)) (deepest : Z) {struct cs} :=
       match cs with
       | [] => Ok deepest
       | Ptr child :: cs =>
           curDepth ← maxDepth child (int_add parentDepth 1);
           loop cs (if deepest <? curDepth then curDepth else deepest)
       | _ :: _ => Fault UndefinedBehaviour
       end) (vpChildren_i this) 0.

(** The copy constructor [UCTreeNode(const UCTreeNode& tree)]: the scalar
    members are copied by the initialiser list; the array is written only
    when [tree] is not a leaf. *)
Fixpoint copy (tree : node) : result node :=
  if isLeaf_i tree then
    Ok (mkUCTreeNode alloc_slots (isLeaf_i tree) (nVisits_i tree)
                     (totValue_i tree) (gamma_i tree) (rand_i tree))
  else
    cs ← (fix loop (cs : list (slot node)) {struct cs} :=
                match cs with
                | [] => Ok []
                | Ptr child :: cs =>
                    c ← copy child;
                    cs ← loop cs;
                    Ok (Ptr c :: cs)
                | Null :: _ => Fault AssertionFailed
                | Indeterminate :: _ => Fault UndefinedBehaviour
                end) (vpChildren_i tree);
    Ok (mkUCTreeNode cs (isLeaf_i tree) (nVisits_i tree)
                     (totValue_i tree) (gamma_i tree) (rand_i tree)).

(** [virtual ~UCTreeNode()], the body: [delete vpChildren_i[k]] runs the
    destructor of the child and frees it.  The result is the node as the
    body leaves it, with the number of nodes that were freed. *)
Fixpoint destructor (this : node) : result (node * nat) :=
  if isLeaf_i this then Ok (this, O)
  else
    '(cs, freed) ←
      (fix loop (cs : list (slot node)) {struct cs}
         : result (list (slot node) * nat) :=
         match cs with
         | [] => Ok ([], O)
         | Null :: cs =>
             '(cs, n) ← loop cs;
             Ok (Null :: cs, n)
         | Ptr child :: cs =>
             '(_, m) ← destructor child;
             '(cs, n) ← loop cs;
             Ok (Null :: cs, (S m + n)%nat)
         | Indeterminate :: _ => Fault UndefinedBehaviour
         end) (vpChildren_i this);
    Ok (set_children cs this, freed).

(** *** Pointers into the tree *)

(** [*p]: the node a pointer leads to, if it leads to one. *)
Fixpoint deref (this : node) (p : ptr) : option node :=
  match p with
  | [] => Some this
  | k :: p =>
      match vpChildren_i this !! k with
      | Some (Ptr child) => deref child p
      | _ => None
      end
  end.

(** The tree after the node behind [p] has become [n]. *)
Fixpoint store (p : ptr) (n : node) (this : node) : node :=
  match p with
  | [] => n
  | k :: p =>
      match vpChildren_i this !! k with
      | Some (Ptr child) =>
          set_children (<[k := Ptr (store p n child)]> (vpChildren_i this)) this
      | _ => this
      end
  end.

(** [p->method()] for a method that changes the node and the world. *)
Definition call_at {A} (p : ptr) (method : node -> W -> result (A * node * W))
    (this : node) (w : W) : result (A * node * W) :=
  match deref this p with
  | None => Fault UndefinedBehaviour
  | Some cur =>
      '(a, cur, w) ← method cur w;
      Ok (a, store p cur this, w)
  end.

(** [p->method()] for a method that only changes the node. *)
Definition update_at (p : ptr) (method : node -> node) (this : node) : result node :=
  match deref this p with
  | None => Fault UndefinedBehaviour
  | Some cur => Ok (store p (method cur) this)
  end.

(** The number of edges of the longest path below a node: the bound of
    the traversal loop of [iterate]. *)
Fixpoint height (this : node) : nat :=
  if isLeaf_i this then O
  else
    S ((fix loop (cs : list (slot node)) : nat :=
          match cs with
          | [] => O
          | Ptr child :: cs => Nat.max (height child) (loop cs)
          | _ :: cs => loop cs
          end) (vpChildren_i this)).

(** *** The search *)

Context {M : Type} `{!Generator W M}.

(** The loop of [rollOut]: [count] iterations left. *)
Fixpoint rollOut_loop (count : nat) (this : node) (mdp : M)
    (discount totReward : float) (w : W) : float * node * W :=
  match count with
  | O => (totReward, this, w)
  | S count =>
      let '(r, g, w) := urand_call (rand_i this) w in
      let this := set_rand g this in
      let action := double_to_int (r * double_of_int (Z.of_nat N_ACTIONS)) in
      let '(reward, mdp, w) := generator_call mdp action w in
      let totReward := (totReward + discount * reward)%float in
      let discount := (discount * gamma_i this)%float in
      rollOut_loop count this mdp discount totReward w
  end.

(** [template<class Generator> double rollOut(Generator mdp)]; [mdp] is
    passed by value, so the changes to it stay inside. *)
Definition rollOut (this : node) (mdp : M) (w : W) : float * node * W :=
  rollOut_loop MAX_ROLLOUT_ITERATIONS this mdp 1 0 w.

(** The first loop of [iterate]: [while (!pCur->isLeaf()) ...]. *)
Fixpoint traverse (bound : nat) (this : node) (pCur : ptr)
    (visited : list ptr) (rewards : list float) (mdp : M) (w : W)
    : result (node * ptr * list ptr * list float * M * W) :=
  match deref this pCur with
  | None => Fault UndefinedBehaviour
  | Some cur =>
      if isLeaf cur then Ok (this, pCur, visited, rewards, mdp, w)
      else
        match bound with
        | O => Fault LoopBound
        | S bound =>
            '(action, this, w) ← call_at pCur selectAction this w;
            let pCur := pCur ++ [action] in
            let visited := pCur :: visited in
            let '(curReward, mdp, w) := generator_call mdp (Z.of_nat action) w in
            let rewards := curReward :: rewards in
            traverse bound this pCur visited rewards mdp w
        end
  end.

(** The last loop of [iterate]: [while(!visited.empty()) ...]; the head
    of a list is the top of the stack.  [gamma_i] is the member of
    [this], the node [iterate] was called on. *)
Fixpoint backup (visited : list ptr) (rewards : list float) (value : float)
    (this : node) : result node :=
  match visited with
  | [] => Ok this
  | pCur :: visited' =>
      if negb (length visited =? length rewards)%nat then Fault AssertionFailed
      else
        match rewards with
        | [] => Fault UndefinedBehaviour
        | top :: rewards' =>
            let value := (top + gamma_i this * value)%float in
            this ← update_at pCur (updateStats value) this;
            backup visited' rewards' value this
        end
  end.

(** [template<class Generator> void iterate(Generator mdp)], first part:
    the traversal to a leaf, its expansion, the step to the selected new
    child and the rollout.  It yields the tree, the two stacks and the
    rollout value. *)
Definition iterate_descend (this : node) (mdp : M) (w : W)
    : result (node * list ptr * list float * float * W) :=
  let pCur : ptr := [] in
  let visited := [pCur] in
  let rewards := [0%float] in
  '(this, pCur, visited, rewards, mdp, w) ←
    traverse (height this) this pCur visited rewards mdp w;
  this ← update_at pCur expand this;
  '(action, this, w) ← call_at pCur selectAction this w;
  let pCur := pCur ++ [action] in
  let visited := pCur :: visited in
  let '(curReward, mdp, w) := generator_call mdp (Z.of_nat action) w in
  let rewards := curReward :: rewards in
  let '(value, this, w) := rollOut this mdp w in
  Ok (this, visited, rewards, value, w).

(** [iterate], whole: the first part, then the loop that unwinds the two
    stacks.  [mdp] is passed by value: the caller's reward source is not
    changed. *)
Definition iterate (this : node) (mdp : M) (w : W) : result (node * W) :=
  '(this, visited, rewards, value, w) ← iterate_descend this mdp w;
  this ← backup visited rewards value this;
  Ok (this, w).

(** [iterate] called once with each reward source of [mdps], in order. *)
Fixpoint iterations (mdps : list M) (this : node) (w : W) : result (node * W) :=
  match mdps with
  | [] => Ok (this, w)
  | mdp :: mdps =>
      '(this, w) ← iterate this mdp w;
      iterations mdps this w
  end.

(** *** The shape of a tree *)

(** The invariant of the member [isLeaf_i]: a leaf has all its slots
    null, any other node has a child in each of its [N_ACTIONS] slots. *)
Definition node_inv (n : node) : Prop :=
  length (vpChildren_i n) = N_ACTIONS ∧
  if isLeaf_i n then Forall (λ s, s = Null) (vpChildren_i n)
  else Forall (λ s, ∃ child, s = Ptr child) (vpChildren_i n).

(** The nodes that can be reached from [this] through child pointers. *)
Definition reachable (this n : node) : Prop := ∃ p, deref this p = Some n.

Definition tree_inv (this : node) : Prop :=
  ∀ n, reachable this n → node_inv n.

(** The number of nodes of a tree, counted without machine limits. *)
Fixpoint size (this : node) : nat :=
  if isLeaf_i this then 1%nat
  else
    S (sum_list_with
         (λ s, match s with Ptr child => size child | _ => O end)
         (vpChildren_i this)).

(** The statistics of a node. *)
Definition stats (n : node) : float * float := (nVisits_i n, totValue_i n).

(** The members of a node other than its children and its random
    source. *)
Definition members (n : node) : bool * float * float * float :=
  (isLeaf_i n, nVisits_i n, totValue_i n, gamma_i n).

(** The node behind [r], if any, has the same members in both trees. *)
Definition same_at (t t' : node) (r : ptr) : Prop :=
  match deref t r, deref t' r with
  | Some n, Some n' => members n = members n'
  | None, None => True
  | _, _ => False
  end.

(** The number of nodes below a slot. *)
Definition slot_size (s : slot node) : nat :=
  match s with Ptr child => size child | _ => O end.

(** The pointers from [p] down along [q], [p] first. *)
Fixpoint path_from (p : ptr) (q : list nat) : list ptr :=
  p :: match q with
       | [] => []
       | a :: q => path_from (p ++ [a]) q
       end.

(** The value after the rewards [popped] have been taken off the stack,
    top first. *)
Definition unwind (gamma : float) (popped : list float) (value : float) : float :=
  foldl (λ value top, top + gamma * value)%float value popped.

(** Every node below the root has the discount factor of the default
    constructor. *)
Definition below_default (this : node) : Prop :=
  ∀ k r n, deref this (k :: r) = Some n -> gamma_i n = DEFAULT_GAMMA.

(** Behind every pointer the two trees have nodes with the same members
    and the same random source, or no node at all. *)
Definition same_nodes (t t' : node) : Prop :=
  ∀ r, match deref t r, deref t' r with
       | Some n, Some n' => members n' = members n ∧ rand_i n' = rand_i n
       | None, None => True
       | _, _ => False
       end.

(** A slot of a node and the slot the loop of the copy constructor makes
    of it. *)
Definition copied (s s' : slot node) : Prop :=
  ∃ c c', s = Ptr c ∧ s' = Ptr c' ∧ copy c = Ok c' ∧
          same_nodes c c' ∧ numOfNodes c' = numOfNodes c ∧
          ∀ pd, maxDepth c' pd = maxDepth c pd.

(** The visits of the root and of its children have been counted:
    [counts] holds the count of each child, and the counts add up to the
    count of the root. *)
Definition visits_counted (this : node) (counts : list nat) : Prop :=
  length counts = N_ACTIONS ∧
  nVisits_i this = double_of_int (Z.of_nat (sum_list counts)) ∧
  ∀ i c, counts !! i = Some c ->
    ∃ child, deref this [i] = Some child ∧
             nVisits_i child = double_of_int (Z.of_nat c).

(** The tree with the slots of all its leaves set to null. *)
Fixpoint nulled (this : node) : node :=
  mkUCTreeNode
    (if isLeaf_i this then replicate N_ACTIONS Null
     else
       (fix slots (cs : list (slot node)) : list (slot node) :=
          match cs with
          | [] => []
          | Ptr child :: cs => Ptr (nulled child) :: slots cs
          | s :: cs => s :: slots cs
          end) (vpChildren_i this))
    (isLeaf_i this) (nVisits_i this) (totValue_i this) (gamma_i this) (rand_i this).

(** The invariant of a node without the content of the slots of a leaf:
    a leaf has no child, whatever its slots hold. *)
Definition node_inv_weak (n : node) : Prop :=
  length (vpChildren_i n) = N_ACTIONS ∧
  if isLeaf_i n then Forall (λ s, ∀ child, s ≠ Ptr child) (vpChildren_i n)
  else Forall (λ s, ∃ child, s = Ptr child) (vpChildren_i n).

Definition tree_inv_weak (this : node) : Prop :=
  ∀ n, reachable this n → node_inv_weak n.

(** What [nulled] makes of a slot. *)
Definition nulled_slot (s : slot node) : slot node :=
  match s with Ptr c => Ptr (nulled c) | s => s end.

(** *** Selection, as the specification words it *)

(** The children of a node, in the order of their actions. *)
Definition children (this : node) : list node :=
  omap (λ s, match s with Ptr child => Some child | _ => None end)
       (vpChildren_i this).

(** [count] successive results of the random source [g]. *)
Fixpoint urand_draws (count : nat) (g : G) (w : W) : list float * G * W :=
  match count with
  | O => ([], g, w)
  | S count =>
      let '(r, g, w) := urand_call g w in
      let '(rs, g, w) := urand_draws count g w in
      (r :: rs, g, w)
  end.

(** [count] successive results of [rand()]. *)
Fixpoint rand_draws (count : nat) (w : W) : list Z * W :=
  match count with
  | O => ([], w)
  | S count =>
      let '(r, w) := c_rand w in
      let '(rs, w) := rand_draws count w in
      (r :: rs, w)
  end.

(** The score of each child in [selectAction], given the results
    [noise] of the random source. *)
Definition uct_scores (this : node) (noise : list float) : list float :=
  zip_with
    (λ child r,
       (totValue_i child / (nVisits_i child + EPSILON)
        + sqrt (c_log (nVisits_i this + 1) / (nVisits_i child + EPSILON))
        + r * EPSILON)%float)
    (children this) noise.

(** The score of each child in [bestAction], given the results [rands]
    of [rand()]. *)
Definition exp_scores (this : node) (rands : list Z) : list float :=
  zip_with
    (λ child r,
       (totValue_i child / (nVisits_i child + EPSILON)
        + double_of_int r * EPSILON / double_of_int RAND_MAX)%float)
    (children this) rands.


(** The scan of both loops over the values of the children: from index
    [k] on, with the index [selected] and the value [bestValue] found so
    far. *)
Fixpoint scan (values : list float) (k selected : nat) (bestValue : float) : nat :=
  match values with
  | [] => selected
  | value :: values =>
      if double_ge value bestValue then scan values (S k) k value
      else scan values (S k) selected bestValue
  end.

(** A score takes part in the comparison of the scan when it is not
    below the initial [bestValue]. *)
Definition ordered (v : float) : bool := double_ge v (- DBL_MAX)%float.

(** What the scan selects among any [values]: action 0 when no value is
    ordered; otherwise the index of an ordered value that is not below
    any other ordered value, the last such index. *)
Definition selected_by_scan (values : list float) (a : nat) : Prop :=
  ((∀ v, v ∈ values -> ordered v = false) ∧ a = O) ∨
  ∃ va, values !! a = Some va ∧ ordered va = true ∧
        (∀ j v, values !! j = Some v -> ordered v = true -> double_ge va v = true) ∧
        (∀ j v, (a < j)%nat -> values !! j = Some v -> double_ge v va = false).
End UCT.

(** ** Printing a node *)

Section Stream.
Variable N_ACTIONS : nat.

(** The loop of [operator<<]: [out << ",Q" << k << '=' << tree.qValue(k)]. *)
Fixpoint operator_lshift_loop (count : nat) (k : Z) (tree : UCTreeNode SimpleURand)
    (out : list output) : result (list output) :=
  match count with
  | O => Ok out
  | S count =>
      q ← qValue N_ACTIONS tree k;
      operator_lshift_loop count (int_add k 1) tree
        (out ++ [OutString ",Q"; OutInt k; OutChar "="%char; OutDouble q])
  end.

(** [template<int N_ACTIONS> std::ostream& operator<<(std::ostream& out,
    const UCTreeNode<N_ACTIONS>& tree)]; the stream is the list of what
    has been written to it. *)
Definition operator_lshift (out : list output) (tree : UCTreeNode SimpleURand)
    : result (list output) :=
  let out := out ++ [OutString "[V="; OutDouble (vValue tree)] in
  if isLeaf tree then Ok (out ++ [OutChar "]"%char])
  else
    out ← operator_lshift_loop N_ACTIONS 0 tree out;
    Ok (out ++ [OutChar "]"%char]).

(** The pieces written for the children from index [k] on. *)
Definition q_pieces (k : nat) (cs : list (UCTreeNode SimpleURand)) : list output :=
  concat (imap (λ j child, [OutString ",Q"; OutInt (Z.of_nat (k + j));
                            OutChar "="%char; OutDouble (vValue child)]) cs).
End Stream.

(** ** A concrete environment

  An environment on which the definitions above can be run: a C library
  whose [rand()] reads its results off a list, a random source that reads
  its doubles off a list, and reward sources given by a function. *)
Module Sample.

(** The natural logarithm, from [frshiftexp] and the series of
    [2 * atanh ((m - 1) / (m + 1))] with [m] brought close to 1; it
    stands for [std::log]. *)
Definition ln2 : float := 0x1.62e42fefa39efp-1%float.

Fixpoint atanh_series (terms : nat) (k : Z) (z2 zk acc : float) : float :=
  match terms with
  | O => acc
  | S terms =>
      atanh_series terms (k + 2) z2 (zk * z2)%float
                   (acc + zk / double_of_int k)%float
  end.

Definition log (x : float) : float :=
  if PrimFloat.ltb x 0 then nan
  else if PrimFloat.eqb x 0 then neg_infinity
  else if PrimFloat.eqb x infinity then infinity
  else if PrimFloat.eqb x x then
    let '(m, e) := frshiftexp x in
    let e := Uint63.to_Z e - FloatOps.shift in
    let '(m, e) := if PrimFloat.ltb m 0.75 then ((2 * m)%float, e - 1) else (m, e) in
    let z := ((m - 1) / (m + 1))%float in
    (double_of_int e * ln2 + 2 * atanh_series 20 1 (z * z) z 0)%float
  else nan.

(** [rand()] returns the head of the list and drops it; 0 once the list
    is used up. *)
#[export] Instance libc : Libc (list Z) := {
  c_rand w := (hd 0 w, tl w);
  RAND_MAX := 2147483647;
  c_log := log
}.

(** A random source that plays back a list of doubles, then 0. *)
#[export] Instance playback {W} : URand W (list float) := {
  urand_new := [];
  urand_call g w := (hd 0%float g, tl g, w)
}.

(** A reward source without state. *)
#[export] Instance rewards {W} : Generator W (Z -> float) := {
  generator_call mdp action w := (mdp action, mdp, w)
}.

(** Trees over the random source that plays back a list. *)
Definition tree : Type := UCTreeNode (list float).

(** A new root whose random source has nothing to play back. *)
Definition fresh (N_ACTIONS : nat) (inGamma : float) : tree :=
new_UCTreeNode N_ACTIONS inGamma [].

(** That root, expanded. *)
Definition expanded (N_ACTIONS : nat) (inGamma : float) : tree :=
expand (W := list Z) N_ACTIONS (fresh N_ACTIONS inGamma).

(** The reward source that pays 1 for every action. *)
Definition unit_reward : Z -> float := λ _, 1%float.

(** A reward source that knows the rewards of the actions below [n] only:
    for any other action it answers NaN. *)
Definition in_range_only {W : Type} (n : Z) : Generator W (Z -> float) := {|
  generator_call mdp action w :=
    (if (0 <=? action) && (action <? n) then mdp action else nan, mdp, w)
|}.

(** A root over the default random source. *)
Definition default_root (N_ACTIONS : nat) : UCTreeNode SimpleURand :=
new_UCTreeNode N_ACTIONS DEFAULT_GAMMA mkSimpleURand.

(** A node whose two children have a total value that is not a number. *)
Definition nan_children : tree :=
mkUCTreeNode
  [Ptr (mkUCTreeNode [Null; Null] true 1 nan DEFAULT_GAMMA []);
   Ptr (mkUCTreeNode [Null; Null] true 1 nan DEFAULT_GAMMA [])]
  false 2 nan DEFAULT_GAMMA [].

(** What the copy constructor makes of the expanded root: the slots of
    the new leaves are allocated and never written. *)
Definition expanded_copy : tree :=
mkUCTreeNode
  [Ptr (mkUCTreeNode [Indeterminate; Indeterminate] true 0 0 DEFAULT_GAMMA []);
   Ptr (mkUCTreeNode [Indeterminate; Indeterminate] true 0 0 DEFAULT_GAMMA [])]
  false 0 0 DEFAULT_GAMMA [].

End Sample.

(** * Properties *)

(** ** The order of the doubles *)

Ltac compare_cases :=
repeat match goal with
| H : context [Pos.compare_cont Eq ?a ?b] |- _ =>
    change (Pos.compare_cont Eq a b) with (Pos.compare a b) in H
| |- context [Pos.compare_cont Eq ?a ?b] =>
    change (Pos.compare_cont Eq a b) with (Pos.compare a b)
| H : context [Z.compare ?a ?b] |- _ => destruct (Z.compare_spec a b)
| |- context [Z.compare ?a ?b] => destruct (Z.compare_spec a b)
| H : context [Pos.compare ?a ?b] |- _ => destruct (Pos.compare_spec a b)
| |- context [Pos.compare ?a ?b] => destruct (Pos.compare_spec a b)
end;
simpl in *; try discriminate; try reflexivity; try lia.

Lemma SFleb_refl_r (a x : spec_float) : SFleb a x = true -> SFleb x x = true.
Proof.
unfold SFleb, SFcompare.
destruct a as [[]|[]| |[] ? ?], x as [[]|[]| |[] ? ?]; try done; intros _; compare_cases.
Qed.

Lemma SFleb_total (x y : spec_float) :
SFleb x x = true -> SFleb y y = true -> SFleb x y = false -> SFleb y x = true.
Proof.
unfold SFleb, SFcompare.
destruct x as [[]|[]| |[] ? ?], y as [[]|[]| |[] ? ?]; try done; intros _ _;
  compare_cases.
Qed.

Lemma SFleb_trans (x y z : spec_float) :
SFleb x y = true -> SFleb y z = true -> SFleb x z = true.
Proof.
unfold SFleb, SFcompare.
destruct x as [[]|[]| |[] ? ?], y as [[]|[]| |[] ? ?], z as [[]|[]| |[] ? ?];
  try done; compare_cases.
Qed.

Lemma double_ge_refl_l (x a : float) : double_ge x a = true -> double_ge x x = true.
Proof. unfold double_ge. rewrite !leb_spec. apply SFleb_refl_r. Qed.

Lemma double_ge_total (x y : float) :
double_ge x x = true -> double_ge y y = true ->
double_ge x y = false -> double_ge y x = true.
Proof. unfold double_ge. rewrite !leb_spec. intros. by apply SFleb_total. Qed.

Lemma double_ge_trans (x y z : float) :
double_ge x y = true -> double_ge y z = true -> double_ge x z = true.
Proof. unfold double_ge. rewrite !leb_spec. intros. by apply (SFleb_trans _ (Prim2SF y)). Qed.

(** ** The conversion of a random number to an action index *)

(** Linear arithmetic over powers of two taken as unknowns. *)
Ltac pow_lia :=
  repeat match goal with
  | |- context [Z.pow 2 ?e] =>
      let a := fresh "a" in set (a := Z.pow 2 e) in *; clearbody a
  | H : context [Z.pow 2 ?e] |- _ =>
      let a := fresh "a" in set (a := Z.pow 2 e) in *; clearbody a
  end; lia.

Lemma digits2_pos_bounds (m : positive) :
  2 ^ (Z.pos (digits2_pos m) - 1) <= Z.pos m < 2 ^ Z.pos (digits2_pos m).
Proof.
  induction m as [m IH|m IH|]; simpl digits2_pos.
  - rewrite Pos2Z.inj_succ, (Pos2Z.inj_xI m).
    replace (Z.succ (Z.pos (digits2_pos m)) - 1) with (Z.succ (Z.pos (digits2_pos m) - 1)) by lia.
    rewrite !Z.pow_succ_r by lia. pow_lia.
  - rewrite Pos2Z.inj_succ, (Pos2Z.inj_xO m).
    replace (Z.succ (Z.pos (digits2_pos m)) - 1) with (Z.succ (Z.pos (digits2_pos m) - 1)) by lia.
    rewrite !Z.pow_succ_r by lia. pow_lia.
  - simpl. lia.
Qed.

Lemma shr_1_shifted (m0 j : Z) (x : shr_record) :
  0 <= m0 -> 0 <= j -> shifted m0 j x -> shifted m0 (j + 1) (shr_1 x).
Proof.
  intros Hm Hj [Hx _]. destruct x as [m r s]. simpl in Hx.
  assert (Hpos : 0 <= m) by (subst m; apply Z.div_pos; lia).
  assert (Hdiv : m0 / 2 ^ (j + 1) = m / 2).
  { rewrite Z.pow_add_r, <- Z.div_div by lia. by rewrite <- Hx. }
  unfold shifted. replace (j + 1 - 1) with j by lia.
  rewrite Hdiv, <- Hx, <- Z.div2_div.
  destruct m as [|[p|p|]|p]; try lia; done.
Qed.

Lemma iter_shr_1_shifted (p : positive) (m0 j : Z) (x : shr_record) :
  0 <= m0 -> 0 <= j -> shifted m0 j x ->
  shifted m0 (j + Z.pos p) (SpecFloat.iter_pos shr_1 p x).
Proof.
  intros Hm. revert j x.
  induction p as [p IH|p IH|]; intros j x Hj Hx; simpl SpecFloat.iter_pos.
  - rewrite (Pos2Z.inj_xI p).
    replace (j + (2 * Z.pos p + 1)) with (j + 1 + Z.pos p + Z.pos p) by lia.
    apply IH; [lia|]. apply IH; [lia|]. by apply shr_1_shifted.
  - rewrite (Pos2Z.inj_xO p).
    replace (j + 2 * Z.pos p) with (j + Z.pos p + Z.pos p) by lia.
    apply IH; [lia|]. by apply IH.
  - by apply shr_1_shifted.
Qed.

Lemma shr_fexp_spec (m e : Z) :
  0 <= m ->
  ∃ x e', shr_fexp prec emax m e loc_Exact = (x, e') ∧ e <= e' ∧
          0 <= shr_m x ∧ shr_m x * 2 ^ (e' - e) <= m ∧
          (e' = e ∧ x = Build_shr_record m false false ∨
           0 < e' - e ∧ e' = fexp prec emax (Zdigits2 m + e) ∧ shifted m (e' - e) x).
Proof.
  intros Hm. unfold shr_fexp, shr. simpl shr_record_of_loc.
  destruct (fexp prec emax (Zdigits2 m + e) - e) as [|p|p] eqn:Hn.
  - eexists _, _. split; [done|]. rewrite Z.sub_diag. simpl. split_and!; auto; lia.
  - pose proof (iter_shr_1_shifted p m 0 (Build_shr_record m false false) Hm
                  ltac:(lia)) as Hs.
    destruct Hs as [Hs1 Hs2].
    { split; [simpl; by rewrite Z.div_1_r|lia]. }
    eexists _, _. split; [done|].
    replace (e + Z.pos p - e) with (0 + Z.pos p) by lia.
    split_and!; [lia| | |].
    + rewrite Hs1. apply Z.div_pos; [lia|]. apply Z.pow_pos_nonneg; lia.
    + rewrite Hs1, Z.mul_comm. apply Z.mul_div_le. apply Z.pow_pos_nonneg; lia.
    + right. split_and!; [lia|lia|done].
  - eexists _, _. split; [done|]. rewrite Z.sub_diag. simpl. split_and!; auto; lia.
Qed.

Lemma round_nearest_even_cases (x : shr_record) :
  round_nearest_even (shr_m x) (loc_of_shr_record x) = shr_m x ∨
  shr_r x = true ∧ round_nearest_even (shr_m x) (loc_of_shr_record x) = shr_m x + 1.
Proof.
  destruct x as [m [] []]; simpl; auto. destruct (Z.even m); auto.
Qed.

(** Rounding to nearest adds at most half of the last place that is
    kept. *)
Lemma round_shifted_le (m n : Z) (x : shr_record) :
  0 <= m -> 0 < n -> shifted m n x ->
  0 <= round_nearest_even (shr_m x) (loc_of_shr_record x) ∧
  round_nearest_even (shr_m x) (loc_of_shr_record x) * 2 ^ n <= m + 2 ^ (n - 1).
Proof.
  intros Hm Hn [Hx Hr].
  assert (Hp : 0 < 2 ^ n) by (apply Z.pow_pos_nonneg; lia).
  assert (Hp1 : 0 < 2 ^ (n - 1)) by (apply Z.pow_pos_nonneg; lia).
  assert (Hpow : 2 ^ n = 2 * 2 ^ (n - 1)).
  { replace n with (Z.succ (n - 1)) at 1 by lia. apply Z.pow_succ_r. lia. }
  assert (Hq0 : 0 <= shr_m x) by (rewrite Hx; apply Z.div_pos; lia).
  pose proof (Z.mul_div_le m (2 ^ n) Hp) as Hfloor.
  destruct (round_nearest_even_cases x) as [->|[Hbit ->]].
  - rewrite Hx. split; [lia|]. rewrite Z.mul_comm. lia.
  - split; [lia|]. rewrite Hr in Hbit by lia.
    set (q := m / 2 ^ (n - 1)) in *.
    assert (Hq : m / 2 ^ n = q / 2).
    { unfold q. rewrite Hpow, (Z.mul_comm 2), <- Z.div_div by lia. done. }
    pose proof (Z.mul_div_le m (2 ^ (n - 1)) Hp1) as Hfloor1. fold q in Hfloor1.
    rewrite Hx, Hq. pose proof (Zodd_bool_iff q) as Hodd.
    rewrite Z.odd_spec in Hbit. destruct Hbit as [k Hk].
    assert (Hk2 : q / 2 = k).
    { rewrite Hk, (Z.mul_comm 2), Z.div_add_l by lia.
      rewrite (Z.div_small 1 2) by lia. lia. }
    rewrite Hk2, Hpow. nia.
Qed.

(** The result of rounding the positive number [m * 2^e]: nothing above
    [m * 2^e] plus half a unit in the last place. *)
Lemma binary_round_aux_upper (m : positive) (e : Z) :
  ∃ m2 e2,
    binary_round_aux prec emax false (Z.pos m) e loc_Exact
    = match m2 with
      | 0 => S754_zero false
      | Z.pos p =>
          if e2 <=? emax - prec then S754_finite false p e2 else S754_infinity false
      | Z.neg _ => S754_nan
      end ∧
    0 <= m2 ∧ e <= e2 ∧
    ∃ h, m2 * 2 ^ (e2 - e) <= Z.pos m + h ∧
         (h = 0 ∨ h = 2 ^ (fexp prec emax (Z.pos (digits2_pos m) + e) - e - 1) ∧
                  0 < fexp prec emax (Z.pos (digits2_pos m) + e) - e).
Proof.
  unfold binary_round_aux.
  destruct (shr_fexp_spec (Z.pos m) e ltac:(lia))
    as (x1 & e1 & -> & He1 & Hx1 & Hle1 & Hcase).
  set (m1 := round_nearest_even (shr_m x1) (loc_of_shr_record x1)).
  assert (Hm1 : 0 <= m1 ∧ ∃ h, m1 * 2 ^ (e1 - e) <= Z.pos m + h ∧
            (h = 0 ∨ h = 2 ^ (fexp prec emax (Z.pos (digits2_pos m) + e) - e - 1) ∧
                     0 < fexp prec emax (Z.pos (digits2_pos m) + e) - e)).
  { destruct Hcase as [[-> ->]|(Hn & Hfexp & Hsh)].
    - unfold m1. simpl. split; [lia|]. exists 0. rewrite Z.sub_diag. simpl.
      split; [lia|auto].
    - destruct (round_shifted_le (Z.pos m) (e1 - e) x1 ltac:(lia) Hn Hsh) as [H0 Hle].
      split; [done|]. exists (2 ^ (e1 - e - 1)). split; [done|]. right.
      simpl Zdigits2 in Hfexp. rewrite <- Hfexp. split; [done|lia]. }
  destruct Hm1 as [Hm1 (h & Hle & Hh)].
  destruct (shr_fexp_spec m1 e1 Hm1) as (x2 & e2 & -> & He2 & Hx2 & Hle2 & _).
  exists (shr_m x2), e2. split; [by destruct (shr_m x2)|].
  split; [done|]. split; [lia|]. exists h. split; [|done].
  replace (e2 - e) with ((e2 - e1) + (e1 - e)) by lia.
  rewrite Z.pow_add_r by lia.
  assert (0 <= 2 ^ (e1 - e)) by (apply Z.pow_nonneg; lia).
  nia.
Qed.

Lemma iter_xO_value (p k : positive) :
  Z.pos (Pos.iter xO p k) = Z.pos p * 2 ^ Z.pos k ∧
  digits2_pos (Pos.iter xO p k) = (digits2_pos p + k)%positive.
Proof.
  induction k as [|k [IH1 IH2]] using Pos.peano_ind.
  - simpl. split; [lia|]. by rewrite Pos.add_1_r.
  - rewrite Pos.iter_succ. split.
    + rewrite (Pos2Z.inj_xO (Pos.iter xO p k)), IH1, Pos2Z.inj_succ.
      rewrite Z.pow_succ_r by lia. lia.
    + simpl. rewrite IH2. lia.
Qed.

(** An integer of at most 53 binary digits is a double: the conversion
    shifts it to a mantissa of 53 digits. *)
Lemma Prim2SF_double_of_int (N : Z) :
  0 < N < 2 ^ 53 ->
  ∃ mN eN, Prim2SF (double_of_int N) = S754_finite false mN eN ∧
           -52 <= eN <= 0 ∧ Z.pos mN = N * 2 ^ (- eN) ∧
           Z.pos (digits2_pos mN) = 53.
Proof.
  intros HN. unfold double_of_int.
  destruct (N <? 0) eqn:Hneg; [apply Z.ltb_lt in Hneg; lia|].
  rewrite of_uint63_spec, Uint63.of_Z_spec.
  rewrite Z.mod_small by (change Uint63Axioms.wB with (2 ^ 63); split; [lia|];
    apply (Z.lt_trans _ (2 ^ 53)); [lia|done]).
  destruct N as [|p|p]; try lia.
  unfold binary_normalize, binary_round.
  pose proof (digits2_pos_bounds p) as Hd.
  set (d := Z.pos (digits2_pos p)) in *.
  assert (Hd53 : d <= 53).
  { destruct (Z.le_gt_cases d 53) as [|Hgt]; [done|].
    assert (2 ^ 53 <= 2 ^ (d - 1)) by (apply Z.pow_le_mono_r; lia). lia. }
  assert (Hd1 : 1 <= d) by (unfold d; lia).
  assert (Hfexp : fexp prec emax (d + 0) = d - 53).
  { unfold fexp, SpecFloat.emin, prec, emax. lia. }
  rewrite Hfexp.
  assert (Halign : ∃ mz, shl_align p 0 (d - 53) = (mz, d - 53) ∧
                         Z.pos mz = Z.pos p * 2 ^ (53 - d) ∧
                         Z.pos (digits2_pos mz) = 53).
  { unfold shl_align. destruct (d - 53 - 0) as [|k|k] eqn:Hk; try lia.
    - exists p. replace (d - 53) with 0 by lia. replace (53 - d) with 0 by lia.
      split_and!; [done|simpl; lia|fold d; lia].
    - destruct (iter_xO_value p k) as [Hv Hdig].
      exists (Pos.iter xO p k). split_and!; [done| |].
      + rewrite Hv. do 2 f_equal. lia.
      + rewrite Hdig, Pos2Z.inj_add. fold d. lia. }
  destruct Halign as (mz & -> & Hmz & Hdz).
  exists mz, (d - 53). split_and!; [|lia|lia| |done].
  - unfold binary_round_aux, shr_fexp. simpl Zdigits2. rewrite Hdz.
    replace (fexp prec emax (53 + (d - 53)) - (d - 53)) with 0
      by (unfold fexp, SpecFloat.emin, prec, emax; lia).
    simpl. rewrite Hdz.
    replace (fexp prec emax (53 + (d - 53)) - (d - 53)) with 0
      by (unfold fexp, SpecFloat.emin, prec, emax; lia).
    simpl. destruct (d - 53 <=? emax - prec) eqn:Hle; [done|].
    apply Z.leb_gt in Hle. unfold emax, prec in Hle. lia.
  - rewrite Hmz. do 2 f_equal. lia.
Qed.

(** A double in [0, 1), other than zero, as a mantissa and an exponent. *)
Lemma unit_interval_SF (r : float) :
  PrimFloat.leb 0 r = true -> PrimFloat.ltb r 1 = true ->
  (∃ s, Prim2SF r = S754_zero s) ∨
  ∃ mx ex, Prim2SF r = S754_finite false mx ex ∧
           -1074 <= ex <= -53 ∧ Z.pos mx < 2 ^ 53.
Proof.
  rewrite leb_spec, ltb_spec. pose proof (Prim2SF_valid r) as Hvalid.
  change (Prim2SF 0) with (S754_zero false).
  change (Prim2SF 1) with (S754_finite false 4503599627370496 (-52)).
  destruct (Prim2SF r) as [s|s| |s mx ex]; [by eauto|by destruct s|done|].
  unfold SFleb, SFltb, SFcompare. destruct s; [done|]. intros _ Hlt. right.
  assert (Hcmp : ex < -52 ∨ ex = -52 ∧ (mx < 4503599627370496)%positive).
  { clear Hvalid. destruct (Z.compare_spec ex (-52)) as [Hex|Hex|Hex]; [|by left|done].
    right. split; [done|]. unfold Pos.lt, Pos.compare.
    by destruct (Pos.compare_cont Eq mx 4503599627370496). }
  clear Hlt. exists mx, ex. split; [done|].
  simpl in Hvalid. unfold bounded, canonical_mantissa in Hvalid.
  apply andb_prop in Hvalid as [Hcanon _]. apply Z.eqb_eq in Hcanon.
  pose proof (digits2_pos_bounds mx) as Hd.
  set (d := Z.pos (digits2_pos mx)) in *. clearbody d.
  unfold fexp, SpecFloat.emin, prec, emax in Hcanon.
  assert (Hd53 : d <= 53) by (clear -Hcanon; lia).
  assert (Hpow : 2 ^ d <= 2 ^ 53) by (apply Z.pow_le_mono_r; [done|exact Hd53]).
  split; [|exact (Z.lt_le_trans _ _ _ (proj2 Hd) Hpow)].
  clear Hpow.
  destruct Hcmp as [Hex|[Hex Hm]]; [clear -Hcanon Hex; lia|]. exfalso.
  assert (Hd' : d = 53) by (clear -Hcanon Hex; lia).
  rewrite Hd' in Hd. destruct Hd as [Hd _].
  change (2 ^ (53 - 1)) with 4503599627370496 in Hd.
  apply Pos2Z.pos_lt_pos in Hm. apply (Z.lt_irrefl (Z.pos mx)).
  by apply (Z.lt_le_trans _ 4503599627370496).
Qed.

(** The arithmetic behind the range of the product: with [mx < 2^53] a
    mantissa of a double below 1 of exponent [-E] and [X = mN * 2^E] the
    other factor on the same scale, the product plus half a unit in its
    last place stays below [X]. *)
Lemma product_plus_half_below (mx mN E D h : Z) :
  0 < mx < 2 ^ 53 -> 53 <= E -> 2 ^ 52 <= mN ->
  2 ^ (D - 1) <= mx * mN ->
  h = 0 ∨ (54 <= D ∧ h = 2 ^ (D - 54)) ∨ (0 <= h <= 2 ^ 51) ->
  mx * mN + h < mN * 2 ^ E.
Proof.
  intros Hmx HE HmN HD Hh.
  assert (HE53 : 2 ^ 53 <= 2 ^ E) by (apply Z.pow_le_mono_r; lia).
  set (X := mN * 2 ^ E). set (m := mx * mN) in *.
  assert (Hm : m * 2 ^ 53 <= (2 ^ 53 - 1) * X).
  { unfold m, X. change (2 ^ 53) with 9007199254740992 in *.
    change (2 ^ 52) with 4503599627370496 in *. nia. }
  change (2 ^ 53) with 9007199254740992 in *.
  change (2 ^ 52) with 4503599627370496 in *.
  change (2 ^ 51) with 2251799813685248 in *.
  assert (HX : 4503599627370496 * 9007199254740992 <= X) by (unfold X; nia).
  destruct Hh as [->|[[HD54 ->]|Hh]].
  - lia.
  - assert (Hh : 2 ^ (D - 54) * 9007199254740992 = 2 ^ (D - 1)).
    { replace (D - 1) with (D - 54 + 53) by lia. rewrite Z.pow_add_r by lia. done. }
    nia.
  - lia.
Qed.

(** The value of a finite positive double below an integer bound, on the
    scale [2^(-e)] with [e <= e2] and [e <= 0]: its integral part is below
    the bound. *)
Lemma trunc_below (p : positive) (e e2 N : Z) :
  e <= e2 -> e <= 0 -> 0 < N ->
  Z.pos p * 2 ^ (e2 - e) < N * 2 ^ (- e) ->
  0 <= (if 0 <=? e2 then Z.pos p * 2 ^ e2 else Z.pos p / 2 ^ (- e2)) < N.
Proof.
  intros He2 He HN Hlt.
  destruct (0 <=? e2) eqn:Hs.
  - apply Z.leb_le in Hs.
    assert (Hp : 0 < 2 ^ e2) by (apply Z.pow_pos_nonneg; lia).
    assert (Hq : 0 < 2 ^ (- e)) by (apply Z.pow_pos_nonneg; lia).
    split; [clear -Hp; nia|].
    replace (e2 - e) with (e2 + - e) in Hlt by lia.
    rewrite Z.pow_add_r, Z.mul_assoc in Hlt by lia.
    by apply Z.mul_lt_mono_pos_r in Hlt.
  - apply Z.leb_gt in Hs.
    assert (Hp : 0 < 2 ^ (- e2)) by (apply Z.pow_pos_nonneg; lia).
    assert (Hq : 0 < 2 ^ (e2 - e)) by (apply Z.pow_pos_nonneg; lia).
    split; [apply Z.div_pos; lia|].
    replace (- e) with (- e2 + (e2 - e)) in Hlt by lia.
    rewrite Z.pow_add_r, Z.mul_assoc in Hlt by lia.
    apply Z.mul_lt_mono_pos_r in Hlt; [|done].
    apply Z.div_lt_upper_bound; [done|]. by rewrite Z.mul_comm.
Qed.

(** A result of the random source in [0, 1), times the number of
    actions, converts to an action index in [0, N). *)
Theorem double_to_int_unit (r : float) (N : Z) :
  0 < N <= INT_MAX ->
  PrimFloat.leb 0 r = true -> PrimFloat.ltb r 1 = true ->
  0 <= double_to_int (r * double_of_int N) < N.
Proof.
  intros HN H0 H1.
  destruct (Prim2SF_double_of_int N) as (mN & eN & HNf & HeN & HmN & HdN).
  { unfold INT_MAX in HN. split; [lia|]. apply (Z.le_lt_trans _ 2147483647); [lia|done]. }
  unfold double_to_int, double_trunc. rewrite mul_spec, HNf.
  destruct (unit_interval_SF r H0 H1) as [[s ->]|(mx & ex & -> & Hex & Hmx)].
  { simpl. lia. }
  unfold SF64mul, SFmul. simpl xorb.
  destruct (binary_round_aux_upper (mx * mN) (ex + eN))
    as (m2 & e2 & -> & Hm2 & He2 & h & Hle & Hh).
  pose proof (digits2_pos_bounds (mx * mN)) as HD.
  pose proof (digits2_pos_bounds mN) as HdmN. rewrite HdN in HdmN.
  change (2 ^ (53 - 1)) with (2 ^ 52) in HdmN.
  set (D := Z.pos (digits2_pos (mx * mN))) in *. clearbody D.
  rewrite Pos2Z.inj_mul in *.
  assert (Hbelow : Z.pos mx * Z.pos mN + h < Z.pos mN * 2 ^ (- ex)).
  { apply (product_plus_half_below _ _ _ D); [lia|lia|lia|lia|].
    unfold fexp, SpecFloat.emin, prec, emax in Hh.
    destruct Hh as [->|[-> Hn]]; [by left|right].
    destruct (Z.le_gt_cases (-1074) (D + (ex + eN) - 53)) as [Hnorm|Hsub].
    - left. rewrite Z.max_l in * by lia. split; [lia|f_equal; lia].
    - right. rewrite Z.max_r in * by lia.
      split; [apply Z.pow_nonneg; lia|apply Z.pow_le_mono_r; lia]. }
  assert (HX : Z.pos mN * 2 ^ (- ex) = N * 2 ^ (- (ex + eN))).
  { rewrite HmN, <- Z.mul_assoc, <- Z.pow_add_r by lia. do 2 f_equal. lia. }
  assert (Hlt : m2 * 2 ^ (e2 - (ex + eN)) < N * 2 ^ (- (ex + eN))).
  { rewrite <- HX. eapply Z.le_lt_trans; [exact Hle|exact Hbelow]. }
  destruct m2 as [|p|p]; [simpl; lia| |lia].
  assert (He2max : e2 <= emax - prec).
  { unfold emax, prec. destruct (Z.le_gt_cases e2 971) as [|Hbig]; [done|]. exfalso.
    assert (Hpow : 2 ^ (53 + - ex) <= 2 ^ (e2 - (ex + eN)))
      by (apply Z.pow_le_mono_r; lia).
    rewrite Z.pow_add_r in Hpow by lia.
    assert (Hq : 0 < 2 ^ (- ex)) by (apply Z.pow_pos_nonneg; lia).
    rewrite <- HX in Hlt. clear -Hlt Hpow Hq HdmN. nia. }
  apply Z.leb_le in He2max. rewrite He2max.
  pose proof (trunc_below p (ex + eN) e2 N He2 ltac:(lia) ltac:(lia) Hlt) as Ha.
  set (a := if 0 <=? e2 then Z.pos p * 2 ^ e2 else Z.pos p / 2 ^ (- e2)) in *.
  clearbody a.
  assert (Hr : (INT_MIN <=? a) && (a <=? INT_MAX) = true).
  { apply andb_true_intro. unfold INT_MIN, INT_MAX in *.
    split; [apply Z.leb_le|apply Z.leb_le]; lia. }
  by rewrite Hr.
Qed.

(** ** The quotient of two integers as a random number *)

Lemma shr_fexp_loc_spec (m e : Z) (l : location) :
  0 <= m ->
  ∃ x e', shr_fexp prec emax m e l = (x, e') ∧ e <= e' ∧
          (e' = e ∧ x = shr_record_of_loc m l ∨
           0 < e' - e ∧ e' = fexp prec emax (Zdigits2 m + e) ∧ shifted m (e' - e) x).
Proof.
  intros Hm. unfold shr_fexp, shr.
  destruct (fexp prec emax (Zdigits2 m + e) - e) as [|p|p] eqn:Hn.
  - eexists _, _. split; [done|]. split; [lia|]. by left.
  - pose proof (iter_shr_1_shifted p m 0 (shr_record_of_loc m l) Hm ltac:(lia)) as Hs.
    eexists _, _. split; [done|]. split; [lia|]. right.
    replace (e + Z.pos p - e) with (0 + Z.pos p) by lia.
    split_and!; [lia|lia|]. apply Hs.
    split; [|lia]. rewrite Z.div_1_r. by destruct l as [|[]].
  - eexists _, _. split; [done|]. split; [lia|]. by left.
Qed.

(** The result of rounding a positive number that lies in
    [[m * 2^e, (m + 1) * 2^e)]: nothing above [(m + 1) * 2^e] when the
    last place kept is that of [m] or the one above it. *)
Lemma binary_round_aux_loc_upper (m : positive) (e : Z) (l : location) :
  fexp prec emax (Z.pos (digits2_pos m) + e) - e <= 1 ->
  ∃ m2 e2,
    binary_round_aux prec emax false (Z.pos m) e l
    = match m2 with
      | 0 => S754_zero false
      | Z.pos p =>
          if e2 <=? emax - prec then S754_finite false p e2 else S754_infinity false
      | Z.neg _ => S754_nan
      end ∧
    0 <= m2 ∧ e <= e2 ∧ m2 * 2 ^ (e2 - e) <= Z.pos m + 1.
Proof.
  intros Hn. unfold binary_round_aux.
  destruct (shr_fexp_loc_spec (Z.pos m) e l ltac:(lia))
    as (x1 & e1 & -> & He1 & Hcase).
  set (m1 := round_nearest_even (shr_m x1) (loc_of_shr_record x1)).
  assert (Hm1 : 0 <= m1 ∧ m1 * 2 ^ (e1 - e) <= Z.pos m + 1).
  { destruct Hcase as [[-> ->]|(Hpos & Hfexp & Hsh)].
    - unfold m1. rewrite Z.sub_diag, Z.mul_1_r.
      destruct l as [|[]];
        cbn [shr_record_of_loc loc_of_shr_record shr_m round_nearest_even];
        try lia. destruct (Z.even (Z.pos m)); lia.
    - destruct (round_shifted_le (Z.pos m) (e1 - e) x1 ltac:(lia) Hpos Hsh) as [H0 Hle].
      split; [done|]. simpl Zdigits2 in Hfexp.
      assert (Hone : e1 - e = 1) by lia.
      rewrite Hone in Hle |- *. exact Hle. }
  destruct Hm1 as [Hm1 Hle].
  destruct (shr_fexp_spec m1 e1 Hm1) as (x2 & e2 & -> & He2 & Hx2 & Hle2 & _).
  exists (shr_m x2), e2. split; [by destruct (shr_m x2)|].
  split; [done|]. split; [lia|].
  replace (e2 - e) with ((e2 - e1) + (e1 - e)) by lia.
  rewrite Z.pow_add_r by lia.
  assert (0 <= 2 ^ (e1 - e)) by (apply Z.pow_nonneg; lia).
  nia.
Qed.

(** The arithmetic behind the range of the quotient: [ma] and [mb] are
    the mantissas of the integers [a < b], [q] is the quotient of
    [ma * 2^53] by [mb]; then [q + 1] stays below the image of 1. *)
Lemma quotient_plus_one_below (a b ma mb ea eb q r : Z) :
  0 < a < b -> -52 <= ea <= 0 -> -52 <= eb <= 0 ->
  ma = a * 2 ^ (- ea) -> mb = b * 2 ^ (- eb) ->
  2 ^ 52 <= ma < 2 ^ 53 -> 2 ^ 52 <= mb < 2 ^ 53 ->
  ma * 2 ^ 53 = mb * q + r -> 0 <= r < mb ->
  2 ^ 52 <= q < 2 ^ 54 ∧ q + 1 < 2 ^ (53 + eb - ea).
Proof.
  intros Hab Hea Heb Hma Hmb Hra Hrb Hq Hr.
  assert (HK : 2 ^ 53 <= 2 ^ (53 - ea)) by (apply Z.pow_le_mono_r; lia).
  assert (HT : 2 ^ (53 + eb - ea) * mb = b * 2 ^ (53 - ea)).
  { rewrite Hmb, (Z.mul_comm b), Z.mul_assoc, <- Z.pow_add_r by lia.
    rewrite Z.mul_comm. do 2 f_equal. lia. }
  assert (HA : ma * 2 ^ 53 = a * 2 ^ (53 - ea)).
  { rewrite Hma, <- Z.mul_assoc, <- Z.pow_add_r by lia. do 2 f_equal. lia. }
  set (T := 2 ^ (53 + eb - ea)) in *. set (K := 2 ^ (53 - ea)) in *.
  clearbody T K. clear Hma Hmb Hea Heb.
  change (2 ^ 54) with (2 * 2 ^ 53). change (2 ^ 53) with (2 * 2 ^ 52) in *.
  set (P := 2 ^ 52) in *. assert (HP : 1 < P) by done. clearbody P.
  split_and!.
  - destruct (Z.le_gt_cases P q) as [|Hlt]; [done|]. exfalso.
    assert (mb * q <= mb * (P - 1)) by (apply Z.mul_le_mono_nonneg_l; lia). nia.
  - destruct (Z.le_gt_cases (2 * (2 * P)) q) as [Hge|]; [|done]. exfalso.
    assert (mb * (2 * (2 * P)) <= mb * q) by (apply Z.mul_le_mono_nonneg_l; lia). nia.
  - assert (Hle : a * K <= (b - 1) * K) by (apply Z.mul_le_mono_nonneg_r; lia).
    assert (Hlt : (q + 1) * mb < T * mb) by lia.
    apply Z.mul_lt_mono_pos_r in Hlt; lia.
Qed.

(** The quotient of two integers [0 <= a < b] that are doubles, as the
    double division computes it, lies in [0, 1). *)
Lemma div_below_one (a b : Z) :
  0 <= a < b -> b < 2 ^ 53 ->
  PrimFloat.leb 0 (double_of_int a / double_of_int b) = true ∧
  PrimFloat.ltb (double_of_int a / double_of_int b) 1 = true.
Proof.
  intros Hab Hb.
  pose proof (Prim2SF_valid (double_of_int a / double_of_int b)) as Hvalid.
  rewrite leb_spec, ltb_spec. rewrite div_spec in *.
  destruct (Prim2SF_double_of_int b ltac:(lia)) as (mb & eb & Hbf & Heb & Hmb & Hdb).
  rewrite Hbf in *.
  change (Prim2SF 0) with (S754_zero false).
  change (Prim2SF 1) with (S754_finite false 4503599627370496 (-52)).
  destruct (Z.eq_dec a 0) as [->|Ha].
  { change (Prim2SF (double_of_int 0)) with (S754_zero false). done. }
  destruct (Prim2SF_double_of_int a ltac:(lia)) as (ma & ea & Haf & Hea & Hma & Hda).
  rewrite Haf in *. clear Haf Hbf.
  unfold SF64div, SFdiv, SFdiv_core_binary in *. simpl xorb in *.
  simpl Zdigits2 in *. rewrite Hda, Hdb in *.
  assert (He' : Z.min (fexp prec emax (53 + ea - (53 + eb))) (ea - eb) = ea - eb - 53).
  { unfold fexp, SpecFloat.emin, prec, emax. lia. }
  rewrite He' in *.
  replace (ea - eb - (ea - eb - 53)) with 53 in * by lia.
  cbv iota in *. rewrite Z.shiftl_mul_pow2 in * by lia.
  pose proof (Z_div_mod (Z.pos ma * 2 ^ 53) (Z.pos mb) ltac:(lia)) as Hdiv.
  destruct (Z.div_eucl (Z.pos ma * 2 ^ 53) (Z.pos mb)) as [q r].
  destruct Hdiv as [Hq Hr].
  pose proof (digits2_pos_bounds ma) as Hra. rewrite Hda in Hra.
  pose proof (digits2_pos_bounds mb) as Hrb. rewrite Hdb in Hrb.
  change (2 ^ (53 - 1)) with (2 ^ 52) in *.
  destruct (quotient_plus_one_below a b (Z.pos ma) (Z.pos mb) ea eb q r)
    as [Hqr Hbelow]; [lia|done|done|done|done|done|done|done|done|].
  destruct q as [|qp|qp]; [lia| |lia].
  pose proof (digits2_pos_bounds qp) as HD.
  set (D := Z.pos (digits2_pos qp)) in *.
  assert (HD54 : D <= 54).
  { destruct (Z.le_gt_cases D 54) as [|Hgt]; [done|]. exfalso.
    assert (2 ^ 54 <= 2 ^ (D - 1)) by (apply Z.pow_le_mono_r; lia). lia. }
  assert (HD1 : 1 <= D) by (unfold D; lia).
  destruct (binary_round_aux_loc_upper qp (ea - eb - 53)
              (new_location (Z.pos mb) r))
    as (m2 & e2 & Heq & Hm2 & He2 & Hle).
  { fold D. clearbody D. unfold fexp, SpecFloat.emin, prec, emax. lia. }
  rewrite Heq in *. clear Heq.
  destruct m2 as [|p|p]; [done| |lia].
  assert (Hlt : Z.pos p * 2 ^ (e2 - (ea - eb - 53)) < 2 ^ (53 + eb - ea)) by lia.
  assert (He2neg : e2 < -52).
  { destruct (Z.le_gt_cases (-52) e2) as [Hge|]; [|lia]. exfalso.
    assert (Hfin : (e2 <=? emax - prec) = true).
    { apply Z.leb_le. unfold emax, prec.
      destruct (Z.le_gt_cases e2 971) as [|Hbig]; [done|]. exfalso.
      assert (Hpow : 2 ^ (53 + eb - ea) <= 2 ^ (e2 - (ea - eb - 53)))
        by (apply Z.pow_le_mono_r; lia).
      clear -Hlt Hpow. nia. }
    rewrite Hfin in Hvalid. simpl in Hvalid.
    unfold bounded, canonical_mantissa in Hvalid.
    apply andb_prop in Hvalid as [Hcanon _]. apply Z.eqb_eq in Hcanon.
    pose proof (digits2_pos_bounds p) as Hdp.
    set (d := Z.pos (digits2_pos p)) in *. clearbody d.
    unfold fexp, SpecFloat.emin, prec, emax in Hcanon.
    assert (Hd : d = 53) by (clear -Hcanon Hge; lia). subst d.
    change (2 ^ (53 - 1)) with (2 ^ 52) in Hdp.
    assert (Hpow : 2 ^ (53 + eb - ea) <= 2 ^ 52 * 2 ^ (e2 - (ea - eb - 53))).
    { rewrite <- Z.pow_add_r by lia. apply Z.pow_le_mono_r; lia. }
    assert (Hpos : 0 < 2 ^ (e2 - (ea - eb - 53))) by (apply Z.pow_pos_nonneg; lia).
    clear -Hlt Hpow Hpos Hdp. nia. }
  assert (Hfin : (e2 <=? emax - prec) = true).
  { apply Z.leb_le. unfold emax, prec. lia. }
  rewrite Hfin. split; [done|].
  unfold SFltb, SFcompare.
  destruct (Z.compare_spec e2 (-52)) as [?|?|?]; [lia|done|lia].
Qed.

(** ** Counting in doubles *)

Lemma shr_1_even (Y : Z) :
  0 <= Y -> shr_1 (Build_shr_record (2 * Y) false false) = Build_shr_record Y false false.
Proof. intros HY. destruct Y as [|y|y]; [done|done|lia]. Qed.

(** Shifting out digits that are all zero loses nothing. *)
Lemma iter_shr_1_exact (p : positive) (Y : Z) :
  0 <= Y ->
  SpecFloat.iter_pos shr_1 p (Build_shr_record (Y * 2 ^ Z.pos p) false false)
  = Build_shr_record Y false false.
Proof.
  revert Y. induction p as [p IH|p IH|]; intros Y HY; cbn [SpecFloat.iter_pos].
  - replace (Y * 2 ^ Z.pos p~1) with (2 * (Y * 2 ^ Z.pos p * 2 ^ Z.pos p)).
    + assert (0 <= Y * 2 ^ Z.pos p) by (apply Z.mul_nonneg_nonneg; [done|apply Z.pow_nonneg; lia]).
      rewrite shr_1_even by (apply Z.mul_nonneg_nonneg; [done|apply Z.pow_nonneg; lia]).
      rewrite IH by done. by apply IH.
    + replace (Z.pos p~1) with (Z.pos p + Z.pos p + 1) by lia.
      rewrite !Z.pow_add_r by lia. change (2 ^ 1) with 2. ring.
  - replace (Y * 2 ^ Z.pos p~0) with (Y * 2 ^ Z.pos p * 2 ^ Z.pos p).
    + assert (0 <= Y * 2 ^ Z.pos p) by (apply Z.mul_nonneg_nonneg; [done|apply Z.pow_nonneg; lia]).
      rewrite IH by done. by apply IH.
    + replace (Z.pos p~0) with (Z.pos p + Z.pos p) by lia.
      rewrite !Z.pow_add_r by lia. ring.
  - change (2 ^ 1) with 2. rewrite Z.mul_comm. by apply shr_1_even.
Qed.

Lemma digits2_pos_unique (s : positive) (D : Z) :
  2 ^ (D - 1) <= Z.pos s < 2 ^ D -> Z.pos (digits2_pos s) = D.
Proof.
  intros [Hlo Hhi]. pose proof (digits2_pos_bounds s) as [Hlo' Hhi'].
  set (d := Z.pos (digits2_pos s)) in *. assert (1 <= d) by (unfold d; lia).
  clearbody d.
  destruct (Z.lt_trichotomy d D) as [Hlt|[->|Hgt]]; [exfalso| done |exfalso].
  - assert (0 <= D - 1) by lia.
    assert (2 ^ d <= 2 ^ (D - 1)) by (apply Z.pow_le_mono_r; lia). lia.
  - destruct (Z.le_gt_cases 0 D) as [HD|HD].
    + assert (2 ^ D <= 2 ^ (d - 1)) by (apply Z.pow_le_mono_r; lia). lia.
    + rewrite (Z.pow_neg_r 2 D) in Hhi by lia. lia.
Qed.

Lemma shl_align_fst (mx : positive) (ex ez : Z) :
  ez <= ex -> Z.pos (shl_align mx ex ez).1 = Z.pos mx * 2 ^ (ex - ez).
Proof.
  intros He. unfold shl_align.
  destruct (ez - ex) as [|d|d] eqn:Hd; try lia.
  - replace (ex - ez) with 0 by lia. simpl. lia.
  - simpl. destruct (iter_xO_value mx d) as [-> _]. do 2 f_equal. lia.
Qed.

(** Adding one to an integer held in a double is exact up to [2^53]. *)
Lemma double_succ (k : Z) :
  0 <= k -> k + 1 < 2 ^ 53 ->
  (double_of_int k + 1)%float = double_of_int (k + 1).
Proof.
  intros Hk Hmax. destruct (Z.eq_dec k 0) as [->|Hk0]; [reflexivity|].
  apply Prim2SF_inj. rewrite add_spec.
  destruct (Prim2SF_double_of_int k ltac:(lia)) as (mk & ek & -> & Hek & Hmk & Hdk).
  destruct (Prim2SF_double_of_int (k + 1) ltac:(lia))
    as (m' & e' & -> & He' & Hm' & Hd').
  change (Prim2SF 1) with (S754_finite false 4503599627370496 (-52)).
  unfold SF64add, SFadd. rewrite Z.min_r by lia.
  cbn [cond_Zopp]. rewrite shl_align_fst by lia.
  change (shl_align 4503599627370496 (-52) (-52)).1 with 4503599627370496%positive.
  rewrite Hmk, <- Z.mul_assoc, <- Z.pow_add_r by lia.
  replace (- ek + (ek - -52)) with 52 by lia.
  assert (Hs : k * 2 ^ 52 + 4503599627370496 = (k + 1) * 2 ^ 52).
  { change (2 ^ 52) with 4503599627370496. lia. }
  rewrite Hs. clear Hs.
  assert (Hpos : ∃ s, (k + 1) * 2 ^ 52 = Z.pos s).
  { destruct ((k + 1) * 2 ^ 52) as [|s|s] eqn:Hs; [| by eauto |];
      change (2 ^ 52) with 4503599627370496 in Hs; lia. }
  destruct Hpos as [s Hs]. rewrite Hs.
  unfold binary_normalize, binary_round.
  pose proof (digits2_pos_bounds m') as Hb. rewrite Hd' in Hb.
  change (2 ^ (53 - 1)) with (2 ^ 52) in Hb.
  assert (Hsm : Z.pos s = Z.pos m' * 2 ^ (e' + 52)).
  { rewrite <- Hs, Hm', <- Z.mul_assoc, <- Z.pow_add_r by lia.
    do 2 f_equal. lia. }
  assert (Hds : Z.pos (digits2_pos s) = 105 + e').
  { apply digits2_pos_unique. rewrite Hsm.
    assert (Hp : 0 < 2 ^ (e' + 52)) by (apply Z.pow_pos_nonneg; lia).
    replace (105 + e' - 1) with (52 + (e' + 52)) by lia.
    replace (105 + e') with (53 + (e' + 52)) by lia.
    rewrite (Z.pow_add_r 2 52 (e' + 52)), (Z.pow_add_r 2 53 (e' + 52)) by lia.
    split.
    - apply Z.mul_le_mono_nonneg_r; lia.
    - apply (proj1 (Z.mul_lt_mono_pos_r _ _ _ Hp)). lia. }
  rewrite Hds.
  assert (Hfexp : fexp prec emax (105 + e' + -52) = e').
  { unfold fexp, SpecFloat.emin, prec, emax. lia. }
  rewrite Hfexp.
  assert (Halign : shl_align s (-52) e' = (s, -52)).
  { unfold shl_align. destruct (e' - -52) as [|d|d] eqn:Hd; try done. lia. }
  rewrite Halign.
  unfold binary_round_aux, shr_fexp. simpl Zdigits2. rewrite Hds, Hfexp.
  assert (Hshr : shr (shr_record_of_loc (Z.pos s) loc_Exact) (-52) (e' - -52)
                 = (Build_shr_record (Z.pos m') false false, e')).
  { unfold shr. simpl shr_record_of_loc.
    destruct (e' - -52) as [|d|d] eqn:Hd; try lia.
    - f_equal; [|lia]. f_equal. rewrite Hsm.
      replace (e' + 52) with 0 by lia. simpl. lia.
    - rewrite Hsm. replace (e' + 52) with (Z.pos d) by lia.
      rewrite iter_shr_1_exact by lia. f_equal. lia. }
  rewrite Hshr. cbn [shr_m loc_of_shr_record round_nearest_even].
  simpl Zdigits2. rewrite Hd'.
  replace (fexp prec emax (53 + e') - e') with 0
    by (unfold fexp, SpecFloat.emin, prec, emax; lia).
  cbn [shr shr_record_of_loc shr_m].
  destruct (e' <=? emax - prec) eqn:Hle; [done|].
  apply Z.leb_gt in Hle. unfold emax, prec in Hle. lia.
Qed.

Section Facts.
Context {W G : Type} `{!Libc W} `{!URand W G}.
Variable N_ACTIONS : nat.
Abbreviation node := (UCTreeNode G).

Lemma write_slots_from (v : slot node) (n i : nat) (cs : list (slot node)) :
  (i + n = length cs)%nat ->
  foldl (fun cs k => <[k := v]> cs) cs (seq i n) = take i cs ++ replicate n v.
Proof.
  revert i cs. induction n as [|n IH]; intros i cs Hlen; simpl.
  - rewrite take_ge by lia. by rewrite app_nil_r.
  - rewrite IH by (rewrite length_insert; lia).
    assert (Hi : (i < length cs)%nat) by lia.
    destruct (lookup_lt_is_Some_2 cs i Hi) as [x Hx].
    rewrite (take_S_r (<[i:=v]> cs) i v).
    + rewrite take_insert_ge by lia. by rewrite <- app_assoc.
    + apply list_lookup_insert_eq. lia.
Qed.

Lemma write_slots_replicate (v : slot node) (cs : list (slot node)) :
  length cs = N_ACTIONS -> write_slots N_ACTIONS v cs = replicate N_ACTIONS v.
Proof.
  intros Hlen. unfold write_slots. rewrite write_slots_from by lia. done.
Qed.

(** ** Pointers *)

Lemma deref_app (t : node) (p q : ptr) :
  deref t (p ++ q) = deref t p ≫= λ n, deref n q.
Proof.
  revert t. induction p as [|k p IH]; intros t; simpl; [done|].
  destruct (vpChildren_i t !! k) as [[|c|]|]; simpl; auto.
Qed.

Lemma deref_app_Some (t c : node) (p q : ptr) :
  deref t p = Some c -> deref t (p ++ q) = deref c q.
Proof. intros Hp. by rewrite deref_app, Hp. Qed.

Lemma deref_snoc (t cur : node) (p : ptr) (k : nat) :
  deref t p = Some cur ->
  deref t (p ++ [k]) =
    match vpChildren_i cur !! k with Some (Ptr c) => Some c | _ => None end.
Proof.
  intros Hp. rewrite deref_app, Hp. simpl.
  destruct (vpChildren_i cur !! k) as [[|c|]|]; done.
Qed.

Lemma deref_prefix (t n : node) (p q : ptr) :
  deref t (p ++ q) = Some n -> ∃ c, deref t p = Some c ∧ deref c q = Some n.
Proof.
  rewrite deref_app. destruct (deref t p) as [c|]; simpl; [eauto | done].
Qed.

Lemma store_fields (k : nat) (r : ptr) (n c : node) :
  isLeaf_i (store (k :: r) n c) = isLeaf_i c ∧
  nVisits_i (store (k :: r) n c) = nVisits_i c ∧
  totValue_i (store (k :: r) n c) = totValue_i c ∧
  gamma_i (store (k :: r) n c) = gamma_i c ∧
  rand_i (store (k :: r) n c) = rand_i c.
Proof.
  simpl. destruct (vpChildren_i c !! k) as [[|c'|]|]; done.
Qed.

Lemma deref_store_eq (t cur n : node) (p : ptr) :
  deref t p = Some cur -> deref (store p n t) p = Some n.
Proof.
  revert t. induction p as [|k p IH]; intros t; simpl; [done|].
  destruct (vpChildren_i t !! k) as [[|c|]|] eqn:Hk; try done.
  intros Hc. simpl. rewrite list_lookup_insert_eq by (by eapply lookup_lt_Some).
  by apply IH.
Qed.

Lemma deref_store_below (t cur n : node) (p r : ptr) :
  deref t p = Some cur -> deref (store p n t) (p ++ r) = deref n r.
Proof.
  intros Hp. rewrite deref_app, (deref_store_eq t cur) by done. done.
Qed.

Lemma deref_store_above (t cur c n : node) (q r : ptr) :
  deref t (q ++ r) = Some cur -> deref t q = Some c ->
  deref (store (q ++ r) n t) q = Some (store r n c).
Proof.
  revert t. induction q as [|k q IH]; intros t; simpl.
  - intros _ [= ->]. done.
  - destruct (vpChildren_i t !! k) as [[|c'|]|] eqn:Hk; try done.
    intros Hcur Hc. simpl.
    rewrite list_lookup_insert_eq by (by eapply lookup_lt_Some). by apply IH.
Qed.

Lemma deref_store_aside (t n : node) (p q : ptr) :
  ¬ p `prefix_of` q -> ¬ q `prefix_of` p ->
  deref (store p n t) q = deref t q.
Proof.
  revert t q. induction p as [|k p IH]; intros t q Hpq Hqp.
  - destruct Hpq. apply prefix_nil.
  - destruct q as [|j q]; [destruct Hqp; apply prefix_nil|]. simpl.
    destruct (vpChildren_i t !! k) as [[|c|]|] eqn:Hk; try done. simpl.
    destruct (decide (j = k)) as [->|Hjk].
    + rewrite list_lookup_insert_eq by (by eapply lookup_lt_Some). rewrite Hk.
      apply IH; intros Hpre; [apply Hpq|apply Hqp]; by apply prefix_cons.
    + rewrite list_lookup_insert_ne by done. done.
Qed.

(** Two pointers: one leads below the other, or they part. *)
Lemma ptr_cases (p q : ptr) :
  (∃ r, q = p ++ r) ∨ (∃ k r, p = q ++ k :: r) ∨
  (¬ p `prefix_of` q ∧ ¬ q `prefix_of` p).
Proof.
  destruct (decide (p `prefix_of` q)) as [[r ->]|Hpq]; [by eauto|].
  destruct (decide (q `prefix_of` p)) as [[r ->]|Hqp]; [|by auto].
  destruct r as [|k r]; [|by eauto 6].
  destruct Hpq. rewrite app_nil_r. done.
Qed.

(** *** Nodes that keep their members *)



Lemma same_at_refl (t : node) (r : ptr) : same_at t t r.
Proof. unfold same_at. by destruct (deref t r). Qed.

Lemma same_at_trans (t1 t2 t3 : node) (r : ptr) :
  same_at t1 t2 r -> same_at t2 t3 r -> same_at t1 t3 r.
Proof.
  unfold same_at.
  destruct (deref t1 r), (deref t2 r), (deref t3 r); try done. congruence.
Qed.

Lemma same_at_store (t cur n : node) (p r : ptr) :
  deref t p = Some cur -> vpChildren_i n = vpChildren_i cur ->
  r ≠ p -> same_at t (store p n t) r.
Proof.
  intros Hp Hcs Hr. unfold same_at.
  destruct (ptr_cases p r) as [[r' ->]|[(k & r' & ->)|[H1 H2]]].
  - rewrite (deref_store_below t cur) by done. rewrite deref_app, Hp. simpl.
    destruct r' as [|k r']; [by rewrite app_nil_r in Hr|]. simpl. rewrite Hcs.
    by destruct (match vpChildren_i cur !! k with
                 | Some (Ptr c) => deref c r' | _ => None end).
  - destruct (deref_prefix _ _ _ _ Hp) as (c & Hc & _).
    rewrite (deref_store_above t cur c) by done. rewrite Hc.
    unfold members. destruct (store_fields k r' n c) as (-> & -> & -> & -> & _).
    done.
  - rewrite deref_store_aside by done. by destruct (deref t r).
Qed.

(** *** The invariant *)

Lemma tree_inv_node (t : node) : tree_inv N_ACTIONS t -> node_inv N_ACTIONS t.
Proof. intros Ht. apply Ht. by exists []. Qed.

Lemma tree_inv_deref (t n : node) (p : ptr) :
  tree_inv N_ACTIONS t -> deref t p = Some n -> tree_inv N_ACTIONS n.
Proof.
  intros Ht Hp n' [q Hq]. apply Ht. exists (p ++ q).
  by rewrite deref_app, Hp.
Qed.

Lemma tree_inv_child (t c : node) (k : nat) :
  tree_inv N_ACTIONS t -> vpChildren_i t !! k = Some (Ptr c) ->
  tree_inv N_ACTIONS c.
Proof.
  intros Ht Hk. apply (tree_inv_deref t c [k] Ht). simpl. by rewrite Hk.
Qed.

Lemma tree_inv_intro (t : node) :
  node_inv N_ACTIONS t ->
  (∀ k c, vpChildren_i t !! k = Some (Ptr c) -> tree_inv N_ACTIONS c) ->
  tree_inv N_ACTIONS t.
Proof.
  intros Hn Hc n [[|k p] Hp]; simpl in Hp.
  - by injection Hp as <-.
  - destruct (vpChildren_i t !! k) as [[|c|]|] eqn:Hk; try done.
    apply (Hc k c Hk). by exists p.
Qed.

(** A node with a child is not a leaf. *)
Lemma node_inv_parent (t c : node) (k : nat) :
  node_inv N_ACTIONS t -> vpChildren_i t !! k = Some (Ptr c) ->
  isLeaf_i t = false.
Proof.
  intros [_ Hn] Hk. destruct (isLeaf_i t); [|done].
  rewrite Forall_lookup in Hn. by specialize (Hn k _ Hk).
Qed.

Lemma node_inv_slot (t : node) (k : nat) :
  node_inv N_ACTIONS t -> isLeaf_i t = false -> (k < N_ACTIONS)%nat ->
  ∃ c, vpChildren_i t !! k = Some (Ptr c).
Proof.
  intros [Hlen Hn] Hl Hk. rewrite Hl in Hn.
  destruct (lookup_lt_is_Some_2 (vpChildren_i t) k) as [s Hs]; [lia|].
  rewrite Forall_lookup in Hn. destruct (Hn k s Hs) as [c ->]. eauto.
Qed.

Lemma tree_inv_new (inGamma : float) (inRand : G) :
  tree_inv N_ACTIONS (new_UCTreeNode N_ACTIONS inGamma inRand).
Proof.
  assert (Hcs : write_slots N_ACTIONS Null (alloc_slots N_ACTIONS) =
                replicate N_ACTIONS (@Null node)).
  { apply write_slots_replicate. apply length_replicate. }
  apply tree_inv_intro.
  - unfold new_UCTreeNode, node_inv. simpl. rewrite Hcs. split.
    + apply length_replicate.
    + by apply Forall_replicate.
  - unfold new_UCTreeNode. simpl. rewrite Hcs. intros k c Hk.
    apply lookup_replicate in Hk as [? _]. done.
Qed.

Lemma tree_inv_store (t cur n : node) (p : ptr) :
  tree_inv N_ACTIONS t -> deref t p = Some cur -> tree_inv N_ACTIONS n ->
  tree_inv N_ACTIONS (store p n t).
Proof.
  revert t. induction p as [|k p IH]; intros t Ht Hp Hn; simpl; [done|].
  simpl in Hp. destruct (vpChildren_i t !! k) as [[|c|]|] eqn:Hk; try done.
  pose proof (tree_inv_node t Ht) as Hnode.
  pose proof (node_inv_parent t c k Hnode Hk) as Hleaf.
  apply tree_inv_intro.
  - destruct Hnode as [Hlen Hall]. unfold node_inv. simpl.
    rewrite Hleaf in *. rewrite length_insert. split; [done|].
    apply Forall_insert; eauto.
  - simpl. intros j c' Hj. destruct (decide (j = k)) as [->|Hjk].
    + rewrite list_lookup_insert_eq in Hj by (by eapply lookup_lt_Some).
      injection Hj as <-. apply IH; eauto using tree_inv_child.
    + rewrite list_lookup_insert_ne in Hj by done. eauto using tree_inv_child.
Qed.

(** *** Counting nodes *)


Lemma size_unfold (t : node) :
  size t = if isLeaf_i t then 1%nat
           else S (sum_list_with slot_size (vpChildren_i t)).
Proof. by destruct t. Qed.

Lemma sum_list_with_insert {A} (f : A -> nat) (l : list A) (k : nat) (x y : A) :
  l !! k = Some x ->
  (sum_list_with f (<[k := y]> l) + f x = sum_list_with f l + f y)%nat.
Proof.
  revert k. induction l as [|a l IH]; intros [|k] Hk; simpl in *; try done.
  - injection Hk as ->. lia.
  - specialize (IH k Hk). lia.
Qed.

Lemma size_store (t cur n : node) (p : ptr) :
  tree_inv N_ACTIONS t -> deref t p = Some cur ->
  (size (store p n t) + size cur = size t + size n)%nat.
Proof.
  revert t. induction p as [|k p IH]; intros t Ht Hp; simpl in *.
  - injection Hp as ->. lia.
  - destruct (vpChildren_i t !! k) as [[|c|]|] eqn:Hk; try done.
    pose proof (node_inv_parent t c k (tree_inv_node t Ht) Hk) as Hleaf.
    rewrite (size_unfold t), (size_unfold (set_children _ t)). simpl.
    rewrite Hleaf.
    pose proof (sum_list_with_insert slot_size (vpChildren_i t) k (Ptr c)
                  (Ptr (store p n c)) Hk) as Hsum. simpl in Hsum.
    specialize (IH c (tree_inv_child t c k Ht Hk) Hp). lia.
Qed.

Lemma size_pos (t : node) : (0 < size t)%nat.
Proof. rewrite size_unfold. destruct (isLeaf_i t); lia. Qed.

Lemma size_new (inGamma : float) (inRand : G) :
  size (new_UCTreeNode N_ACTIONS inGamma inRand) = 1%nat.
Proof. done. Qed.

Lemma sum_list_with_replicate {A} (f : A -> nat) (n : nat) (x : A) :
  sum_list_with f (replicate n x) = (n * f x)%nat.
Proof. induction n as [|n IH]; simpl; [done|]. rewrite IH. lia. Qed.

Lemma expand_leaf (t : node) :
  node_inv N_ACTIONS t -> isLeaf_i t = true ->
  expand N_ACTIONS t =
    mkUCTreeNode
      (replicate N_ACTIONS (Ptr (new_UCTreeNode N_ACTIONS DEFAULT_GAMMA urand_new)))
      false (nVisits_i t) (totValue_i t) (gamma_i t) (rand_i t).
Proof.
  intros [Hlen _] Hleaf. unfold expand. rewrite Hleaf. simpl.
  by rewrite write_slots_replicate.
Qed.

Lemma size_expand (t : node) :
  node_inv N_ACTIONS t -> isLeaf_i t = true ->
  size (expand N_ACTIONS t) = (size t + N_ACTIONS)%nat.
Proof.
  intros Hn Hleaf. rewrite expand_leaf by done.
  rewrite (size_unfold t), Hleaf, size_unfold. simpl.
  rewrite sum_list_with_replicate. simpl. lia.
Qed.

Lemma tree_inv_expand (t : node) :
  tree_inv N_ACTIONS t -> tree_inv N_ACTIONS (expand N_ACTIONS t).
Proof.
  intros Ht. pose proof (tree_inv_node t Ht) as Hn.
  destruct (isLeaf_i t) eqn:Hleaf.
  - rewrite expand_leaf by done. apply tree_inv_intro.
    + split; simpl; [apply length_replicate|].
      apply Forall_replicate. eauto.
    + simpl. intros k c Hk. apply lookup_replicate in Hk as [[= ->] _].
      apply tree_inv_new.
  - unfold expand. by rewrite Hleaf.
Qed.

(** [int] arithmetic agrees with [Z] up to wrap-around. *)
Lemma int_add_wrap (a b : Z) : int_add (int_wrap a) (int_wrap b) = int_wrap (a + b).
Proof.
  unfold int_add, int_wrap. f_equal.
  rewrite (Z.mod_eq (a + 2147483648)), (Z.mod_eq (b + 2147483648)) by lia.
  set (qa := (a + 2147483648) `div` 4294967296).
  set (qb := (b + 2147483648) `div` 4294967296).
  replace (a + 2147483648 - 4294967296 * qa - 2147483648 +
           (b + 2147483648 - 4294967296 * qb - 2147483648) + 2147483648)
    with (a + b + 2147483648 + (- (qa + qb)) * 4294967296) by lia.
  apply Z_mod_plus_full.
Qed.

Lemma int_wrap_small (z : Z) : INT_MIN <= z <= INT_MAX -> int_wrap z = z.
Proof.
  unfold INT_MIN, INT_MAX, int_wrap. intros Hz.
  rewrite Z.mod_small by lia. lia.
Qed.

(** The loop of [numOfNodes] over children that are counted right. *)
Lemma numOfNodes_loop (cs : list (slot node)) (acc z : Z) :
  Forall (slot_Forall (λ c, tree_inv N_ACTIONS c ->
                            numOfNodes c = Ok (int_wrap (Z.of_nat (size c))))) cs ->
  Forall (λ s, ∃ child, s = Ptr child) cs ->
  (∀ k c, cs !! k = Some (Ptr c) -> tree_inv N_ACTIONS c) ->
  acc = int_wrap z ->
  (fix loop (cs : list (slot node)) (result : Z) {struct cs} :=
     match cs with
     | [] => Ok result
     | Ptr child :: cs => n ← numOfNodes child; loop cs (int_add result n)
     | _ :: _ => Fault UndefinedBehaviour
     end) cs acc
  = Ok (int_wrap (z + Z.of_nat (sum_list_with slot_size cs))).
Proof.
  revert acc z. induction cs as [|s cs IHcs]; intros acc z IH Hall Hc Hacc; simpl.
  - by rewrite Z.add_0_r, Hacc.
  - apply Forall_cons in IH as [IHs IH]. apply Forall_cons in Hall as [[c ->] Hall].
    simpl in IHs. rewrite IHs by (apply (Hc O); done). simpl.
    rewrite (IHcs _ (z + Z.of_nat (size c))); try done.
    + do 2 f_equal. lia.
    + intros k c' Hk. apply (Hc (S k)). done.
    + rewrite Hacc. apply int_add_wrap.
Qed.

(** On a tree that satisfies the invariant [numOfNodes] returns the
    number of nodes, wrapped to [int]. *)
Lemma numOfNodes_size (t : node) :
  tree_inv N_ACTIONS t -> numOfNodes t = Ok (int_wrap (Z.of_nat (size t))).
Proof.
  induction t as [cs l v tv ga r IH] using UCTreeNode_tree_ind. intros Ht.
  pose proof (tree_inv_node _ Ht) as [_ Hall]. simpl in Hall.
  rewrite size_unfold. simpl. destruct l; [done|].
  rewrite (numOfNodes_loop cs 1 1); try done.
  - do 2 f_equal. lia.
  - intros k c Hk. by apply (tree_inv_child _ c k Ht).
Qed.

(** *** Selection *)

Lemma set_rand_same (t : node) : set_rand (rand_i t) t = t.
Proof. by destruct t. Qed.

Lemma selectAction_loop_ok (count k : nat) (this : node) (selected : nat)
    (best : float) (w : W) :
  Forall (λ s, ∃ child, s = Ptr child) (vpChildren_i this) ->
  (k + count <= length (vpChildren_i this))%nat ->
  ∃ a g w', selectAction_loop count k this selected best w
            = Ok (a, set_rand g this, w') ∧
            (a = selected ∨ (k <= a < k + count)%nat).
Proof.
  revert k this selected best w.
  induction count as [|count IH]; intros k this selected best w Hall Hlen; simpl.
  - exists selected, (rand_i this), w. rewrite set_rand_same. auto.
  - destruct (lookup_lt_is_Some_2 (vpChildren_i this) k) as [s Hs]; [lia|].
    rewrite Forall_lookup in Hall. destruct (Hall k s Hs) as [c ->].
    rewrite Hs. destruct (urand_call (rand_i this) w) as [[r g] w1].
    destruct (double_ge _ best).
    + destruct (IH (S k) (set_rand g this) k
                  (uctValue this c + r * EPSILON)%float w1)
        as (a & g' & w' & Heq & Ha).
      * simpl. by apply Forall_lookup.
      * simpl. lia.
      * exists a, g', w'. split; [exact Heq|]. lia.
    + destruct (IH (S k) (set_rand g this) selected best w1)
        as (a & g' & w' & Heq & Ha).
      * simpl. by apply Forall_lookup.
      * simpl. lia.
      * exists a, g', w'. split; [exact Heq|]. lia.
Qed.

Lemma selectAction_ok (this : node) (w : W) :
  (0 < N_ACTIONS)%nat -> node_inv N_ACTIONS this -> isLeaf_i this = false ->
  ∃ a g w', selectAction N_ACTIONS this w = Ok (a, set_rand g this, w') ∧
            (a < N_ACTIONS)%nat.
Proof.
  intros HN [Hlen Hall] Hleaf. unfold selectAction. rewrite Hleaf in *.
  destruct (selectAction_loop_ok N_ACTIONS 0 this 0 (- DBL_MAX)%float w)
    as (a & g & w' & Heq & Ha); [done|lia|].
  exists a, g, w'. split; [done|lia].
Qed.

Lemma tree_inv_same_children (t n : node) :
  vpChildren_i n = vpChildren_i t -> isLeaf_i n = isLeaf_i t ->
  tree_inv N_ACTIONS t -> tree_inv N_ACTIONS n.
Proof.
  intros Hcs Hleaf Ht. apply tree_inv_intro.
  - pose proof (tree_inv_node t Ht) as Hn. unfold node_inv in *.
    by rewrite Hcs, Hleaf.
  - rewrite Hcs. intros k c Hk. by apply (tree_inv_child t c k).
Qed.

Lemma size_same_children (t n : node) :
  vpChildren_i n = vpChildren_i t -> isLeaf_i n = isLeaf_i t -> size n = size t.
Proof. intros Hcs Hleaf. by rewrite !size_unfold, Hcs, Hleaf. Qed.

(** A node that keeps its children and its leaf flag can be written
    back without changing the shape of the tree. *)
Lemma store_same_shape (t cur n : node) (p : ptr) :
  tree_inv N_ACTIONS t -> deref t p = Some cur ->
  vpChildren_i n = vpChildren_i cur -> isLeaf_i n = isLeaf_i cur ->
  tree_inv N_ACTIONS (store p n t) ∧ size (store p n t) = size t.
Proof.
  intros Ht Hp Hcs Hleaf. split.
  - apply (tree_inv_store t cur); [done..|].
    apply (tree_inv_same_children cur); eauto using tree_inv_deref.
  - pose proof (size_store t cur n p Ht Hp) as Hsz.
    rewrite (size_same_children cur n) in Hsz by done. lia.
Qed.

Lemma same_at_store_all (t cur n : node) (p r : ptr) :
  deref t p = Some cur -> vpChildren_i n = vpChildren_i cur ->
  members n = members cur -> same_at t (store p n t) r.
Proof.
  intros Hp Hcs Hm. destruct (decide (r = p)) as [->|Hr].
  - unfold same_at. by rewrite (deref_store_eq t cur), Hp.
  - by apply (same_at_store t cur).
Qed.

(** *** The bound of the traversal *)

Lemma height_child (t c : node) (k : nat) :
  isLeaf_i t = false -> vpChildren_i t !! k = Some (Ptr c) ->
  (height c < height t)%nat.
Proof.
  destruct t as [cs l v tv ga r]. simpl. intros -> Hk.
  apply Nat.lt_succ_r. revert k Hk.
  induction cs as [|s cs IH]; intros [|k] Hk; simpl in *; try done.
  - injection Hk as ->. lia.
  - specialize (IH k Hk). destruct s; lia.
Qed.

(** *** The stack of visited nodes *)


Lemma path_from_length (p : ptr) (q : list nat) :
  length (path_from p q) = S (length q).
Proof. revert p. induction q as [|a q IH]; intros p; simpl; [done|]. by rewrite IH. Qed.

Lemma path_from_lookup (p : ptr) (q : list nat) (i : nat) :
  (i <= length q)%nat -> path_from p q !! i = Some (p ++ take i q).
Proof.
  revert p i. induction q as [|a q IH]; intros p [|i] Hi; simpl in *;
    rewrite ?app_nil_r; try done; try lia.
  rewrite IH by lia. by rewrite <- app_assoc.
Qed.

Lemma path_from_elem (p r : ptr) (q : list nat) :
  r ∈ path_from p q ↔ ∃ i, (i <= length q)%nat ∧ r = p ++ take i q.
Proof.
  split.
  - intros Hr. apply list_elem_of_lookup in Hr as [i Hi].
    assert (i <= length q)%nat.
    { apply lookup_lt_Some in Hi. rewrite path_from_length in Hi. lia. }
    rewrite path_from_lookup in Hi by done. injection Hi as <-. eauto.
  - intros (i & Hi & ->). apply list_elem_of_lookup. exists i.
    by apply path_from_lookup.
Qed.

Lemma path_from_prefix (p r : ptr) (q : list nat) :
  r ∈ path_from p q ↔ p `prefix_of` r ∧ r `prefix_of` p ++ q.
Proof.
  rewrite path_from_elem. split.
  - intros (i & Hi & ->). split; [by apply prefix_app_r|].
    apply prefix_app, prefix_take.
  - intros [[r' ->] [q' Hq]]. rewrite <- app_assoc in Hq.
    apply app_inv_head in Hq. subst q. exists (length r').
    rewrite length_app, take_app_length. split; [lia|done].
Qed.

Lemma path_from_NoDup (p : ptr) (q : list nat) : NoDup (path_from p q).
Proof.
  revert p. induction q as [|a q IH]; intros p; simpl.
  - apply NoDup_singleton.
  - apply NoDup_cons. split; [|apply IH].
    rewrite path_from_prefix. intros [[r Hr] _].
    apply (f_equal length) in Hr. rewrite !length_app in Hr. simpl in Hr. lia.
Qed.

Lemma path_from_snoc (p : ptr) (q : list nat) (a : nat) :
  path_from p (q ++ [a]) = path_from p q ++ [p ++ q ++ [a]].
Proof.
  revert p. induction q as [|b q IH]; intros p; simpl; [done|].
  rewrite IH. by rewrite <- app_assoc.
Qed.

(** *** The traversal *)

Context {M : Type} `{!Generator W M}.

Lemma deref_set_rand (t : node) (g : G) (r : ptr) :
  deref (set_rand g t) r = match r with [] => Some (set_rand g t) | _ => deref t r end.
Proof. by destruct r. Qed.

Lemma traverse_spec (bound : nat) (this cur : node) (pCur : ptr)
    (rest : list ptr) (rewards : list float) (mdp : M) (w : W) :
  (0 < N_ACTIONS)%nat -> tree_inv N_ACTIONS this ->
  deref this pCur = Some cur -> (height cur <= bound)%nat ->
  ∃ this' q rs mdp' w' leaf,
    traverse N_ACTIONS bound this pCur (pCur :: rest) rewards mdp w
    = Ok (this', pCur ++ q, reverse (path_from pCur q) ++ rest,
          rs ++ rewards, mdp', w') ∧
    length rs = length q ∧
    deref this (pCur ++ q) = Some leaf ∧ deref this' (pCur ++ q) = Some leaf ∧
    isLeaf_i leaf = true ∧
    tree_inv N_ACTIONS this' ∧ size this' = size this ∧
    (∀ r, same_at this this' r).
Proof.
  intros HN. revert this cur pCur rest rewards mdp w.
  induction bound as [|bound IH];
    intros this cur pCur rest rewards mdp w Ht Hcur Hh; simpl; rewrite Hcur;
    unfold isLeaf; destruct (isLeaf_i cur) eqn:Hleaf.
  - exists this, [], [], mdp, w, cur. rewrite app_nil_r.
    split_and!; auto using same_at_refl.
  - pose proof (tree_inv_deref this cur pCur Ht Hcur) as Hc.
    destruct (node_inv_slot cur 0 (tree_inv_node cur Hc) Hleaf HN) as [c Hc0].
    pose proof (height_child cur c 0 Hleaf Hc0). lia.
  - exists this, [], [], mdp, w, cur. rewrite app_nil_r.
    split_and!; auto using same_at_refl.
  - pose proof (tree_inv_deref this cur pCur Ht Hcur) as Hc.
    pose proof (tree_inv_node cur Hc) as Hnode.
    destruct (selectAction_ok cur w HN Hnode Hleaf) as (a & g & w1 & Hsel & Ha).
    unfold call_at. rewrite Hcur, Hsel. simpl.
    destruct (generator_call mdp (Z.of_nat a) w1) as [[curReward mdp1] w2].
    destruct (node_inv_slot cur a Hnode Hleaf Ha) as [c Hca].
    set (this1 := store pCur (set_rand g cur) this).
    destruct (store_same_shape this cur (set_rand g cur) pCur) as [Ht1 Hsz1];
      [done..|].
    assert (Hc1 : deref this1 (pCur ++ [a]) = Some c).
    { unfold this1. rewrite (deref_store_below this cur) by done.
      simpl. by rewrite Hca. }
    destruct (IH this1 c (pCur ++ [a]) (pCur :: rest) (curReward :: rewards)
                mdp1 w2 Ht1 Hc1)
      as (this' & q & rs & mdp' & w' & leaf & Heq & Hlen & Hl0 & Hl1 & Hl2 &
          Ht' & Hsz' & Hsame).
    { pose proof (height_child cur c a Hleaf Hca). lia. }
    exists this', (a :: q), (rs ++ [curReward]), mdp', w', leaf.
    rewrite <- !app_assoc in *. simpl in *.
    split_and!; auto.
    + etrans; [exact Heq|]. by rewrite reverse_cons, <- !app_assoc.
    + rewrite length_app. simpl. lia.
    + rewrite <- Hl0. unfold this1.
      rewrite (deref_store_below this cur) by done.
      rewrite deref_app, Hcur. done.
    + rewrite Hsz'. exact Hsz1.
    + intros r. apply (same_at_trans _ this1); [|done].
      by apply (same_at_store_all this cur).
Qed.

Lemma rollOut_loop_rand (count : nat) (this : node) (mdp : M)
    (discount totReward : float) (w : W) :
  ∃ value g w', rollOut_loop N_ACTIONS count this mdp discount totReward w
                = (value, set_rand g this, w').
Proof.
  revert this mdp discount totReward w.
  induction count as [|count IH]; intros this mdp discount totReward w; simpl.
  - exists totReward, (rand_i this), w. by rewrite set_rand_same.
  - destruct (urand_call (rand_i this) w) as [[r g] w1].
    destruct (generator_call mdp _ w1) as [[reward mdp1] w2].
    destruct (IH (set_rand g this) mdp1 (discount * gamma_i (set_rand g this))%float
                (totReward + discount * reward)%float w2) as (v & g' & w' & Heq).
    exists v, g', w'. exact Heq.
Qed.

(** The first part of [iterate]: the traversal stops at a leaf [leaf]
    behind [p], which is expanded; the stacks hold the pointers from the
    root down to the child [a] of that node and one reward for each. *)
Lemma iterate_descend_spec (this : node) (mdp : M) (w : W) :
  (0 < N_ACTIONS)%nat -> tree_inv N_ACTIONS this ->
  ∃ this1 p a rs value w1 leaf g,
    iterate_descend N_ACTIONS this mdp w
    = Ok (this1, reverse (path_from [] (p ++ [a])), rs ++ [0%float], value, w1) ∧
    length rs = S (length p) ∧ (a < N_ACTIONS)%nat ∧
    deref this p = Some leaf ∧ isLeaf_i leaf = true ∧
    deref this1 p = Some (set_rand g (expand N_ACTIONS leaf)) ∧
    (∀ r, ¬ p `prefix_of` r -> same_at this this1 r) ∧
    tree_inv N_ACTIONS this1 ∧ size this1 = (size this + N_ACTIONS)%nat ∧
    ∃ tA rsA top mdpA wA,
      traverse N_ACTIONS (height this) this [] [[]] [0%float] mdp w
      = Ok (tA, p, reverse (path_from [] p), rsA ++ [0%float], mdpA, wA) ∧
      rs = top :: rsA.
Proof.
  intros HN Ht. unfold iterate_descend.
  destruct (traverse_spec (height this) this this [] [] [0%float] mdp w)
    as (tA & p & rs & mdpA & wA & leaf & Heq & Hlen & Hl0 & HlA & Hleaf &
        HtA & HszA & HsameA); [done..|].
  simpl in Heq, Hl0, HlA. rewrite app_nil_r in Heq.
  pose proof Heq as Htrav. rewrite Heq. simpl. clear Heq.
  (* the expansion *)
  unfold update_at. rewrite HlA. simpl.
  set (tB := store p (expand N_ACTIONS leaf) tA).
  pose proof (tree_inv_deref tA leaf p HtA HlA) as Htleaf.
  pose proof (tree_inv_node leaf Htleaf) as Hnleaf.
  assert (HtB : tree_inv N_ACTIONS tB).
  { apply (tree_inv_store tA leaf); auto using tree_inv_expand. }
  assert (HszB : size tB = (size tA + N_ACTIONS)%nat).
  { pose proof (size_store tA leaf (expand N_ACTIONS leaf) p HtA HlA) as Hsz.
    rewrite size_expand in Hsz by done. fold tB in Hsz. lia. }
  assert (HlB : deref tB p = Some (expand N_ACTIONS leaf))
    by (by apply (deref_store_eq tA leaf)).
  assert (HsameB : ∀ r, ¬ p `prefix_of` r -> same_at tA tB r).
  { intros r Hr. unfold same_at, tB.
    destruct (ptr_cases p r) as [[r' ->]|[(k & r' & ->)|[H1 H2]]].
    - destruct Hr. by apply prefix_app_r.
    - destruct (deref_prefix _ _ _ _ HlA) as (c & Hc & _).
      rewrite (deref_store_above tA leaf c) by done. rewrite Hc.
      unfold members.
      by destruct (store_fields k r' (expand N_ACTIONS leaf) c)
        as (-> & -> & -> & -> & _).
    - rewrite deref_store_aside by done. by destruct (deref tA r). }
  (* the selection of the new child *)
  assert (Hexp : isLeaf_i (expand N_ACTIONS leaf) = false).
  { by rewrite expand_leaf. }
  destruct (selectAction_ok (expand N_ACTIONS leaf) wA HN
              (tree_inv_node _ (tree_inv_expand leaf Htleaf)) Hexp)
    as (a & g & wB & Hsel & Ha).
  unfold call_at. rewrite HlB, Hsel. simpl.
  set (tC := store p (set_rand g (expand N_ACTIONS leaf)) tB).
  destruct (store_same_shape tB (expand N_ACTIONS leaf)
              (set_rand g (expand N_ACTIONS leaf)) p) as [HtC HszC]; [done..|].
  fold tC in HtC, HszC.
  assert (HlC : deref tC p = Some (set_rand g (expand N_ACTIONS leaf)))
    by (by apply (deref_store_eq tB (expand N_ACTIONS leaf))).
  destruct (generator_call mdpA (Z.of_nat a) wB) as [[curReward mdpB] wC].
  (* the rollout *)
  unfold rollOut.
  destruct (rollOut_loop_rand MAX_ROLLOUT_ITERATIONS tC mdpB 1 0 wC)
    as (value & g' & wD & ->).
  exists (set_rand g' tC), p, a, (curReward :: rs), value, wD, leaf.
  exists (match p with [] => g' | _ => g end).
  split_and!; auto.
  - rewrite path_from_snoc, reverse_snoc. done.
  - simpl. lia.
  - rewrite deref_set_rand. by destruct p.
  - intros r Hr. apply (same_at_trans _ tA); [done|].
    apply (same_at_trans _ tB); [by apply HsameB|].
    apply (same_at_trans _ tC).
    + by apply (same_at_store_all tB (expand N_ACTIONS leaf)).
    + unfold same_at. rewrite deref_set_rand.
      destruct r; [done|]. by destruct (deref tC (n :: r)).
  - apply (tree_inv_same_children tC); done.
  - rewrite (size_same_children tC) by done. lia.
  - by exists tA, rs, curReward, mdpA, wA.
Qed.

(** *** The backup *)


Lemma members_updateStats (n n' : node) (v : float) :
  members n = members n' -> members (updateStats v n) = members (updateStats v n').
Proof. unfold members. simpl. congruence. Qed.

Lemma gamma_store (t cur n : node) (p : ptr) :
  deref t p = Some cur -> gamma_i n = gamma_i cur ->
  gamma_i (store p n t) = gamma_i t.
Proof.
  destruct p as [|k p]; intros Hp Hg.
  - simpl in *. congruence.
  - by destruct (store_fields k p n t) as (_ & _ & _ & -> & _).
Qed.

Lemma backup_spec (visited : list ptr) (rewards : list float) (value : float)
    (t : node) :
  length visited = length rewards -> NoDup visited ->
  Forall (λ p, is_Some (deref t p)) visited ->
  tree_inv N_ACTIONS t ->
  ∃ t', backup visited rewards value t = Ok t' ∧
    tree_inv N_ACTIONS t' ∧ size t' = size t ∧
    (∀ r, r ∉ visited -> same_at t t' r) ∧
    (∀ j p n, visited !! j = Some p -> deref t p = Some n ->
       ∃ n', deref t' p = Some n' ∧
             members n' = members (updateStats
               (unwind (gamma_i t) (take (S j) rewards) value) n)).
Proof.
  revert rewards value t.
  induction visited as [|p visited IH]; intros rewards value t Hlen Hnd Hval Ht.
  - exists t. simpl. split_and!; auto using same_at_refl. intros j p n Hj. done.
  - destruct rewards as [|top rewards]; [done|].
    cbn [backup]. rewrite Hlen, Nat.eqb_refl. simpl.
    apply Forall_cons in Hval as [[n Hn] Hval].
    apply NoDup_cons in Hnd as [Hp Hnd].
    unfold update_at. rewrite Hn. simpl.
    set (v := (top + gamma_i t * value)%float).
    set (t1 := store p (updateStats v n) t).
    destruct (store_same_shape t n (updateStats v n) p) as [Ht1 Hsz1]; [done..|].
    fold t1 in Ht1, Hsz1.
    assert (Hsame1 : ∀ r, r ≠ p -> same_at t t1 r).
    { intros r Hr. by apply (same_at_store t n). }
    assert (Hg1 : gamma_i t1 = gamma_i t) by (by apply (gamma_store t n)).
    destruct (IH rewards v t1) as (t' & Heq & Ht' & Hsz' & Hsame' & Hupd');
      [simpl in Hlen; lia|done| |done|].
    { rewrite Forall_forall in Hval |- *. intros q Hq.
      assert (Hqp : q ≠ p) by (by intros ->).
      specialize (Hval q Hq). specialize (Hsame1 q Hqp).
      unfold same_at in Hsame1. destruct Hval as [nq Hnq]. rewrite Hnq in Hsame1.
      by destruct (deref t1 q). }
    exists t'. split_and!; auto.
    + lia.
    + intros r Hr. apply not_elem_of_cons in Hr as [Hr1 Hr2].
      apply (same_at_trans _ t1); auto.
    + intros [|j] q nq Hj Hq; simpl in Hj.
      * injection Hj as <-. rewrite Hq in Hn. injection Hn as <-.
        specialize (Hsame' p Hp). unfold same_at in Hsame'.
        unfold t1 in Hsame'. rewrite (deref_store_eq t nq) in Hsame' by done.
        destruct (deref t' p) as [n'|]; [|done]. exists n'. split; [done|].
        rewrite <- Hsame'. done.
      * assert (Hqp : q ≠ p).
        { intros ->. apply Hp. by eapply list_elem_of_lookup_2. }
        specialize (Hsame1 q Hqp). unfold same_at in Hsame1.
        rewrite Hq in Hsame1.
        destruct (deref t1 q) as [n1|] eqn:Hq1; [|done].
        destruct (Hupd' j q n1 Hj Hq1) as (n' & Hn' & Hm').
        exists n'. split; [done|]. rewrite Hm', Hg1.
        by apply members_updateStats.
Qed.

(** *** One call of [iterate] *)

Lemma new_slots :
  write_slots N_ACTIONS Null (alloc_slots N_ACTIONS) = replicate N_ACTIONS (@Null node).
Proof. apply write_slots_replicate, length_replicate. Qed.

Lemma deref_new (inGamma : float) (inRand : G) (k : nat) (r : ptr) :
  deref (new_UCTreeNode N_ACTIONS inGamma inRand) (k :: r) = None.
Proof.
  simpl. rewrite new_slots.
  destruct (replicate N_ACTIONS Null !! k) as [s|] eqn:Hk; [|done].
  by apply lookup_replicate in Hk as [-> _].
Qed.

(** Below a leaf that has just been expanded there are the [N_ACTIONS]
    new leaves and nothing else. *)
Lemma deref_expand_below (leaf : node) (g : G) (k : nat) (r : ptr) :
  node_inv N_ACTIONS leaf -> isLeaf_i leaf = true ->
  deref (set_rand g (expand N_ACTIONS leaf)) (k :: r) =
    if decide (k < N_ACTIONS)%nat then
      match r with
      | [] => Some (new_UCTreeNode N_ACTIONS DEFAULT_GAMMA urand_new)
      | _ => None
      end
    else None.
Proof.
  intros Hn Hleaf. rewrite expand_leaf by done. simpl.
  destruct (decide (k < N_ACTIONS)%nat) as [Hk|Hk].
  - rewrite lookup_replicate_2 by done. destruct r as [|j r]; [done|].
    apply deref_new.
  - assert (Hnone : replicate N_ACTIONS
                      (Ptr (new_UCTreeNode N_ACTIONS DEFAULT_GAMMA urand_new)) !! k
                    = None) by (apply lookup_replicate_None; lia).
    by rewrite Hnone.
Qed.

Lemma iterate_spec (this : node) (mdp : M) (w : W) :
  (0 < N_ACTIONS)%nat -> tree_inv N_ACTIONS this ->
  ∃ this1 p a rs value w1 leaf g this',
    iterate_descend N_ACTIONS this mdp w
    = Ok (this1, reverse (path_from [] (p ++ [a])), rs ++ [0%float], value, w1) ∧
    iterate N_ACTIONS this mdp w = Ok (this', w1) ∧
    length rs = S (length p) ∧ (a < N_ACTIONS)%nat ∧
    deref this p = Some leaf ∧ isLeaf_i leaf = true ∧
    deref this1 p = Some (set_rand g (expand N_ACTIONS leaf)) ∧
    (∀ r, ¬ p `prefix_of` r -> same_at this this1 r) ∧
    gamma_i this1 = gamma_i this ∧
    tree_inv N_ACTIONS this' ∧ size this' = (size this + N_ACTIONS)%nat ∧
    (∀ r, ¬ r `prefix_of` p ++ [a] -> same_at this1 this' r) ∧
    (∀ j q n, reverse (path_from [] (p ++ [a])) !! j = Some q ->
       deref this1 q = Some n ->
       ∃ n', deref this' q = Some n' ∧
             members n' = members (updateStats
               (unwind (gamma_i this) (take (S j) (rs ++ [0%float])) value) n)) ∧
    ∃ tA rsA top mdpA wA,
      traverse N_ACTIONS (height this) this [] [[]] [0%float] mdp w
      = Ok (tA, p, reverse (path_from [] p), rsA ++ [0%float], mdpA, wA) ∧
      rs = top :: rsA.
Proof.
  intros HN Ht.
  destruct (iterate_descend_spec this mdp w HN Ht)
    as (this1 & p & a & rs & value & w1 & leaf & g & Heq & Hlen & Ha & Hl &
        Hleaf & Hl1 & Hsame1 & Ht1 & Hsz1 & Htrav).
  pose proof (tree_inv_node leaf (tree_inv_deref this leaf p Ht Hl)) as Hnleaf.
  assert (Hg : gamma_i this1 = gamma_i this).
  { destruct p as [|k p].
    - simpl in Hl, Hl1. injection Hl as <-. injection Hl1 as ->.
      by rewrite expand_leaf.
    - specialize (Hsame1 []). unfold same_at in Hsame1. simpl in Hsame1.
      unfold members in Hsame1.
      assert (Hx : (isLeaf_i this, nVisits_i this, totValue_i this, gamma_i this)
                   = (isLeaf_i this1, nVisits_i this1, totValue_i this1,
                      gamma_i this1)).
      { apply Hsame1. intros [r Hr]. done. }
      congruence. }
  destruct (backup_spec (reverse (path_from [] (p ++ [a]))) (rs ++ [0%float])
              value this1) as (this' & Hb & Ht' & Hsz' & Hsame' & Hupd'); [| | |done|].
  { rewrite length_reverse, path_from_length, !length_app. simpl. lia. }
  { rewrite reverse_Permutation. apply path_from_NoDup. }
  { rewrite Forall_forall. intros q Hq. rewrite elem_of_reverse in Hq.
    apply path_from_prefix in Hq as [_ [r Hr]]. simpl in Hr.
    assert (Hend : deref this1 (p ++ [a]) =
                   Some (new_UCTreeNode N_ACTIONS DEFAULT_GAMMA urand_new)).
    { rewrite deref_app, Hl1.
      change (deref (set_rand g (expand N_ACTIONS leaf)) [a] =
              Some (new_UCTreeNode N_ACTIONS DEFAULT_GAMMA urand_new)).
      rewrite deref_expand_below by done. by rewrite decide_True. }
    rewrite Hr in Hend. apply deref_prefix in Hend as (c & -> & _). eauto. }
  exists this1, p, a, rs, value, w1, leaf, g, this'.
  split_and!; auto.
  - unfold iterate. rewrite Heq. simpl. rewrite Hb. done.
  - lia.
  - intros r Hr. apply Hsame'. rewrite elem_of_reverse, path_from_prefix.
    simpl. tauto.
  - intros j q n Hj Hq. rewrite <- Hg. by apply Hupd'.
Qed.

Lemma deref_leaf (leaf : node) (k : nat) (r : ptr) :
  node_inv N_ACTIONS leaf -> isLeaf_i leaf = true -> deref leaf (k :: r) = None.
Proof.
  intros [_ Hall] Hleaf. rewrite Hleaf in Hall. simpl.
  destruct (vpChildren_i leaf !! k) as [s|] eqn:Hk; [|done].
  rewrite Forall_lookup in Hall. by rewrite (Hall k s Hk).
Qed.

Lemma path_from_reverse_lookup (q r : ptr) :
  r `prefix_of` q ->
  reverse (path_from [] q) !! (length q - length r)%nat = Some r.
Proof.
  intros [r' ->]. rewrite reverse_lookup; rewrite path_from_length.
  - rewrite length_app.
    replace (S (length r + length r') - S (length r + length r' - length r))%nat
      with (length r) by lia.
    rewrite path_from_lookup by (rewrite length_app; lia).
    by rewrite take_app_length.
  - rewrite length_app. lia.
Qed.

(** What one call of [iterate] does to the nodes of the tree: the nodes
    from the root to the leaf behind [p] and the new child [a] of that
    leaf receive one update of their statistics, the other children of
    the leaf are new, and every other node keeps its members. *)
Lemma iterate_frame (this : node) (mdp : M) (w : W) :
  (0 < N_ACTIONS)%nat -> tree_inv N_ACTIONS this ->
  ∃ this' w' p a leaf,
    iterate N_ACTIONS this mdp w = Ok (this', w') ∧
    tree_inv N_ACTIONS this' ∧ size this' = (size this + N_ACTIONS)%nat ∧
    deref this p = Some leaf ∧ isLeaf_i leaf = true ∧ (a < N_ACTIONS)%nat ∧
    (∀ r n, deref this r = Some n ->
       ∃ n', deref this' r = Some n' ∧ gamma_i n' = gamma_i n ∧
             ((r `prefix_of` p ∧ ∃ v, stats n' = stats (updateStats v n)) ∨
              (¬ r `prefix_of` p ∧ members n' = members n))) ∧
    (∀ k, (k < N_ACTIONS)%nat ->
       ∃ c, deref this' (p ++ [k]) = Some c ∧ isLeaf_i c = true ∧
            gamma_i c = DEFAULT_GAMMA ∧
            if decide (k = a) then ∃ v, stats c = ((0 + 1)%float, (0 + v)%float)
            else stats c = (0%float, 0%float)) ∧
    (∀ r n', deref this' r = Some n' ->
       is_Some (deref this r) ∨ ∃ k, (k < N_ACTIONS)%nat ∧ r = p ++ [k]).
Proof.
  intros HN Ht.
  destruct (iterate_spec this mdp w HN Ht)
    as (this1 & p & a & rs & value & w1 & leaf & g & this' & _ & Heq & Hlen &
        Ha & Hl & Hleaf & Hl1 & Hsame1 & Hg & Ht' & Hsz' & Hsame' & Hupd' & _).
  pose proof (tree_inv_node leaf (tree_inv_deref this leaf p Ht Hl)) as Hnleaf.
  assert (Hbelow : ∀ k r, deref this1 (p ++ k :: r) =
            if decide (k < N_ACTIONS)%nat then
              match r with
              | [] => Some (new_UCTreeNode N_ACTIONS DEFAULT_GAMMA urand_new)
              | _ => None
              end
            else None).
  { intros k r. rewrite (deref_app_Some _ _ _ _ Hl1).
    by apply deref_expand_below. }
  assert (Hout : ∀ k r, ¬ p ++ k :: r `prefix_of` p ++ [a] ∨ (k = a ∧ r = [])).
  { intros k r. destruct (decide (k = a ∧ r = [])) as [?|Hne]; [by right|left].
    intros [r' Hr']. rewrite <- app_assoc in Hr'. apply app_inv_head in Hr'.
    simpl in Hr'. injection Hr' as -> Hr'. destruct r; [|done]. by destruct Hne. }
  assert (Hon : ∀ r n1, r `prefix_of` p ++ [a] -> deref this1 r = Some n1 ->
            ∃ v n', deref this' r = Some n' ∧
                    members n' = members (updateStats v n1)).
  { intros r n1 Hr Hn1. eexists.
    apply (Hupd' _ r n1 (path_from_reverse_lookup (p ++ [a]) r Hr) Hn1). }
  exists this', w1, p, a, leaf. split_and!; auto.
  - (* the nodes of the tree before the call *)
    intros r n Hn.
    destruct (decide (p `prefix_of` r)) as [[r' ->]|Hpr].
    + destruct r' as [|k r'].
      * rewrite app_nil_r in *. rewrite Hl in Hn. injection Hn as <-.
        destruct (Hon p _ (prefix_app_r p p [a] (reflexivity p)) Hl1)
          as (v & n' & Hn' & Hm).
        exists n'. unfold members in Hm. simpl in Hm.
        injection Hm as Hm1 Hm2 Hm3 Hm4. rewrite expand_leaf in * by done.
        simpl in *. split_and!; [done..|]. left. split; [done|].
        exists v. unfold stats. simpl. congruence.
      * rewrite (deref_app_Some _ _ _ _ Hl) in Hn.
        by rewrite deref_leaf in Hn.
    + specialize (Hsame1 r Hpr). unfold same_at in Hsame1. rewrite Hn in Hsame1.
      destruct (deref this1 r) as [n1|] eqn:Hn1; [|done].
      destruct (decide (r `prefix_of` p ++ [a])) as [Hrq|Hrq].
      * destruct (Hon r n1 Hrq Hn1) as (v & n' & Hn' & Hm).
        exists n'. rewrite (members_updateStats n1 n v) in Hm by done.
        unfold members in Hm. simpl in Hm. injection Hm as Hm1 Hm2 Hm3 Hm4.
        split_and!; [done..|]. left. split.
        -- destruct Hrq as [r' Hr']. destruct (ptr_cases r p)
             as [[r2 ->]|[(k & r2 & ->)|[H1 H2]]].
           ++ by apply prefix_app_r.
           ++ destruct Hpr. by apply prefix_app_r.
           ++ destruct (decide (r' = [])) as [->|Hne].
              ** rewrite app_nil_r in Hr'. subst r. destruct Hpr.
                 by apply prefix_app_r.
              ** destruct H1. exists (removelast r').
                 apply (app_inj_tail _ _ a (List.last r' 0%nat)).
                 rewrite <- app_assoc, <- app_removelast_last by done. done.
        -- exists v. unfold stats. simpl. congruence.
      * specialize (Hsame' r Hrq). unfold same_at in Hsame'.
        rewrite Hn1 in Hsame'. destruct (deref this' r) as [n'|]; [|done].
        exists n'. unfold members in *.
        injection Hsame1 as E1 E2 E3 E4. injection Hsame' as F1 F2 F3 F4.
        split_and!; [done|by rewrite <- F4|]. right. split.
        -- intros Hrp. apply Hrq. destruct Hrp as [r' ->].
           rewrite <- app_assoc. by apply prefix_app_r.
        -- by rewrite <- F1, <- F2, <- F3, <- F4, E1, E2, E3, E4.
  - (* the new children *)
    intros k Hk. specialize (Hbelow k []). rewrite decide_True in Hbelow by done.
    destruct (decide (k = a)) as [->|Hka].
    + destruct (Hon (p ++ [a]) _ (reflexivity _) Hbelow) as (v & n' & Hn' & Hm).
      exists n'. unfold members in Hm. simpl in Hm.
      injection Hm as Hm1 Hm2 Hm3 Hm4. split_and!; [done..|].
      exists v. unfold stats. by rewrite Hm2, Hm3.
    + destruct (Hout k []) as [Hrq|[? _]]; [|done].
      specialize (Hsame' _ Hrq). unfold same_at in Hsame'.
      rewrite Hbelow in Hsame'.
      destruct (deref this' (p ++ [k])) as [n'|]; [|done].
      exists n'. unfold members in Hsame'. simpl in Hsame'.
      injection Hsame' as Hm1 Hm2 Hm3 Hm4. split_and!; [done..|].
      unfold stats. congruence.
  - (* nothing else *)
    intros r n' Hn'.
    destruct (decide (p `prefix_of` r)) as [[r' ->]|Hpr].
    + destruct r' as [|k r']; [left; rewrite app_nil_r; eauto|].
      destruct (Hout k r') as [Hrq|[-> ->]]; [|right; eauto].
      specialize (Hsame' _ Hrq). unfold same_at in Hsame'.
      rewrite Hn', Hbelow in Hsame'.
      destruct (decide (k < N_ACTIONS)%nat) as [Hk|Hk]; [|done].
      destruct r'; [|done]. right. eauto.
    + left. specialize (Hsame1 r Hpr). unfold same_at in Hsame1.
      destruct (deref this r); [by eauto|].
      destruct (deref this1 r) as [n1|] eqn:Hn1; [done|].
      destruct (decide (r `prefix_of` p ++ [a])) as [[r' Hr']|Hrq].
      * assert (Hend : is_Some (deref this1 (p ++ [a]))).
        { specialize (Hbelow a []). rewrite decide_True in Hbelow by done.
          rewrite Hbelow. eauto. }
        rewrite Hr', deref_app, Hn1 in Hend. by destruct Hend.
      * specialize (Hsame' r Hrq). unfold same_at in Hsame'.
        by rewrite Hn1, Hn' in Hsame'.
Qed.

(** *** Repeated calls *)

Lemma iterate_gamma (this this' : node) (mdp : M) (w w' : W) :
  (0 < N_ACTIONS)%nat -> tree_inv N_ACTIONS this ->
  iterate N_ACTIONS this mdp w = Ok (this', w') ->
  gamma_i this' = gamma_i this ∧ (below_default this -> below_default this').
Proof.
  intros HN Ht Heq.
  destruct (iterate_frame this mdp w HN Ht)
    as (this2 & w2 & p & a & leaf & Heq2 & _ & _ & _ & _ & _ & Hold & Hnew & Hall).
  rewrite Heq in Heq2. injection Heq2 as <- <-. split.
  - destruct (Hold [] this eq_refl) as (n' & Hn' & Hg & _).
    simpl in Hn'. by injection Hn' as <-.
  - intros Hinv k r n' Hn'. destruct (Hall _ _ Hn') as [[n Hn]|(j & Hj & Hr)].
    + destruct (Hold _ _ Hn) as (n2 & Hn2 & Hg & _).
      rewrite Hn' in Hn2. injection Hn2 as <-. rewrite Hg. by apply (Hinv k r).
    + destruct (Hnew j Hj) as (c & Hc & _ & Hg & _).
      rewrite <- Hr, Hn' in Hc. by injection Hc as <-.
Qed.

Lemma iterations_spec (mdps : list M) (this : node) (w : W) :
  (0 < N_ACTIONS)%nat -> tree_inv N_ACTIONS this ->
  ∃ this' w',
    iterations N_ACTIONS mdps this w = Ok (this', w') ∧
    tree_inv N_ACTIONS this' ∧
    size this' = (size this + N_ACTIONS * length mdps)%nat ∧
    gamma_i this' = gamma_i this ∧
    (below_default this -> below_default this').
Proof.
  intros HN. revert this w.
  induction mdps as [|mdp mdps IH]; intros this w Ht; simpl.
  - exists this, w. split_and!; auto. lia.
  - destruct (iterate_frame this mdp w HN Ht)
      as (this1 & w1 & p & a & leaf & Heq & Ht1 & Hsz1 & _).
    destruct (iterate_gamma this this1 mdp w w1 HN Ht Heq) as [Hg1 Hb1].
    rewrite Heq. simpl.
    destruct (IH this1 w1 Ht1) as (this' & w' & Heq' & Ht' & Hsz' & Hg' & Hb').
    exists this', w'. split_and!; auto.
    + lia.
    + congruence.
Qed.

(** ** Properties of the search tree *)

(** C1: for every action count N (at least 1, as the array of children
    requires), every reward source and every number k of calls of
    [iterate] on a freshly constructed root, [numOfNodes()] then returns
    exactly 1 + N*k, as long as that count is an [int]. *)
Theorem numOfNodes_after_iterations (inGamma : float) (inRand : G)
    (mdps : list M) (w : W) :
  (0 < N_ACTIONS)%nat ->
  1 + Z.of_nat N_ACTIONS * Z.of_nat (length mdps) <= INT_MAX ->
  ∃ this' w',
    iterations N_ACTIONS mdps (new_UCTreeNode N_ACTIONS inGamma inRand) w
    = Ok (this', w') ∧
    numOfNodes this' = Ok (1 + Z.of_nat N_ACTIONS * Z.of_nat (length mdps)).
Proof.
  intros HN Hmax.
  destruct (iterations_spec mdps (new_UCTreeNode N_ACTIONS inGamma inRand) w HN
              (tree_inv_new inGamma inRand))
    as (this' & w' & Heq & Ht' & Hsz' & _).
  exists this', w'. split; [done|].
  rewrite (numOfNodes_size this' Ht'), Hsz', size_new.
  rewrite int_wrap_small; [f_equal; lia|]. unfold INT_MIN, INT_MAX in *. lia.
Qed.

Lemma unwind_take_S (gamma : float) (rewards : list float) (value top : float)
    (j : nat) :
  rewards !! j = Some top ->
  unwind gamma (take (S j) rewards) value
  = (top + gamma * unwind gamma (take j rewards) value)%float.
Proof.
  intros Hj. rewrite (take_S_r _ _ _ Hj). unfold unwind.
  by rewrite foldl_app.
Qed.

(** C2: the backpropagation of [iterate] unwinds the stack of visited
    nodes and the stack of rewards in lock-step.  The stack of visited
    nodes holds the path of the tree as it is before the call: the
    pointer [p] on which the first loop stops, at a leaf [leaf] of that
    tree, every pointer from the root down to [p], and on top the new
    child [a] of that leaf, which the tree did not have; the rewards lie
    beside them, the placeholder 0.0 beside the root.  The new child
    enters the loop with the statistics 0 and 0, every other node of the
    path with the statistics it had before the call.  At each step the
    value becomes the popped reward plus [gamma_i] times the value so
    far, and [updateStats] adds 1 to the visit count of the popped node
    and that value to its total.  Each node of the path is on the stack
    once, so it receives exactly one update, no other node of the tree
    receives any, and the root receives the value into which all rewards
    have been folded. *)
Theorem iterate_backup_lockstep (this : node) (mdp : M) (w : W) :
  (0 < N_ACTIONS)%nat -> tree_inv N_ACTIONS this ->
  ∃ p a leaf this1 visited rewards value w1 this',
    (∃ tA rsA top mdpA wA,
       traverse N_ACTIONS (height this) this [] [[]] [0%float] mdp w
       = Ok (tA, p, reverse (path_from [] p), rsA ++ [0%float], mdpA, wA) ∧
       rewards = top :: rsA ++ [0%float]) ∧
    deref this p = Some leaf ∧ isLeaf_i leaf = true ∧
    (a < N_ACTIONS)%nat ∧ deref this (p ++ [a]) = None ∧
    iterate_descend N_ACTIONS this mdp w = Ok (this1, visited, rewards, value, w1) ∧
    backup visited rewards value this1 = Ok this' ∧
    iterate N_ACTIONS this mdp w = Ok (this', w1) ∧
    visited = reverse (path_from [] (p ++ [a])) ∧
    head visited = Some (p ++ [a]) ∧ last visited = Some [] ∧
    length visited = length rewards ∧ NoDup visited ∧
    last rewards = Some 0%float ∧
    (∃ child, deref this1 (p ++ [a]) = Some child ∧ isLeaf_i child = true ∧
              stats child = (0%float, 0%float)) ∧
    (∀ r n, r `prefix_of` p -> deref this r = Some n ->
       ∃ n1, deref this1 r = Some n1 ∧ stats n1 = stats n) ∧
    (∀ j q n, visited !! j = Some q -> deref this1 q = Some n ->
       ∃ top n', rewards !! j = Some top ∧ deref this' q = Some n' ∧
         let value_j := unwind (gamma_i this) (take (S j) rewards) value in
         value_j = (top + gamma_i this *
                          unwind (gamma_i this) (take j rewards) value)%float ∧
         nVisits_i n' = (nVisits_i n + 1)%float ∧
         totValue_i n' = (totValue_i n + value_j)%float) ∧
    (∀ r n, r `prefix_of` p -> deref this r = Some n ->
       ∃ n', deref this' r = Some n' ∧
         let value_r :=
           unwind (gamma_i this) (take (S (S (length p) - length r)) rewards) value in
         nVisits_i n' = (nVisits_i n + 1)%float ∧
         totValue_i n' = (totValue_i n + value_r)%float) ∧
    (∃ child' top, deref this' (p ++ [a]) = Some child' ∧ head rewards = Some top ∧
       nVisits_i child' = (0 + 1)%float ∧
       totValue_i child' = (0 + (top + gamma_i this * value))%float) ∧
    (∀ r n, ¬ r `prefix_of` p -> deref this r = Some n ->
       ∃ n', deref this' r = Some n' ∧ members n' = members n) ∧
    (∀ r, r ∉ visited -> same_at this1 this' r) ∧
    nVisits_i this' = (nVisits_i this + 1)%float ∧
    totValue_i this' = (totValue_i this + unwind (gamma_i this) rewards value)%float.
Proof.
  intros HN Ht.
  destruct (iterate_spec this mdp w HN Ht)
    as (this1 & p & a & rs & value & w1 & leaf & g & this' & Hd & Heq & Hlen &
        Ha & Hl & Hleaf & Hl1 & Hsame1 & Hg & Ht' & Hsz' & Hsame' & Hupd' &
        tA & rsA & top0 & mdpA & wA & Htrav & Hrs).
  pose proof (tree_inv_node leaf (tree_inv_deref this leaf p Ht Hl)) as Hnleaf.
  set (visited := reverse (path_from [] (p ++ [a]))) in *.
  set (rewards := rs ++ [0%float]) in *.
  assert (Hlpa : length (p ++ [a]) = S (length p))
    by (rewrite length_app; simpl; lia).
  assert (Hlens : length visited = length rewards).
  { unfold visited, rewards.
    rewrite length_reverse, path_from_length, !length_app. simpl. lia. }
  assert (Hon : ∀ r, r `prefix_of` p ++ [a] ->
            visited !! (S (length p) - length r)%nat = Some r).
  { intros r Hr. rewrite <- Hlpa. by apply path_from_reverse_lookup. }
  assert (Hnone : ∀ k r, deref this (p ++ k :: r) = None).
  { intros k r. rewrite (deref_app_Some _ _ _ _ Hl). by apply deref_leaf. }
  assert (Hend : deref this1 (p ++ [a]) =
                 Some (new_UCTreeNode N_ACTIONS DEFAULT_GAMMA urand_new)).
  { rewrite (deref_app_Some _ _ _ _ Hl1).
    rewrite deref_expand_below by done. by rewrite decide_True. }
  assert (Hold1 : ∀ r n, r `prefix_of` p -> deref this r = Some n ->
            ∃ n1, deref this1 r = Some n1 ∧ stats n1 = stats n).
  { intros r n Hr Hn. destruct (decide (r = p)) as [->|Hne].
    - rewrite Hl in Hn. injection Hn as <-. eexists. split; [exact Hl1|].
      by rewrite expand_leaf.
    - assert (Hnp : ¬ p `prefix_of` r).
      { intros Hpr. apply Hne. by apply (anti_symm prefix). }
      specialize (Hsame1 r Hnp). unfold same_at in Hsame1. rewrite Hn in Hsame1.
      destruct (deref this1 r) as [n1|]; [|done]. exists n1. split; [done|].
      unfold members in Hsame1. unfold stats. congruence. }
  assert (Hstep : ∀ j q n, visited !! j = Some q -> deref this1 q = Some n ->
    ∃ top n', rewards !! j = Some top ∧ deref this' q = Some n' ∧
      unwind (gamma_i this) (take (S j) rewards) value
      = (top + gamma_i this * unwind (gamma_i this) (take j rewards) value)%float ∧
      nVisits_i n' = (nVisits_i n + 1)%float ∧
      totValue_i n' = (totValue_i n +
                       unwind (gamma_i this) (take (S j) rewards) value)%float).
  { intros j q n Hj Hq.
    destruct (lookup_lt_is_Some_2 rewards j) as [top Htop].
    { rewrite <- Hlens. by eapply lookup_lt_Some. }
    destruct (Hupd' j q n Hj Hq) as (n' & Hn' & Hm).
    unfold members in Hm. simpl in Hm. injection Hm as _ Hv Htv _.
    exists top, n'. split_and!; auto using unwind_take_S. }
  assert (Hpath : ∀ r n, r `prefix_of` p -> deref this r = Some n ->
    ∃ n', deref this' r = Some n' ∧
      nVisits_i n' = (nVisits_i n + 1)%float ∧
      totValue_i n' = (totValue_i n +
        unwind (gamma_i this) (take (S (S (length p) - length r)) rewards) value)%float).
  { intros r n Hr Hn. destruct (Hold1 r n Hr Hn) as (n1 & Hn1 & Hst).
    unfold stats in Hst. injection Hst as Hv1 Htv1.
    destruct (Hstep _ r n1 (Hon r (prefix_app_r _ _ _ Hr)) Hn1)
      as (top & n' & _ & Hn' & _ & Hv & Htv).
    exists n'. split_and!; [done|congruence|congruence]. }
  exists p, a, leaf, this1, visited, rewards, value, w1, this'.
  split_and!.
  - exists tA, rsA, top0, mdpA, wA. split; [done|]. unfold rewards. by rewrite Hrs.
  - exact Hl.
  - exact Hleaf.
  - exact Ha.
  - apply (Hnone a []).
  - exact Hd.
  - unfold iterate in Heq. rewrite Hd in Heq. simpl in Heq.
    destruct (backup visited rewards value this1) as [t|f]; simpl in Heq; [|done].
    by injection Heq as ->.
  - exact Heq.
  - reflexivity.
  - unfold visited. by rewrite path_from_snoc, reverse_snoc.
  - unfold visited.
    assert (Hhd : ∃ rest, path_from [] (p ++ [a]) = [] :: rest)
      by (destruct (p ++ [a]); eexists; reflexivity).
    destruct Hhd as [rest ->]. by rewrite reverse_cons, last_snoc.
  - exact Hlens.
  - unfold visited. rewrite reverse_Permutation. apply path_from_NoDup.
  - unfold rewards. by rewrite last_snoc.
  - eexists. split; [exact Hend|]. done.
  - exact Hold1.
  - exact Hstep.
  - exact Hpath.
  - assert (H0 : visited !! O = Some (p ++ [a])).
    { rewrite <- (Hon (p ++ [a])) by done. by rewrite Hlpa, Nat.sub_diag. }
    destruct (Hstep O (p ++ [a]) _ H0 Hend)
      as (top & n' & Htop & Hn' & Hval & Hv & Htv).
    exists n', top. split_and!; [done| |done|].
    + clear -Htop. by destruct rewards.
    + rewrite Htv, Hval. done.
  - intros r n Hr Hn.
    assert (Hnp : ¬ p `prefix_of` r).
    { intros [[|k x] ->].
      - rewrite app_nil_r in Hr. by destruct Hr.
      - by rewrite Hnone in Hn. }
    assert (Hnpa : ¬ r `prefix_of` p ++ [a]).
    { intros [x Hx]. destruct x as [|b x _] using rev_ind.
      - rewrite app_nil_r in Hx. subst r. by rewrite Hnone in Hn.
      - rewrite app_assoc in Hx. apply app_inj_tail in Hx as [-> _].
        destruct Hr. by apply prefix_app_r. }
    pose proof (same_at_trans _ _ _ r (Hsame1 r Hnp) (Hsame' r Hnpa)) as Hs.
    unfold same_at in Hs. rewrite Hn in Hs.
    destruct (deref this' r) as [n'|]; [|done]. by exists n'.
  - intros r Hr. apply Hsame'. intros Hrq. apply Hr. unfold visited.
    rewrite elem_of_reverse, path_from_prefix. split; [apply prefix_nil|done].
  - destruct (Hpath [] this (prefix_nil _) eq_refl) as (n' & Hn' & Hv & _).
    simpl in Hn'. by injection Hn' as <-.
  - destruct (Hpath [] this (prefix_nil _) eq_refl) as (n' & Hn' & _ & Htv).
    simpl in Hn'. injection Hn' as <-. rewrite Htv. do 2 f_equal.
    apply take_ge. unfold rewards. rewrite !length_app. simpl. lia.
Qed.

(** C5: one call of [iterate] follows a path [p] from the root to a leaf
    and ends on a new leaf one edge further, the child [a] of the old
    leaf.  The visit count and the total value change (by one
    [updateStats]) for the nodes on that path only; every other node of
    the tree keeps its statistics, the other N-1 children created by the
    expansion have visit count 0 and total value 0, and the tree has no
    further node. *)
Theorem iterate_changes_path_only (this : node) (mdp : M) (w : W) :
  (0 < N_ACTIONS)%nat -> tree_inv N_ACTIONS this ->
  ∃ this' w' p a leaf,
    iterate N_ACTIONS this mdp w = Ok (this', w') ∧
    deref this p = Some leaf ∧ isLeaf_i leaf = true ∧
    (a < N_ACTIONS)%nat ∧ length (p ++ [a]) = S (length p) ∧
    (∃ c v, deref this' (p ++ [a]) = Some c ∧ isLeaf_i c = true ∧
            stats c = ((0 + 1)%float, (0 + v)%float)) ∧
    (∀ r n, r `prefix_of` p -> deref this r = Some n ->
       ∃ n' v, deref this' r = Some n' ∧ stats n' = stats (updateStats v n)) ∧
    (∀ r n, ¬ r `prefix_of` p -> deref this r = Some n ->
       ∃ n', deref this' r = Some n' ∧ stats n' = stats n) ∧
    (∀ k, (k < N_ACTIONS)%nat -> k ≠ a ->
       ∃ c, deref this' (p ++ [k]) = Some c ∧ isLeaf_i c = true ∧
            nVisits_i c = 0%float ∧ totValue_i c = 0%float) ∧
    (∀ r n', deref this' r = Some n' ->
       is_Some (deref this r) ∨ ∃ k, (k < N_ACTIONS)%nat ∧ r = p ++ [k]).
Proof.
  intros HN Ht.
  destruct (iterate_frame this mdp w HN Ht)
    as (this' & w' & p & a & leaf & Heq & _ & _ & Hl & Hleaf & Ha & Hold &
        Hnew & Hall).
  exists this', w', p, a, leaf. split_and!; auto.
  - rewrite length_app. simpl. lia.
  - destruct (Hnew a Ha) as (c & Hc & Hcl & _ & Hs).
    rewrite decide_True in Hs by done. destruct Hs as [v Hs]. eauto.
  - intros r n Hr Hn. destruct (Hold r n Hn) as (n' & Hn' & _ & [[_ [v Hs]]|[Hnr _]]).
    + eauto.
    + done.
  - intros r n Hr Hn. destruct (Hold r n Hn) as (n' & Hn' & _ & [[Hr' _]|[_ Hm]]).
    + done.
    + exists n'. split; [done|]. unfold members in Hm. unfold stats.
      by injection Hm as _ -> -> _.
  - intros k Hk Hka. destruct (Hnew k Hk) as (c & Hc & Hcl & _ & Hs).
    rewrite decide_False in Hs by done. unfold stats in Hs.
    injection Hs as Hv Htv. eauto 6.
Qed.

(** C3 (as the code has it): [expand] constructs every child with the
    default arguments of the constructor, so a child has the discount
    factor [DEFAULT_GAMMA] and a default-constructed random source,
    whatever the expanding node has.  After any number of calls of
    [iterate] on a root constructed with [inGamma], the root still has
    [inGamma] and every node below it has [DEFAULT_GAMMA]. *)
Theorem descendants_have_default_gamma (inGamma : float) (inRand : G)
    (mdps : list M) (w : W) :
  (0 < N_ACTIONS)%nat ->
  (∀ this : node, length (vpChildren_i this) = N_ACTIONS -> isLeaf_i this = true ->
     vpChildren_i (expand N_ACTIONS this)
     = replicate N_ACTIONS (Ptr (new_UCTreeNode N_ACTIONS DEFAULT_GAMMA urand_new))) ∧
  ∃ this' w',
    iterations N_ACTIONS mdps (new_UCTreeNode N_ACTIONS inGamma inRand) w
    = Ok (this', w') ∧
    gamma_i this' = inGamma ∧
    (∀ k r n, deref this' (k :: r) = Some n -> gamma_i n = DEFAULT_GAMMA).
Proof.
  intros HN. split.
  - intros this Hlen Hleaf. unfold expand. rewrite Hleaf. simpl.
    by apply write_slots_replicate.
  - destruct (iterations_spec mdps (new_UCTreeNode N_ACTIONS inGamma inRand) w HN
                (tree_inv_new inGamma inRand))
      as (this' & w' & Heq & _ & _ & Hg & Hb).
    exists this', w'. split_and!; [done..|]. apply Hb.
    intros k r n Hn. by rewrite deref_new in Hn.
Qed.

(** C8: [expand] is idempotent.  On a leaf it puts a new leaf into each
    of the N slots and clears the leaf flag; on a node that is not a leaf
    it changes nothing; so a second call changes nothing. *)
Theorem expand_idempotent (this : node) :
  length (vpChildren_i this) = N_ACTIONS ->
  (isLeaf_i this = true ->
     expand N_ACTIONS this
     = mkUCTreeNode
         (replicate N_ACTIONS (Ptr (new_UCTreeNode N_ACTIONS DEFAULT_GAMMA urand_new)))
         false (nVisits_i this) (totValue_i this) (gamma_i this) (rand_i this) ∧
     isLeaf (new_UCTreeNode N_ACTIONS DEFAULT_GAMMA urand_new) = true ∧
     vpChildren_i (new_UCTreeNode N_ACTIONS DEFAULT_GAMMA urand_new)
     = replicate N_ACTIONS Null) ∧
  (isLeaf_i this = false -> expand N_ACTIONS this = this) ∧
  expand N_ACTIONS (expand N_ACTIONS this) = expand N_ACTIONS this.
Proof.
  intros Hlen. split_and!.
  - intros Hleaf. split_and!.
    + unfold expand. rewrite Hleaf. simpl. by rewrite write_slots_replicate.
    + reflexivity.
    + apply new_slots.
  - intros Hleaf. unfold expand. by rewrite Hleaf.
  - unfold expand at 1. destruct (isLeaf_i (expand N_ACTIONS this)) eqn:Hleaf; [|done].
    unfold expand in Hleaf.
    destruct (isLeaf_i this) eqn:Hthis; simpl in Hleaf; congruence.
Qed.

(** C10 (as the code has it): [vValue] contains no assertion; it returns
    the quotient of the total value by the visit count whatever the count
    is, NaN for a node that was never visited.  [qValue(action)] fails an
    assertion when [action] is outside [0, N); for an action inside, on a
    node with a child in that slot, it returns the child's total value
    divided by the child's visit count, also when that count is zero. *)
Theorem vValue_qValue_spec (this : node) (action : Z) :
  vValue this = (totValue_i this / nVisits_i this)%float ∧
  (nVisits_i this = 0%float -> totValue_i this = 0%float -> vValue this = nan) ∧
  (action < 0 ∨ Z.of_nat N_ACTIONS <= action ->
     qValue N_ACTIONS this action = Fault AssertionFailed) ∧
  (∀ child, 0 <= action < Z.of_nat N_ACTIONS ->
     vpChildren_i this !! Z.to_nat action = Some (Ptr child) ->
     qValue N_ACTIONS this action
     = Ok (totValue_i child / nVisits_i child)%float).
Proof.
  split_and!.
  - done.
  - intros Hv Ht. unfold vValue. by rewrite Hv, Ht.
  - intros Hout. unfold qValue.
    destruct (0 <=? action) eqn:H0; [|done]. simpl.
    apply Z.leb_le in H0.
    destruct (action <? Z.of_nat N_ACTIONS) eqn:H1; [|done].
    apply Z.ltb_lt in H1. lia.
  - intros child [H0 H1] Hc. unfold qValue.
    apply Z.leb_le in H0. apply Z.ltb_lt in H1. by rewrite H0, H1, Hc.
Qed.

(** *** The two scans *)



Lemma children_slots (this : node) :
  Forall (λ s, ∃ child, s = Ptr child) (vpChildren_i this) ->
  vpChildren_i this = Ptr <$> children this.
Proof.
  unfold children. induction (vpChildren_i this) as [|s cs IH]; intros Hall; [done|].
  apply Forall_cons in Hall as [[c ->] Hall]. simpl. f_equal. by apply IH.
Qed.

Lemma children_lookup (this child : node) (k : nat) :
  Forall (λ s, ∃ child, s = Ptr child) (vpChildren_i this) ->
  vpChildren_i this !! k = Some (Ptr child) -> children this !! k = Some child.
Proof.
  intros Hall. rewrite (children_slots this Hall), list_lookup_fmap.
  destruct (children this !! k); simpl; congruence.
Qed.

Lemma children_length (this : node) :
  Forall (λ s, ∃ child, s = Ptr child) (vpChildren_i this) ->
  length (children this) = length (vpChildren_i this).
Proof.
  intros Hall. pose proof (f_equal length (children_slots this Hall)) as Hlen.
  by rewrite length_fmap in Hlen.
Qed.

Lemma urand_draws_length (count : nat) (g g' : G) (w w' : W) (noise : list float) :
  urand_draws count g w = (noise, g', w') -> length noise = count.
Proof.
  revert g w noise. induction count as [|count IH]; intros g w noise; simpl.
  - by intros [= <- _ _].
  - destruct (urand_call g w) as [[r g1] w1].
    destruct (urand_draws count g1 w1) as [[rs g2] w2] eqn:Hd.
    intros [= <- <- <-]. simpl. f_equal. by apply (IH g1 w1).
Qed.

Lemma rand_draws_length (count : nat) (w w' : W) (rands : list Z) :
  rand_draws count w = (rands, w') -> length rands = count.
Proof.
  revert w rands. induction count as [|count IH]; intros w rands; simpl.
  - by intros [= <- _].
  - destruct (c_rand w) as [r w1].
    destruct (rand_draws count w1) as [rs w2] eqn:Hd.
    intros [= <- <-]. simpl. f_equal. by apply (IH w1).
Qed.

(** The loop of [selectAction] is the scan of the scores. *)
Lemma selectAction_loop_scan (count k : nat) (this : node) (selected : nat)
    (best : float) (w w' : W) (noise : list float) (g' : G) :
  Forall (λ s, ∃ child, s = Ptr child) (vpChildren_i this) ->
  (k + count = length (vpChildren_i this))%nat ->
  urand_draws count (rand_i this) w = (noise, g', w') ->
  selectAction_loop count k this selected best w
  = Ok (scan (zip_with
                (λ child r,
                   (totValue_i child / (nVisits_i child + EPSILON)
                    + sqrt (c_log (nVisits_i this + 1) / (nVisits_i child + EPSILON))
                    + r * EPSILON)%float)
                (drop k (children this)) noise) k selected best,
        set_rand g' this, w').
Proof.
  revert k this selected best w noise.
  induction count as [|count IH]; intros k this selected best w noise Hall Hlen; simpl.
  - intros [= <- <- <-]. rewrite set_rand_same. by destruct (drop k (children this)).
  - destruct (lookup_lt_is_Some_2 (vpChildren_i this) k) as [s Hs]; [lia|].
    pose proof Hall as Hall'. rewrite Forall_lookup in Hall'.
    destruct (Hall' k s Hs) as [c ->]. rewrite Hs.
    rewrite (drop_S _ c k) by (by apply children_lookup).
    destruct (urand_call (rand_i this) w) as [[r g1] w1].
    destruct (urand_draws count g1 w1) as [[rs g2] w2] eqn:Hd.
    intros [= <- <- <-]. simpl.
    unfold uctValue.
    destruct (double_ge _ best);
      rewrite (IH (S k) (set_rand g1 this) _ _ w1 rs); try done; simpl; lia.
Qed.

(** The loop of [bestAction] is the scan of the expected values. *)
Lemma bestAction_loop_scan (count k : nat) (this : node) (selected : nat)
    (best : float) (w w' : W) (rands : list Z) :
  Forall (λ s, ∃ child, s = Ptr child) (vpChildren_i this) ->
  (k + count = length (vpChildren_i this))%nat ->
  rand_draws count w = (rands, w') ->
  bestAction_loop count k this selected best w
  = Ok (scan (zip_with
                (λ child r,
                   (totValue_i child / (nVisits_i child + EPSILON)
                    + double_of_int r * EPSILON / double_of_int RAND_MAX)%float)
                (drop k (children this)) rands) k selected best, w').
Proof.
  revert k selected best w rands.
  induction count as [|count IH]; intros k selected best w rands Hall Hlen; simpl.
  - intros [= <- <-]. by destruct (drop k (children this)).
  - destruct (lookup_lt_is_Some_2 (vpChildren_i this) k) as [s Hs]; [lia|].
    pose proof Hall as Hall'. rewrite Forall_lookup in Hall'.
    destruct (Hall' k s Hs) as [c ->]. rewrite Hs.
    rewrite (drop_S _ c k) by (by apply children_lookup).
    destruct (c_rand w) as [r w1].
    destruct (rand_draws count w1) as [rs w2] eqn:Hd.
    intros [= <- <-]. simpl.
    destruct (double_ge _ best);
      rewrite (IH (S k) _ _ w1 rs); try done; simpl; lia.
Qed.


End Facts.

(** * Further properties of the code *)

Section Depth.
Context {W G : Type} `{!Libc W} `{!URand W G}.
Variable N_ACTIONS : nat.
Abbreviation node := (UCTreeNode G).

(** *** The depth of a tree *)

(** A pointer that leads to a node is no longer than the tree is high. *)
Lemma height_deref (t n : node) (r : ptr) :
  tree_inv N_ACTIONS t -> deref t r = Some n ->
  (length r + height n <= height t)%nat.
Proof.
  revert t. induction r as [|k r IH]; intros t Ht Hr; simpl in Hr.
  - injection Hr as ->. simpl. lia.
  - destruct (vpChildren_i t !! k) as [[|c|]|] eqn:Hk; try done.
    pose proof (node_inv_parent N_ACTIONS t c k (tree_inv_node N_ACTIONS t Ht) Hk) as Hleaf.
    pose proof (height_child t c k Hleaf Hk) as Hh.
    specialize (IH c (tree_inv_child N_ACTIONS t c k Ht Hk) Hr). simpl. lia.
Qed.

(** Among children there is one of the greatest height. *)
Lemma height_loop_max (cs : list (slot node)) :
  cs ≠ [] -> Forall (λ s, ∃ child, s = Ptr child) cs ->
  ∃ k c, cs !! k = Some (Ptr c) ∧
    (fix loop (cs : list (slot node)) : nat :=
       match cs with
       | [] => O
       | Ptr child :: cs => Nat.max (height child) (loop cs)
       | _ :: cs => loop cs
       end) cs = height c.
Proof.
  induction cs as [|s cs IH]; intros Hne Hall; [done|].
  apply Forall_cons in Hall as [[c ->] Hall].
  destruct cs as [|s' cs'].
  - exists O, c. simpl. split; [done|lia].
  - destruct (IH ltac:(done) Hall) as (k & c' & Hk & Heq).
    set (rest := (fix loop (cs : list (slot node)) : nat :=
       match cs with
       | [] => O
       | Ptr child :: cs => Nat.max (height child) (loop cs)
       | _ :: cs => loop cs
       end) (s' :: cs')) in *.
    change (∃ k0 c0, (Ptr c :: s' :: cs') !! k0 = Some (Ptr c0) ∧
                     Nat.max (height c) rest = height c0).
    destruct (Nat.max_spec (height c) rest) as [[_ ->]|[_ ->]].
    + exists (S k), c'. by split.
    + exists O, c. by split.
Qed.

(** The longest pointers into a tree have the length of its height. *)
Lemma height_reached (t : node) :
  (0 < N_ACTIONS)%nat -> tree_inv N_ACTIONS t ->
  ∃ r leaf, deref t r = Some leaf ∧ length r = height t ∧ isLeaf_i leaf = true.
Proof.
  intros HN.
  induction t as [cs l v tv ga g IH] using UCTreeNode_tree_ind. intros Ht.
  destruct l eqn:Hl.
  - eexists [], _. by split_and!.
  - pose proof (tree_inv_node N_ACTIONS _ Ht) as [Hlen Hall]. simpl in Hlen, Hall.
    destruct (height_loop_max cs) as (k & c & Hk & Heq); [|done|].
    { intros ->. simpl in Hlen. lia. }
    rewrite Forall_lookup in IH. specialize (IH k _ Hk). simpl in IH.
    destruct IH as (r & leaf & Hr & Hlenr & Hleaf).
    { by apply (tree_inv_child N_ACTIONS _ c k Ht). }
    exists (k :: r), leaf. split_and!; [|simpl; rewrite Heq; lia|done].
    simpl. by rewrite Hk.
Qed.

(** A tree is not as high as it has nodes. *)
Lemma height_lt_size (t : node) :
  (0 < N_ACTIONS)%nat -> tree_inv N_ACTIONS t -> (height t < size t)%nat.
Proof.
  intros HN Ht.
  destruct (height_reached t HN Ht) as (r & leaf & Hr & <- & _).
  clear HN. revert t Ht Hr. induction r as [|k r IH]; intros t Ht Hr.
  - simpl. apply size_pos.
  - simpl in Hr. destruct (vpChildren_i t !! k) as [[|c|]|] eqn:Hk; try done.
    pose proof (node_inv_parent N_ACTIONS t c k (tree_inv_node N_ACTIONS t Ht) Hk) as Hleaf.
    specialize (IH c (tree_inv_child N_ACTIONS t c k Ht Hk) Hr).
    rewrite (size_unfold t), Hleaf. simpl.
    apply (take_drop_middle) in Hk. rewrite <- Hk.
    rewrite sum_list_with_app. simpl. lia.
Qed.

(** The loop of [maxDepth] over children whose depth is counted right. *)
Lemma maxDepth_loop (cs : list (slot node)) (pd acc : Z) :
  Forall (slot_Forall (λ c, ∀ pd,
    tree_inv N_ACTIONS c -> INT_MIN <= pd ->
    pd + 1 + Z.of_nat (height c) <= INT_MAX ->
    maxDepth c pd = Ok (if isLeaf_i c then pd + 1
                        else Z.max 0 (pd + 1 + Z.of_nat (height c))))) cs ->
  Forall (λ s, ∃ child, s = Ptr child) cs ->
  (∀ k c, cs !! k = Some (Ptr c) ->
      tree_inv N_ACTIONS c ∧ pd + 2 + Z.of_nat (height c) <= INT_MAX) ->
  INT_MIN <= pd -> 0 <= acc ->
  (fix loop (cs : list (slot node)) (deepest : Z) {struct cs} :=
     match cs with
     | [] => Ok deepest
     | Ptr child :: cs =>
         curDepth ← maxDepth child (int_add pd 1);
         loop cs (if deepest <? curDepth then curDepth else deepest)
     | _ :: _ => Fault UndefinedBehaviour
     end) cs acc
  = Ok (match cs with
        | [] => acc
        | _ => Z.max acc (pd + 2 + Z.of_nat
            ((fix loop (cs : list (slot node)) : nat :=
                match cs with
                | [] => O
                | Ptr child :: cs => Nat.max (height child) (loop cs)
                | _ :: cs => loop cs
                end) cs))
        end).
Proof.
  revert acc. induction cs as [|s cs IHcs]; intros acc IH Hall Hc Hpd Hacc; [done|].
  apply Forall_cons in IH as [IHs IH]. apply Forall_cons in Hall as [[c ->] Hall].
  simpl in IHs. destruct (Hc O c eq_refl) as [Htc Hhc].
  assert (Hpd1 : int_add pd 1 = pd + 1).
  { apply int_wrap_small. unfold INT_MIN, INT_MAX in *. lia. }
  set (rc := if isLeaf_i c then pd + 1 + 1
             else Z.max 0 (pd + 1 + 1 + Z.of_nat (height c))).
  assert (Hc1 : maxDepth c (int_add pd 1) = Ok rc).
  { rewrite Hpd1. apply IHs; try done; unfold INT_MIN in *; lia. }
  assert (Hrc : (if acc <? rc then rc else acc)
                = Z.max acc (pd + 2 + Z.of_nat (height c))).
  { destruct (Z.ltb_spec acc rc); unfold rc in *;
      destruct c as [ccs [] cv ct cg cr]; simpl in *; lia. }
  rewrite Hc1. simpl. rewrite Hrc. rewrite IHcs; try done.
  - destruct cs as [|s' cs']; [f_equal; simpl; lia|].
    f_equal. rewrite Nat2Z.inj_max. lia.
  - intros k c' Hk. apply (Hc (S k)). done.
  - lia.
Qed.

(** On a tree that satisfies the invariant [maxDepth] returns, for a
    leaf, the depth of the parent plus one and, for any other node, the
    depth of the parent plus the number of nodes on the longest way down,
    or 0 when that is negative. *)
Lemma maxDepth_height (t : node) (pd : Z) :
  (0 < N_ACTIONS)%nat -> tree_inv N_ACTIONS t -> INT_MIN <= pd ->
  pd + 1 + Z.of_nat (height t) <= INT_MAX ->
  maxDepth t pd = Ok (if isLeaf_i t then pd + 1
                      else Z.max 0 (pd + 1 + Z.of_nat (height t))).
Proof.
  intros HN. revert pd.
  induction t as [cs l v tv ga g IH] using UCTreeNode_tree_ind.
  intros pd Ht Hpd Hmax.
  pose proof (tree_inv_node N_ACTIONS _ Ht) as [Hlen Hall]. simpl in Hlen, Hall.
  destruct l.
  - simpl. f_equal. apply int_wrap_small. simpl in Hmax. unfold INT_MIN, INT_MAX in *. lia.
  - cbn [maxDepth isLeaf_i vpChildren_i].
    rewrite (maxDepth_loop cs pd 0); try done.
    + destruct cs as [|s cs']; [simpl in Hlen; lia|].
      f_equal. simpl height. lia.
    + intros k c Hk. split; [by apply (tree_inv_child N_ACTIONS _ c k Ht)|].
      pose proof (height_child (mkUCTreeNode cs false v tv ga g) c k eq_refl Hk). lia.
Qed.

(** X1: on a tree that satisfies the invariant [maxDepth()] is the
    number of nodes on a longest way from the root down: a pointer of
    that length, less one, leads to a leaf, and no pointer that leads to
    a node is longer. *)
Theorem maxDepth_longest_path (this : node) :
  (0 < N_ACTIONS)%nat -> tree_inv N_ACTIONS this ->
  Z.of_nat (size this) <= INT_MAX ->
  ∃ d, maxDepth this 0 = Ok d ∧
       (∃ r leaf, deref this r = Some leaf ∧ isLeaf_i leaf = true ∧
                  d = Z.of_nat (length r) + 1) ∧
       (∀ r, is_Some (deref this r) -> Z.of_nat (length r) + 1 <= d).
Proof.
  intros HN Ht Hsz. pose proof (height_lt_size this HN Ht) as Hlt.
  exists (1 + Z.of_nat (height this)). split_and!.
  - rewrite maxDepth_height by (try done; unfold INT_MIN; lia).
    f_equal. destruct this as [cs [] v tv ga g]; simpl; lia.
  - destruct (height_reached this HN Ht) as (r & leaf & Hr & Hlen & Hleaf).
    exists r, leaf. split_and!; [done..|lia].
  - intros r [n Hr]. pose proof (height_deref this n r Ht Hr). lia.
Qed.

(** X2: [maxDepth(parentDepth)] adds [parentDepth] to what
    [maxDepth(0)] returns; on a node with children a negative sum is
    replaced by 0, the value the running maximum starts with, while a
    leaf returns [parentDepth + 1] whatever its sign. *)
Theorem maxDepth_parentDepth (this : node) (parentDepth d : Z) :
  (0 < N_ACTIONS)%nat -> tree_inv N_ACTIONS this ->
  maxDepth this 0 = Ok d -> Z.of_nat (size this) <= INT_MAX ->
  INT_MIN <= parentDepth -> parentDepth + d <= INT_MAX ->
  maxDepth this parentDepth
  = Ok (if isLeaf_i this then parentDepth + 1 else Z.max 0 (parentDepth + d)).
Proof.
  intros HN Ht Hd Hsz Hpd Hmax. pose proof (height_lt_size this HN Ht) as Hlt.
  rewrite maxDepth_height in Hd by (try done; unfold INT_MIN; lia).
  assert (Hd' : d = 1 + Z.of_nat (height this)).
  { injection Hd as <-. destruct this as [cs [] v tv ga g]; simpl; lia. }
  subst d. rewrite maxDepth_height by (try done; lia).
  by replace (parentDepth + (1 + Z.of_nat (height this)))
    with (parentDepth + 1 + Z.of_nat (height this)) by lia.
Qed.

Context {M : Type} `{!Generator W M}.

(** One call of [iterate] makes the tree one level higher or leaves its
    height as it is. *)
Lemma iterate_height (this : node) (mdp : M) (w : W) :
  (0 < N_ACTIONS)%nat -> tree_inv N_ACTIONS this ->
  ∃ this' w',
    iterate N_ACTIONS this mdp w = Ok (this', w') ∧
    tree_inv N_ACTIONS this' ∧ size this' = (size this + N_ACTIONS)%nat ∧
    (height this <= height this' <= S (height this))%nat ∧
    (1 <= height this')%nat.
Proof.
  intros HN Ht.
  destruct (iterate_frame N_ACTIONS this mdp w HN Ht)
    as (this' & w' & p & a & leaf & Heq & Ht' & Hsz' & Hl & Hleaf & Ha &
        Hold & Hnew & Hall).
  exists this', w'. split_and!; [done..| | |].
  - destruct (height_reached this HN Ht) as (r & n & Hr & <- & _).
    destruct (Hold r n Hr) as (n' & Hn' & _).
    pose proof (height_deref this' n' r Ht' Hn'). lia.
  - destruct (height_reached this' HN Ht') as (r & n' & Hr & <- & _).
    destruct (Hall r n' Hr) as [[n Hn]|(k & Hk & ->)].
    + pose proof (height_deref this n r Ht Hn). lia.
    + pose proof (height_deref this leaf p Ht Hl).
      rewrite length_app. simpl. lia.
  - destruct (Hnew a Ha) as (c & Hc & _).
    pose proof (height_deref this' c (p ++ [a]) Ht' Hc) as Hh.
    rewrite length_app in Hh. simpl in Hh. lia.
Qed.

Lemma iterations_height (mdps : list M) (this : node) (w : W) :
  (0 < N_ACTIONS)%nat -> tree_inv N_ACTIONS this ->
  ∃ this' w',
    iterations N_ACTIONS mdps this w = Ok (this', w') ∧
    tree_inv N_ACTIONS this' ∧
    size this' = (size this + N_ACTIONS * length mdps)%nat ∧
    (height this <= height this' <= height this + length mdps)%nat ∧
    (mdps ≠ [] -> (1 <= height this')%nat).
Proof.
  intros HN. revert this w.
  induction mdps as [|mdp mdps IH]; intros this w Ht; simpl.
  - exists this, w. split_and!; auto; try lia; done.
  - destruct (iterate_height this mdp w HN Ht)
      as (this1 & w1 & Heq & Ht1 & Hsz1 & Hh1 & Hpos1).
    rewrite Heq. simpl.
    destruct (IH this1 w1 Ht1) as (this' & w' & Heq' & Ht' & Hsz' & Hh' & _).
    exists this', w'. split_and!; auto; lia.
Qed.

(** X3: one call of [iterate] leaves [maxDepth()] as it is or raises it
    by one; after the call it is at least 2. *)
Theorem maxDepth_iterate (this : node) (mdp : M) (w : W) :
  (0 < N_ACTIONS)%nat -> tree_inv N_ACTIONS this ->
  Z.of_nat (size this) + Z.of_nat N_ACTIONS <= INT_MAX ->
  ∃ this' w' d d',
    iterate N_ACTIONS this mdp w = Ok (this', w') ∧
    maxDepth this 0 = Ok d ∧ maxDepth this' 0 = Ok d' ∧
    d <= d' <= d + 1 ∧ 2 <= d'.
Proof.
  intros HN Ht Hmax.
  destruct (iterate_height this mdp w HN Ht)
    as (this' & w' & Heq & Ht' & Hsz' & Hh & Hpos).
  pose proof (height_lt_size this HN Ht) as Hlt.
  pose proof (height_lt_size this' HN Ht') as Hlt'.
  exists this', w', (1 + Z.of_nat (height this)), (1 + Z.of_nat (height this')).
  split_and!; [done| | |lia..].
  - rewrite maxDepth_height by (try done; unfold INT_MIN; lia).
    f_equal. destruct this as [cs [] v tv ga g]; simpl; lia.
  - rewrite maxDepth_height by (try done; unfold INT_MIN; lia).
    f_equal. destruct this' as [cs [] v tv ga g]; simpl; lia.
Qed.

(** X4: after [k] calls of [iterate] on a new root [maxDepth()] is 1
    when [k] is 0 and lies between 2 and [k + 1] otherwise. *)
Theorem maxDepth_after_iterations (inGamma : float) (inRand : G)
    (mdps : list M) (w : W) :
  (0 < N_ACTIONS)%nat ->
  1 + Z.of_nat N_ACTIONS * Z.of_nat (length mdps) <= INT_MAX ->
  ∃ this' w' d,
    iterations N_ACTIONS mdps (new_UCTreeNode N_ACTIONS inGamma inRand) w
    = Ok (this', w') ∧
    maxDepth this' 0 = Ok d ∧
    (mdps = [] -> d = 1) ∧
    (mdps ≠ [] -> 2 <= d <= Z.of_nat (length mdps) + 1).
Proof.
  intros HN Hmax.
  destruct (iterations_height mdps (new_UCTreeNode N_ACTIONS inGamma inRand) w HN
              (tree_inv_new N_ACTIONS inGamma inRand))
    as (this' & w' & Heq & Ht' & Hsz' & Hh & Hpos).
  pose proof (height_lt_size this' HN Ht') as Hlt'.
  rewrite size_new in Hsz'. simpl height in Hh.
  exists this', w', (1 + Z.of_nat (height this')). split_and!; [done| | |].
  - rewrite maxDepth_height by (try done; unfold INT_MIN; lia).
    f_equal. destruct this' as [cs [] v tv ga g]; simpl; lia.
  - intros ->. simpl in Hh. lia.
  - intros Hne. specialize (Hpos Hne). lia.
Qed.

End Depth.

(** *** Depth and size *)

Section Sizes.
Context {W G : Type} `{!Libc W} `{!URand W G}.
Variable N_ACTIONS : nat.
Abbreviation node := (UCTreeNode G).

Lemma slot_size_children (cs : list (slot node)) :
  Forall (λ s, ∃ child, s = Ptr child) cs ->
  (length cs <= sum_list_with slot_size cs)%nat.
Proof.
  induction 1 as [|s cs [c ->] _ IH]; simpl; [done|].
  pose proof (size_pos c). lia.
Qed.

(** Every node on the way to a node has [N_ACTIONS] children. *)
Lemma size_deref (t n : node) (r : ptr) :
  tree_inv N_ACTIONS t -> deref t r = Some n ->
  (1 + N_ACTIONS * length r <= size t)%nat.
Proof.
  revert t. induction r as [|k r IH]; intros t Ht Hr.
  - simpl. pose proof (size_pos t). lia.
  - simpl in Hr. destruct (vpChildren_i t !! k) as [[|c|]|] eqn:Hk; try done.
    pose proof (tree_inv_node N_ACTIONS t Ht) as Hnode.
    pose proof (node_inv_parent N_ACTIONS t c k Hnode Hk) as Hleaf.
    destruct Hnode as [Hlen Hall]. rewrite Hleaf in Hall.
    specialize (IH c (tree_inv_child N_ACTIONS t c k Ht Hk) Hr).
    rewrite (size_unfold t), Hleaf.
    pose proof (take_drop_middle _ _ _ Hk) as Hmid.
    rewrite <- Hmid in Hall, Hlen |- *.
    apply Forall_app in Hall as [Hall1 Hall2].
    apply Forall_cons in Hall2 as [_ Hall2].
    rewrite sum_list_with_app. rewrite length_app in Hlen. simpl in *.
    pose proof (slot_size_children _ Hall1).
    pose proof (slot_size_children _ Hall2). nia.
Qed.

(** X5: [numOfNodes()] against [maxDepth()]: every level of a longest
    way down brings [N_ACTIONS] nodes, so that
    [1 + N_ACTIONS * (maxDepth() - 1) <= numOfNodes()], and
    [maxDepth() <= numOfNodes()]. *)
Theorem numOfNodes_maxDepth (this : node) :
  (0 < N_ACTIONS)%nat -> tree_inv N_ACTIONS this ->
  Z.of_nat (size this) <= INT_MAX ->
  ∃ n d, numOfNodes this = Ok n ∧ maxDepth this 0 = Ok d ∧
         1 <= d <= n ∧ 1 + Z.of_nat N_ACTIONS * (d - 1) <= n.
Proof.
  intros HN Ht Hmax.
  destruct (height_reached N_ACTIONS this HN Ht) as (r & leaf & Hr & Hlen & _).
  pose proof (size_deref this leaf r Ht Hr) as Hsz. rewrite Hlen in Hsz.
  exists (Z.of_nat (size this)), (1 + Z.of_nat (height this)). split_and!.
  - rewrite (numOfNodes_size N_ACTIONS) by done. f_equal.
    apply int_wrap_small. unfold INT_MIN. lia.
  - rewrite (maxDepth_height N_ACTIONS) by (try done; unfold INT_MIN; nia).
    f_equal. destruct this as [cs [] v tv ga g]; simpl; lia.
  - lia.
  - nia.
  - nia.
Qed.
End Sizes.

Section Copy.
Context {W G : Type} `{!Libc W} `{!URand W G}.
Variable N_ACTIONS : nat.
Abbreviation node := (UCTreeNode G).

(** *** The copy constructor *)

Lemma copy_loop (cs : list (slot node)) :
  Forall (slot_Forall (λ c, tree_inv N_ACTIONS c ->
    ∃ c', copy N_ACTIONS c = Ok c' ∧ same_nodes c c' ∧
          numOfNodes c' = numOfNodes c ∧
          ∀ pd, maxDepth c' pd = maxDepth c pd)) cs ->
  Forall (λ s, ∃ child, s = Ptr child) cs ->
  (∀ k c, cs !! k = Some (Ptr c) -> tree_inv N_ACTIONS c) ->
  ∃ cs',
    (fix loop (cs : list (slot node)) {struct cs} :=
       match cs with
       | [] => Ok []
       | Ptr child :: cs =>
           c ← copy N_ACTIONS child;
           cs ← loop cs;
           Ok (Ptr c :: cs)
       | Null :: _ => Fault AssertionFailed
       | Indeterminate :: _ => Fault UndefinedBehaviour
       end) cs = Ok cs' ∧
    Forall2 (copied N_ACTIONS) cs cs'.
Proof.
  induction cs as [|s cs IHcs]; intros IH Hall Hc.
  - exists []. by split.
  - apply Forall_cons in IH as [IHs IH]. apply Forall_cons in Hall as [[c ->] Hall].
    simpl in IHs. destruct IHs as (c' & Hc' & Hsame & Hnum & Hdepth).
    { by apply (Hc O). }
    destruct (IHcs IH Hall) as (cs' & Hcs' & Hrel).
    { intros k c0 Hk. by apply (Hc (S k)). }
    exists (Ptr c' :: cs'). split.
    + rewrite Hc'. simpl. rewrite Hcs'. done.
    + apply Forall2_cons. split; [|done]. by exists c, c'.
Qed.

Lemma numOfNodes_copied (cs cs' : list (slot node)) (acc : Z) :
  Forall2 (copied N_ACTIONS) cs cs' ->
  (fix loop (cs : list (slot node)) (result : Z) {struct cs} :=
     match cs with
     | [] => Ok result
     | Ptr child :: cs => n ← numOfNodes child; loop cs (int_add result n)
     | _ :: _ => Fault UndefinedBehaviour
     end) cs' acc
  = (fix loop (cs : list (slot node)) (result : Z) {struct cs} :=
     match cs with
     | [] => Ok result
     | Ptr child :: cs => n ← numOfNodes child; loop cs (int_add result n)
     | _ :: _ => Fault UndefinedBehaviour
     end) cs acc.
Proof.
  intros Hrel. revert acc.
  induction Hrel as [|s s' cs cs' (c & c' & -> & -> & _ & _ & Hnum & _) _ IH];
    intros acc; [done|].
  rewrite Hnum. destruct (numOfNodes c) as [n|f]; simpl; [apply IH|done].
Qed.

Lemma maxDepth_copied (cs cs' : list (slot node)) (pd acc : Z) :
  Forall2 (copied N_ACTIONS) cs cs' ->
  (fix loop (cs : list (slot node)) (deepest : Z) {struct cs} :=
     match cs with
     | [] => Ok deepest
     | Ptr child :: cs =>
         curDepth ← maxDepth child (int_add pd 1);
         loop cs (if deepest <? curDepth then curDepth else deepest)
     | _ :: _ => Fault UndefinedBehaviour
     end) cs' acc
  = (fix loop (cs : list (slot node)) (deepest : Z) {struct cs} :=
     match cs with
     | [] => Ok deepest
     | Ptr child :: cs =>
         curDepth ← maxDepth child (int_add pd 1);
         loop cs (if deepest <? curDepth then curDepth else deepest)
     | _ :: _ => Fault UndefinedBehaviour
     end) cs acc.
Proof.
  intros Hrel. revert acc.
  induction Hrel as [|s s' cs cs' (c & c' & -> & -> & _ & _ & _ & Hdepth) _ IH];
    intros acc; [done|].
  rewrite Hdepth. destruct (maxDepth c (int_add pd 1)) as [n|f]; simpl; [apply IH|done].
Qed.

(** X6: the copy constructor succeeds on every tree that satisfies the
    invariant; the copy has nodes behind the same pointers as the
    original, each with the leaf flag, the visit count, the total value,
    the discount factor and the random source of the original, and
    [numOfNodes] and [maxDepth] return on the copy what they return on
    the original. *)
Theorem copy_is_deep (tree : node) :
  tree_inv N_ACTIONS tree ->
  ∃ tree', copy N_ACTIONS tree = Ok tree' ∧
    same_nodes tree tree' ∧
    numOfNodes tree' = numOfNodes tree ∧
    ∀ parentDepth, maxDepth tree' parentDepth = maxDepth tree parentDepth.
Proof.
  induction tree as [cs l v tv ga g IH] using UCTreeNode_tree_ind. intros Ht.
  pose proof (tree_inv_node N_ACTIONS _ Ht) as [Hlen Hall]. simpl in Hlen, Hall.
  destruct l.
  - eexists. split; [reflexivity|]. split_and!; [|done|done].
    intros [|k r]; [done|]. simpl.
    rewrite Forall_lookup in Hall.
    destruct (cs !! k) as [s|] eqn:Hk.
    + rewrite (Hall k s Hk).
      destruct (alloc_slots N_ACTIONS !! k) as [s'|] eqn:Hk'; [|done].
      by apply lookup_replicate in Hk' as [-> _].
    + assert (Hnone : alloc_slots N_ACTIONS !! k = (None : option (slot node))).
      { apply lookup_replicate_None. apply lookup_ge_None in Hk. lia. }
      by rewrite Hnone.
  - destruct (copy_loop cs IH Hall) as (cs' & Hcs' & Hrel).
    { intros k c Hk. by apply (tree_inv_child N_ACTIONS _ c k Ht). }
    exists (mkUCTreeNode cs' false v tv ga g). split_and!.
    + cbn [copy isLeaf_i vpChildren_i nVisits_i totValue_i gamma_i rand_i].
      rewrite Hcs'. done.
    + intros [|k r]; [done|]. simpl.
      destruct (cs !! k) as [s|] eqn:Hk.
      * destruct (Forall2_lookup_l _ _ _ _ _ Hrel Hk)
          as (s' & Hk' & c & c' & -> & -> & _ & Hsame & _).
        rewrite Hk'. apply Hsame.
      * assert (Hnone : cs' !! k = None).
        { apply lookup_ge_None. rewrite <- (Forall2_length _ _ _ Hrel).
          by apply lookup_ge_None. }
        by rewrite Hnone.
    + cbn [numOfNodes isLeaf_i vpChildren_i]. by apply numOfNodes_copied.
    + intros pd. cbn [maxDepth isLeaf_i vpChildren_i]. by apply maxDepth_copied.
Qed.

End Copy.

Section Destructor.
Context {W G : Type} `{!Libc W} `{!URand W G}.
Variable N_ACTIONS : nat.
Abbreviation node := (UCTreeNode G).

(** *** The destructor *)

(** What the loop of the copy constructor returns, slot by slot. *)
Lemma copy_loop_inv (cs cs' : list (slot node)) :
  (fix loop (cs : list (slot node)) {struct cs} :=
     match cs with
     | [] => Ok []
     | Ptr child :: cs =>
         c ← copy N_ACTIONS child;
         cs ← loop cs;
         Ok (Ptr c :: cs)
     | Null :: _ => Fault AssertionFailed
     | Indeterminate :: _ => Fault UndefinedBehaviour
     end) cs = Ok cs' ->
  Forall2 (λ s s', ∃ c c', s = Ptr c ∧ s' = Ptr c' ∧ copy N_ACTIONS c = Ok c') cs cs'.
Proof.
  revert cs'. induction cs as [|[|c|] cs IH]; intros cs' Heq; try done.
  - injection Heq as <-. constructor.
  - destruct (copy N_ACTIONS c) as [c'|] eqn:Hc; [|done].
    cbn [mbind result_bind] in Heq.
    match type of Heq with
    | (?x ≫= _) = _ => destruct x as [cs1|] eqn:Hcs; [|done]
    end.
    simpl in Heq. injection Heq as <-. constructor; [by eauto|by apply IH].
Qed.

Lemma destructor_loop (cs cs' : list (slot node)) :
  Forall (slot_Forall (λ c, tree_inv N_ACTIONS c -> ∀ c',
    copy N_ACTIONS c = Ok c' ->
    (∃ d, destructor c = Ok (d, (size c - 1)%nat)) ∧
    (∃ d', destructor c' = Ok (d', (size c - 1)%nat)))) cs ->
  (∀ k c, cs !! k = Some (Ptr c) -> tree_inv N_ACTIONS c) ->
  Forall2 (λ s s', ∃ c c', s = Ptr c ∧ s' = Ptr c' ∧ copy N_ACTIONS c = Ok c') cs cs' ->
  (fix loop (cs : list (slot node)) {struct cs}
     : result (list (slot node) * nat) :=
     match cs with
     | [] => Ok ([], O)
     | Null :: cs => '(cs, n) ← loop cs; Ok (Null :: cs, n)
     | Ptr child :: cs =>
         '(_, m) ← destructor child;
         '(cs, n) ← loop cs;
         Ok (Null :: cs, (S m + n)%nat)
     | Indeterminate :: _ => Fault UndefinedBehaviour
     end) cs = Ok (replicate (length cs) Null, sum_list_with slot_size cs) ∧
  (fix loop (cs : list (slot node)) {struct cs}
     : result (list (slot node) * nat) :=
     match cs with
     | [] => Ok ([], O)
     | Null :: cs => '(cs, n) ← loop cs; Ok (Null :: cs, n)
     | Ptr child :: cs =>
         '(_, m) ← destructor child;
         '(cs, n) ← loop cs;
         Ok (Null :: cs, (S m + n)%nat)
     | Indeterminate :: _ => Fault UndefinedBehaviour
     end) cs' = Ok (replicate (length cs) Null, sum_list_with slot_size cs).
Proof.
  intros IH Hc Hrel. revert IH Hc.
  induction Hrel as [|s s' cs cs' (c & c' & -> & -> & Hcopy) _ IHrel];
    intros IH Hc; [done|].
  apply Forall_cons in IH as [IHs IH]. simpl in IHs.
  destruct (IHs (Hc O c eq_refl) c' Hcopy) as [[d Hd] [d' Hd']].
  destruct (IHrel IH) as [Hl Hl'].
  { intros k c0 Hk. by apply (Hc (S k)). }
  pose proof (size_pos c) as Hpos.
  split.
  - rewrite Hd. cbn [mbind result_bind]. rewrite Hl. simpl.
    do 2 f_equal. lia.
  - rewrite Hd'. cbn [mbind result_bind]. rewrite Hl'. simpl.
    do 2 f_equal. lia.
Qed.

(** X14: the destructor of a tree that satisfies the invariant deletes
    as many nodes as the tree has below its root and leaves null in
    every slot of a root that has children.  It does the same on a copy
    of the tree, whose leaves have slots that were never written: the
    destructor does not read the slots of a leaf. *)
Theorem destructor_frees_all (tree tree' : node) :
  tree_inv N_ACTIONS tree -> copy N_ACTIONS tree = Ok tree' ->
  ∃ d d',
    destructor tree = Ok (d, (size tree - 1)%nat) ∧
    destructor tree' = Ok (d', (size tree - 1)%nat) ∧
    (isLeaf_i tree = false ->
     vpChildren_i d = replicate N_ACTIONS Null ∧
     vpChildren_i d' = replicate N_ACTIONS Null).
Proof.
  intros Ht Hcopy.
  assert (Hboth : ∀ t : node, tree_inv N_ACTIONS t -> ∀ t',
    copy N_ACTIONS t = Ok t' ->
    (∃ d, destructor t = Ok (d, (size t - 1)%nat) ∧
          (isLeaf_i t = false -> vpChildren_i d = replicate N_ACTIONS Null)) ∧
    (∃ d', destructor t' = Ok (d', (size t - 1)%nat) ∧
          (isLeaf_i t = false -> vpChildren_i d' = replicate N_ACTIONS Null))).
  { clear. intros t.
    induction t as [cs l v tv ga g IH] using UCTreeNode_tree_ind. intros Ht t' Hcopy.
    pose proof (tree_inv_node N_ACTIONS _ Ht) as [Hlen Hall]. simpl in Hlen, Hall.
    destruct l.
    - simpl in Hcopy. injection Hcopy as <-. split; eexists; (split; [reflexivity|done]).
    - assert (Hkids : ∀ k c, cs !! k = Some (Ptr c) -> tree_inv N_ACTIONS c).
      { intros k c Hk. by apply (tree_inv_child N_ACTIONS _ c k Ht). }
      cbn [copy isLeaf_i vpChildren_i nVisits_i totValue_i gamma_i rand_i] in Hcopy.
      match type of Hcopy with
      | (?loop cs ≫= _) = _ => destruct (loop cs) as [cs'|] eqn:Hcs'; [|done]
      end.
      simpl in Hcopy. injection Hcopy as <-.
      apply copy_loop_inv in Hcs'.
      destruct (destructor_loop cs cs') as [Hl Hl']; [|done|done|].
      { eapply Forall_impl; [exact IH|]. intros [|c|]; simpl; try done.
        intros HP Htc c' Hc'. destruct (HP Htc c' Hc') as [(d & Hd & _) (d' & Hd' & _)].
        eauto. }
      rewrite size_unfold. cbn [isLeaf_i vpChildren_i].
      replace (S (sum_list_with slot_size cs) - 1)%nat
        with (sum_list_with slot_size cs) by lia.
      split; eexists.
      + cbn [destructor isLeaf_i vpChildren_i]. rewrite Hl. simpl.
        split; [reflexivity|]. intros _. by rewrite Hlen.
      + cbn [destructor isLeaf_i vpChildren_i]. rewrite Hl'. simpl.
        split; [reflexivity|]. intros _. by rewrite Hlen. }
  destruct (Hboth tree Ht tree' Hcopy) as [(d & Hd & Hs) (d' & Hd' & Hs')].
  exists d, d'. split_and!; auto.
Qed.

End Destructor.

Section CopySearch.
Context {W G : Type} `{!Libc W} `{!URand W G}.
Variable N_ACTIONS : nat.
Abbreviation node := (UCTreeNode G).

(** *** Trees whose leaves hold anything in their slots *)

Lemma nulled_unfold (t : node) :
  nulled N_ACTIONS t
  = mkUCTreeNode
      (if isLeaf_i t then replicate N_ACTIONS Null
       else nulled_slot N_ACTIONS <$> vpChildren_i t)
      (isLeaf_i t) (nVisits_i t) (totValue_i t) (gamma_i t) (rand_i t).
Proof.
  destruct t as [cs l v tv ga g]. cbn [nulled isLeaf_i vpChildren_i nVisits_i
    totValue_i gamma_i rand_i]. f_equal. destruct l; [done|].
  induction cs as [|[|c|] cs IH]; simpl; by f_equal.
Qed.

Lemma tree_inv_weak_node (t : node) :
  tree_inv_weak N_ACTIONS t -> node_inv_weak N_ACTIONS t.
Proof. intros Ht. apply Ht. by exists []. Qed.

Lemma tree_inv_weak_deref (t n : node) (p : ptr) :
  tree_inv_weak N_ACTIONS t -> deref t p = Some n -> tree_inv_weak N_ACTIONS n.
Proof.
  intros Ht Hp n' [q Hq]. apply Ht. exists (p ++ q).
  by rewrite deref_app, Hp.
Qed.

Lemma tree_inv_weak_child (t c : node) (k : nat) :
  tree_inv_weak N_ACTIONS t -> vpChildren_i t !! k = Some (Ptr c) ->
  tree_inv_weak N_ACTIONS c.
Proof.
  intros Ht Hk. apply (tree_inv_weak_deref t c [k] Ht). simpl. by rewrite Hk.
Qed.

Lemma tree_inv_weak_intro (t : node) :
  node_inv_weak N_ACTIONS t ->
  (∀ k c, vpChildren_i t !! k = Some (Ptr c) -> tree_inv_weak N_ACTIONS c) ->
  tree_inv_weak N_ACTIONS t.
Proof.
  intros Hn Hc n [[|k p] Hp]; simpl in Hp.
  - by injection Hp as <-.
  - destruct (vpChildren_i t !! k) as [[|c|]|] eqn:Hk; try done.
    apply (Hc k c Hk). by exists p.
Qed.

(** A node with a child is not a leaf. *)
Lemma node_inv_weak_parent (t c : node) (k : nat) :
  node_inv_weak N_ACTIONS t -> vpChildren_i t !! k = Some (Ptr c) ->
  isLeaf_i t = false.
Proof.
  intros [_ Hn] Hk. destruct (isLeaf_i t); [|done].
  rewrite Forall_lookup in Hn. by destruct (Hn k _ Hk c).
Qed.

Lemma tree_inv_weak_store (t cur n : node) (p : ptr) :
  tree_inv_weak N_ACTIONS t -> deref t p = Some cur -> tree_inv_weak N_ACTIONS n ->
  tree_inv_weak N_ACTIONS (store p n t).
Proof.
  revert t. induction p as [|k p IH]; intros t Ht Hp Hn; simpl; [done|].
  simpl in Hp. destruct (vpChildren_i t !! k) as [[|c|]|] eqn:Hk; try done.
  pose proof (tree_inv_weak_node t Ht) as Hnode.
  pose proof (node_inv_weak_parent t c k Hnode Hk) as Hleaf.
  apply tree_inv_weak_intro.
  - destruct Hnode as [Hlen Hall]. unfold node_inv_weak. simpl.
    rewrite Hleaf in *. rewrite length_insert. split; [done|].
    apply Forall_insert; eauto.
  - simpl. intros j c' Hj. destruct (decide (j = k)) as [->|Hjk].
    + rewrite list_lookup_insert_eq in Hj by (by eapply lookup_lt_Some).
      injection Hj as <-. apply IH; eauto using tree_inv_weak_child.
    + rewrite list_lookup_insert_ne in Hj by done. eauto using tree_inv_weak_child.
Qed.

Lemma tree_inv_weak_same_children (t n : node) :
  vpChildren_i n = vpChildren_i t -> isLeaf_i n = isLeaf_i t ->
  tree_inv_weak N_ACTIONS t -> tree_inv_weak N_ACTIONS n.
Proof.
  intros Hcs Hleaf Ht. apply tree_inv_weak_intro.
  - pose proof (tree_inv_weak_node t Ht) as Hn. unfold node_inv_weak in *.
    by rewrite Hcs, Hleaf.
  - rewrite Hcs. intros k c Hk. by apply (tree_inv_weak_child t c k).
Qed.

Lemma tree_inv_weaken (t : node) :
  tree_inv N_ACTIONS t -> tree_inv_weak N_ACTIONS t.
Proof.
  intros Ht n Hn. destruct (Ht n Hn) as [Hlen Hall]. split; [done|].
  destruct (isLeaf_i n); [|done].
  eapply Forall_impl; [exact Hall|]. by intros s -> c.
Qed.

Lemma tree_inv_weak_expand (t : node) :
  tree_inv_weak N_ACTIONS t -> tree_inv_weak N_ACTIONS (expand N_ACTIONS t).
Proof.
  intros Ht. pose proof (tree_inv_weak_node t Ht) as [Hlen Hall].
  unfold expand. destruct (isLeaf_i t) eqn:Hleaf; [|done]. simpl.
  rewrite (write_slots_replicate N_ACTIONS) by done.
  apply tree_inv_weak_intro.
  - split; simpl; [apply length_replicate|]. apply Forall_replicate. eauto.
  - simpl. intros k c Hk. apply lookup_replicate in Hk as [[= ->] _].
    apply tree_inv_weaken, tree_inv_new.
Qed.

(** *** Setting the slots of the leaves to null *)

Lemma deref_nulled (t : node) (p : ptr) :
  tree_inv_weak N_ACTIONS t ->
  deref (nulled N_ACTIONS t) p = nulled N_ACTIONS <$> deref t p.
Proof.
  revert t. induction p as [|k p IH]; intros t Ht; [done|].
  pose proof (tree_inv_weak_node t Ht) as [Hlen Hall].
  cbn [deref]. rewrite (nulled_unfold t). cbn [vpChildren_i].
  destruct (isLeaf_i t).
  - destruct (replicate N_ACTIONS Null !! k) as [s|] eqn:Hs.
    + apply lookup_replicate in Hs as [-> _].
      destruct (vpChildren_i t !! k) as [[|c|]|] eqn:Hk; try done.
      rewrite Forall_lookup in Hall. by destruct (Hall k _ Hk c).
    + destruct (vpChildren_i t !! k) as [[|c|]|] eqn:Hk; try done.
      rewrite Forall_lookup in Hall. by destruct (Hall k _ Hk c).
  - rewrite list_lookup_fmap.
    destruct (vpChildren_i t !! k) as [[|c|]|] eqn:Hk; try done. simpl.
    apply IH. by apply (tree_inv_weak_child t c k).
Qed.

Lemma store_nulled (t cur n : node) (p : ptr) :
  tree_inv_weak N_ACTIONS t -> deref t p = Some cur ->
  nulled N_ACTIONS (store p n t)
  = store p (nulled N_ACTIONS n) (nulled N_ACTIONS t).
Proof.
  revert t. induction p as [|k p IH]; intros t Ht Hp; [done|].
  simpl in Hp. cbn [store].
  destruct (vpChildren_i t !! k) as [[|c|]|] eqn:Hk; try done.
  pose proof (node_inv_weak_parent t c k (tree_inv_weak_node t Ht) Hk) as Hleaf.
  rewrite (nulled_unfold (set_children _ t)), (nulled_unfold t).
  cbn [set_children vpChildren_i isLeaf_i nVisits_i totValue_i gamma_i rand_i].
  rewrite Hleaf. rewrite list_lookup_fmap, Hk. simpl.
  unfold set_children. simpl. f_equal.
  rewrite list_fmap_insert. simpl.
  by rewrite (IH c (tree_inv_weak_child t c k Ht Hk) Hp).
Qed.

Lemma nulled_set_rand (t : node) (g : G) :
  nulled N_ACTIONS (set_rand g t) = set_rand g (nulled N_ACTIONS t).
Proof. by rewrite !nulled_unfold. Qed.

Lemma nulled_lookup (t : node) (k : nat) :
  isLeaf_i t = false ->
  vpChildren_i (nulled N_ACTIONS t) !! k = nulled_slot N_ACTIONS <$> vpChildren_i t !! k.
Proof. intros Hleaf. rewrite nulled_unfold. simpl. by rewrite Hleaf, list_lookup_fmap. Qed.

(** [selectAction] reads the statistics of the children only. *)
Lemma selectAction_loop_nulled (count k : nat) (this : node) (selected : nat)
    (best : float) (w : W) :
  isLeaf_i this = false ->
  selectAction_loop count k (nulled N_ACTIONS this) selected best w
  = match selectAction_loop count k this selected best w with
    | Ok (a, this', w') => Ok (a, nulled N_ACTIONS this', w')
    | Fault f => Fault f
    end.
Proof.
  revert k this selected best w.
  induction count as [|count IH]; intros k this selected best w Hleaf; [done|].
  cbn [selectAction_loop]. rewrite nulled_lookup by done.
  destruct (vpChildren_i this !! k) as [[|c|]|]; try done. simpl.
  assert (Hr : rand_i (nulled N_ACTIONS this) = rand_i this)
    by (by rewrite nulled_unfold).
  rewrite Hr.
  destruct (urand_call (rand_i this) w) as [[r g] w1].
  assert (Hu : uctValue (nulled N_ACTIONS this) (nulled N_ACTIONS c) = uctValue this c).
  { unfold uctValue. by rewrite !nulled_unfold. }
  rewrite Hu, <- nulled_set_rand.
  destruct (double_ge _ best); by apply IH.
Qed.

Lemma selectAction_nulled (this : node) (w : W) :
  selectAction N_ACTIONS (nulled N_ACTIONS this) w
  = match selectAction N_ACTIONS this w with
    | Ok (a, this', w') => Ok (a, nulled N_ACTIONS this', w')
    | Fault f => Fault f
    end.
Proof.
  unfold selectAction.
  assert (Hl : isLeaf_i (nulled N_ACTIONS this) = isLeaf_i this)
    by (by rewrite nulled_unfold).
  rewrite Hl. destruct (isLeaf_i this) eqn:Hleaf; [done|].
  by apply selectAction_loop_nulled.
Qed.

Lemma nulled_new (inGamma : float) (inRand : G) :
  nulled N_ACTIONS (new_UCTreeNode N_ACTIONS inGamma inRand)
  = new_UCTreeNode N_ACTIONS inGamma inRand.
Proof.
  rewrite nulled_unfold. unfold new_UCTreeNode. simpl.
  by rewrite (new_slots N_ACTIONS).
Qed.

Lemma expand_nulled (t : node) :
  node_inv_weak N_ACTIONS t ->
  expand N_ACTIONS (nulled N_ACTIONS t) = nulled N_ACTIONS (expand N_ACTIONS t).
Proof.
  intros [Hlen _]. unfold expand.
  assert (Hl : isLeaf_i (nulled N_ACTIONS t) = isLeaf_i t)
    by (by rewrite nulled_unfold).
  rewrite Hl. destruct (isLeaf_i t) eqn:Hleaf; [|done]. cbn [negb].
  assert (Hlen' : length (vpChildren_i (nulled N_ACTIONS t)) = N_ACTIONS).
  { rewrite nulled_unfold. simpl. rewrite Hleaf. apply length_replicate. }
  rewrite !(write_slots_replicate N_ACTIONS) by done.
  rewrite (nulled_unfold (mkUCTreeNode _ _ _ _ _ _)).
  cbn [isLeaf_i vpChildren_i nVisits_i totValue_i gamma_i rand_i].
  rewrite fmap_replicate. cbn [nulled_slot]. rewrite nulled_new.
  by rewrite (nulled_unfold t).
Qed.

Lemma rollOut_loop_nulled {M : Type} `{!Generator W M} (count : nat) (this : node)
    (mdp : M) (discount totReward : float) (w : W) :
  rollOut_loop N_ACTIONS count (nulled N_ACTIONS this) mdp discount totReward w
  = let '(value, this', w') :=
      rollOut_loop N_ACTIONS count this mdp discount totReward w in
    (value, nulled N_ACTIONS this', w').
Proof.
  revert this mdp discount totReward w.
  induction count as [|count IH]; intros this mdp discount totReward w; [done|].
  cbn [rollOut_loop].
  assert (Hr : rand_i (nulled N_ACTIONS this) = rand_i this)
    by (by rewrite nulled_unfold).
  rewrite Hr. destruct (urand_call (rand_i this) w) as [[r g] w1].
  destruct (generator_call mdp _ w1) as [[reward mdp1] w2].
  rewrite <- nulled_set_rand.
  assert (Hg : gamma_i (nulled N_ACTIONS (set_rand g this)) = gamma_i (set_rand g this))
    by (by rewrite nulled_unfold).
  rewrite Hg. apply IH.
Qed.

Lemma height_nulled (t : node) : height (nulled N_ACTIONS t) = height t.
Proof.
  induction t as [cs l v tv ga g IH] using UCTreeNode_tree_ind.
  rewrite nulled_unfold. cbn [isLeaf_i vpChildren_i]. destruct l; [done|].
  cbn [height isLeaf_i vpChildren_i]. f_equal.
  induction cs as [|s cs IHcs]; [done|].
  apply Forall_cons in IH as [IHs IH]. specialize (IHcs IH).
  destruct s as [|c|]; cbn [fmap list_fmap nulled_slot slot_Forall] in *; [done| |done].
  by rewrite IHs, IHcs.
Qed.

(** [selectAction] leaves the children of the node alone. *)
Lemma selectAction_loop_children (count k : nat) (this this' : node)
    (selected a : nat) (best : float) (w w' : W) :
  selectAction_loop count k this selected best w = Ok (a, this', w') ->
  vpChildren_i this' = vpChildren_i this ∧ isLeaf_i this' = isLeaf_i this.
Proof.
  revert k this selected best w.
  induction count as [|count IH]; intros k this selected best w Heq; simpl in Heq.
  - by injection Heq as <- <- <-.
  - destruct (vpChildren_i this !! k) as [[|c|]|]; try done.
    destruct (urand_call (rand_i this) w) as [[r g] w1].
    destruct (double_ge _ best); by apply IH in Heq.
Qed.

Lemma call_at_selectAction_nulled (p : ptr) (this : node) (w : W) :
  tree_inv_weak N_ACTIONS this ->
  match call_at p (selectAction N_ACTIONS) this w with
  | Ok (a, this', w') =>
      call_at p (selectAction N_ACTIONS) (nulled N_ACTIONS this) w
      = Ok (a, nulled N_ACTIONS this', w') ∧
      tree_inv_weak N_ACTIONS this'
  | Fault f =>
      call_at p (selectAction N_ACTIONS) (nulled N_ACTIONS this) w = Fault f
  end.
Proof.
  intros Ht. unfold call_at. rewrite deref_nulled by done.
  destruct (deref this p) as [cur|] eqn:Hcur; [|done]. simpl.
  rewrite selectAction_nulled.
  destruct (selectAction N_ACTIONS cur w) as [[[a cur'] w']|f] eqn:Hsel; [|done].
  simpl. split.
  - by rewrite (store_nulled this cur).
  - unfold selectAction in Hsel. destruct (isLeaf_i cur); [done|].
    apply selectAction_loop_children in Hsel as [Hcs Hleaf].
    apply (tree_inv_weak_store this cur); [done..|].
    apply (tree_inv_weak_same_children cur); eauto using tree_inv_weak_deref.
Qed.

Lemma update_at_nulled (p : ptr) (method : node -> node) (this : node) :
  tree_inv_weak N_ACTIONS this ->
  (∀ n, node_inv_weak N_ACTIONS n ->
        method (nulled N_ACTIONS n) = nulled N_ACTIONS (method n)) ->
  (∀ n, tree_inv_weak N_ACTIONS n -> tree_inv_weak N_ACTIONS (method n)) ->
  match update_at p method this with
  | Ok this' =>
      update_at p method (nulled N_ACTIONS this) = Ok (nulled N_ACTIONS this') ∧
      tree_inv_weak N_ACTIONS this'
  | Fault f => update_at p method (nulled N_ACTIONS this) = Fault f
  end.
Proof.
  intros Ht Hm Hw. unfold update_at. rewrite deref_nulled by done.
  destruct (deref this p) as [cur|] eqn:Hcur; [|done]. simpl.
  pose proof (tree_inv_weak_deref this cur p Ht Hcur) as Htc.
  split.
  - rewrite Hm by (by apply tree_inv_weak_node).
    by rewrite (store_nulled this cur).
  - apply (tree_inv_weak_store this cur); auto.
Qed.

Lemma updateStats_nulled (v : float) (n : node) :
  updateStats v (nulled N_ACTIONS n) = nulled N_ACTIONS (updateStats v n).
Proof. by rewrite !nulled_unfold. Qed.

Context {M : Type} `{!Generator W M}.

Lemma traverse_nulled (bound : nat) (this : node) (pCur : ptr)
    (visited : list ptr) (rewards : list float) (mdp : M) (w : W) :
  tree_inv_weak N_ACTIONS this ->
  match traverse N_ACTIONS bound this pCur visited rewards mdp w with
  | Ok (this', p, vs, rs, mdp', w') =>
      traverse N_ACTIONS bound (nulled N_ACTIONS this) pCur visited rewards mdp w
      = Ok (nulled N_ACTIONS this', p, vs, rs, mdp', w') ∧
      tree_inv_weak N_ACTIONS this'
  | Fault f =>
      traverse N_ACTIONS bound (nulled N_ACTIONS this) pCur visited rewards mdp w
      = Fault f
  end.
Proof.
  revert this pCur visited rewards mdp w.
  induction bound as [|bound IH]; intros this pCur visited rewards mdp w Ht;
    cbn [traverse]; rewrite deref_nulled by done;
    destruct (deref this pCur) as [cur|]; try done; simpl;
    assert (Hl : isLeaf (nulled N_ACTIONS cur) = isLeaf cur)
      by (unfold isLeaf; by rewrite nulled_unfold);
    rewrite Hl; destruct (isLeaf cur); try done.
  pose proof (call_at_selectAction_nulled pCur this w Ht) as Hcall.
  destruct (call_at pCur (selectAction N_ACTIONS) this w)
    as [[[a this1] w1]|f]; [|by rewrite Hcall].
  destruct Hcall as [-> Ht1]. cbn [mbind result_bind].
  destruct (generator_call mdp (Z.of_nat a) w1) as [[curReward mdp1] w2].
  by apply IH.
Qed.

Lemma backup_nulled (visited : list ptr) (rewards : list float) (value : float)
    (this : node) :
  tree_inv_weak N_ACTIONS this ->
  match backup visited rewards value this with
  | Ok this' =>
      backup visited rewards value (nulled N_ACTIONS this)
      = Ok (nulled N_ACTIONS this') ∧
      tree_inv_weak N_ACTIONS this'
  | Fault f => backup visited rewards value (nulled N_ACTIONS this) = Fault f
  end.
Proof.
  revert rewards value this.
  induction visited as [|p visited IH]; intros rewards value this Ht; [done|].
  cbn [backup]. destruct (negb _); [done|].
  destruct rewards as [|top rewards]; [done|].
  assert (Hg : gamma_i (nulled N_ACTIONS this) = gamma_i this)
    by (by rewrite nulled_unfold).
  rewrite Hg.
  pose proof (update_at_nulled p (updateStats (top + gamma_i this * value)) this Ht)
    as Hupd.
  destruct (update_at p (updateStats (top + gamma_i this * value)) this)
    as [this1|f].
  - destruct Hupd as [-> Ht1].
    + intros n _. apply updateStats_nulled.
    + intros n Hn. by apply (tree_inv_weak_same_children n).
    + cbn [mbind result_bind]. by apply IH.
  - rewrite Hupd; [done| |].
    + intros n _. apply updateStats_nulled.
    + intros n Hn. by apply (tree_inv_weak_same_children n).
Qed.

(** [iterate] does not read the slots of a leaf: on the tree with these
    slots set to null it does what it does on the tree itself. *)
Lemma iterate_nulled (this : node) (mdp : M) (w : W) :
  tree_inv_weak N_ACTIONS this ->
  match iterate N_ACTIONS this mdp w with
  | Ok (this', w') =>
      iterate N_ACTIONS (nulled N_ACTIONS this) mdp w
      = Ok (nulled N_ACTIONS this', w') ∧
      tree_inv_weak N_ACTIONS this'
  | Fault f => iterate N_ACTIONS (nulled N_ACTIONS this) mdp w = Fault f
  end.
Proof.
  intros Ht. unfold iterate, iterate_descend. cbv zeta. rewrite height_nulled.
  match goal with
  | |- context [traverse N_ACTIONS ?b this ?p ?vs ?rs mdp w] =>
      pose proof (traverse_nulled b this p vs rs mdp w Ht) as Htrav;
      destruct (traverse N_ACTIONS b this p vs rs mdp w)
        as [[[[[[this1 p1] vs1] rs1] mdp1] w1]|f]
  end; [destruct Htrav as [-> Ht1]|by rewrite Htrav].
  cbn [mbind result_bind].
  pose proof (update_at_nulled p1 (expand N_ACTIONS) this1 Ht1 expand_nulled
                tree_inv_weak_expand) as Hexp.
  destruct (update_at p1 (expand N_ACTIONS) this1) as [this2|f];
    [destruct Hexp as [-> Ht2]|by rewrite Hexp].
  cbn [mbind result_bind].
  pose proof (call_at_selectAction_nulled p1 this2 w1 Ht2) as Hcall.
  destruct (call_at p1 (selectAction N_ACTIONS) this2 w1)
    as [[[a this3] w3]|f]; [destruct Hcall as [-> Ht3]|by rewrite Hcall].
  cbn [mbind result_bind].
  destruct (generator_call mdp1 (Z.of_nat a) w3) as [[curReward mdp3] w4].
  unfold rollOut. rewrite rollOut_loop_nulled.
  destruct (rollOut_loop_rand N_ACTIONS MAX_ROLLOUT_ITERATIONS this3 mdp3 1 0 w4)
    as (value & g & w5 & ->).
  cbn [mbind result_bind].
  pose proof (backup_nulled ((p1 ++ [a]) :: vs1) (curReward :: rs1) value
                (set_rand g this3)) as Hback.
  destruct (backup ((p1 ++ [a]) :: vs1) (curReward :: rs1) value (set_rand g this3))
    as [this4|f].
  - destruct Hback as [-> Ht4]; [by apply (tree_inv_weak_same_children this3)|].
    done.
  - rewrite Hback; [done|]. by apply (tree_inv_weak_same_children this3).
Qed.

(** A copy is the tree itself but for the slots of its leaves, which
    the copy constructor allocates and does not write. *)
Lemma nulled_copy (t t' : node) :
  tree_inv N_ACTIONS t -> copy N_ACTIONS t = Ok t' ->
  nulled N_ACTIONS t' = t ∧ tree_inv_weak N_ACTIONS t'.
Proof.
  revert t'. induction t as [cs l v tv ga g IH] using UCTreeNode_tree_ind.
  intros t' Ht Hcopy.
  pose proof (tree_inv_node N_ACTIONS _ Ht) as [Hlen Hall]. simpl in Hlen, Hall.
  destruct l.
  - simpl in Hcopy. injection Hcopy as <-. split.
    + rewrite nulled_unfold. cbn [isLeaf_i nVisits_i totValue_i gamma_i rand_i].
      f_equal. apply replicate_as_Forall. split; [done|].
      eapply Forall_impl; [exact Hall|]. by intros s ->.
    + apply tree_inv_weak_intro.
      * split; simpl; [apply length_replicate|]. unfold alloc_slots.
        apply Forall_forall. intros s Hs%elem_of_replicate. by destruct Hs as [-> _].
      * intros k c Hk. simpl in Hk. unfold alloc_slots in Hk.
        apply lookup_replicate in Hk as [? _]. done.
  - assert (Hkids : ∀ k c, cs !! k = Some (Ptr c) -> tree_inv N_ACTIONS c).
    { intros k c Hk. by apply (tree_inv_child N_ACTIONS _ c k Ht). }
    cbn [copy isLeaf_i vpChildren_i nVisits_i totValue_i gamma_i rand_i] in Hcopy.
    match type of Hcopy with
    | (?loop cs ≫= _) = _ => destruct (loop cs) as [cs'|] eqn:Hcs'; [|done]
    end.
    simpl in Hcopy. injection Hcopy as <-.
    apply copy_loop_inv in Hcs'.
    assert (Hboth : nulled_slot N_ACTIONS <$> cs' = cs ∧
                    ∀ k c', cs' !! k = Some (Ptr c') -> tree_inv_weak N_ACTIONS c').
    { clear Hlen Hall Ht. induction Hcs' as [|s s' cs cs' (c & c' & -> & -> & Hc) _ IHcs].
      - split; [done|]. intros k c' Hk. done.
      - apply Forall_cons in IH as [IHc IH]. simpl in IHc.
        destruct (IHc c' (Hkids O c eq_refl) Hc) as [Hn Hw].
        destruct (IHcs IH) as [Heq Hws].
        { intros k c0 Hk. apply (Hkids (S k) c0 Hk). }
        split.
        + cbn [fmap list_fmap nulled_slot]. by rewrite Hn, <- Heq.
        + intros [|k] c0 Hk; simpl in Hk; [by injection Hk as <-|by eauto]. }
    destruct Hboth as [Heq Hws]. split.
    + rewrite nulled_unfold. cbn [isLeaf_i vpChildren_i nVisits_i totValue_i gamma_i rand_i].
      by rewrite Heq.
    + apply tree_inv_weak_intro; [|done]. split; simpl.
      * by rewrite <- (Forall2_length _ _ _ Hcs').
      * apply Forall_forall. intros s' Hs'.
        apply list_elem_of_lookup_1 in Hs' as [k Hk].
        destruct (Forall2_lookup_r _ _ _ _ _ Hcs' Hk) as (s & _ & c & c' & _ & -> & _).
        by eexists.
Qed.

(** Two trees that differ in the slots of their leaves only have the
    same nodes. *)
Lemma nulled_same_nodes (t t' : node) :
  tree_inv_weak N_ACTIONS t' -> nulled N_ACTIONS t' = t -> same_nodes t t'.
Proof.
  intros Hw <- r. rewrite deref_nulled by done.
  destruct (deref t' r) as [n'|]; [|done]. simpl.
  by rewrite nulled_unfold.
Qed.

Lemma iterations_nulled (mdps : list M) (this : node) (w : W) :
  tree_inv_weak N_ACTIONS this ->
  match iterations N_ACTIONS mdps this w with
  | Ok (this', w') =>
      iterations N_ACTIONS mdps (nulled N_ACTIONS this) w
      = Ok (nulled N_ACTIONS this', w') ∧
      tree_inv_weak N_ACTIONS this'
  | Fault f => iterations N_ACTIONS mdps (nulled N_ACTIONS this) w = Fault f
  end.
Proof.
  revert this w. induction mdps as [|mdp mdps IH]; intros this w Ht;
    cbn [iterations]; [done|].
  pose proof (iterate_nulled this mdp w Ht) as Hit.
  destruct (iterate N_ACTIONS this mdp w) as [[this1 w1]|f]; [|by rewrite Hit].
  destruct Hit as [-> Ht1]. cbn [mbind result_bind]. by apply IH.
Qed.

(** X15: a search that goes on from a copy goes as it does from the
    original.  The same calls of [iterate] on a tree that satisfies the
    invariant and on its copy succeed, leave the C library in the same
    state and give trees that differ in the slots of their leaves only:
    behind every pointer they have nodes with the same members and the
    same random source, or no node. *)
Theorem iterations_on_copy (tree tree' : node) (mdps : list M) (w : W) :
  (0 < N_ACTIONS)%nat -> tree_inv N_ACTIONS tree ->
  copy N_ACTIONS tree = Ok tree' ->
  ∃ this1 this1' w1,
    iterations N_ACTIONS mdps tree w = Ok (this1, w1) ∧
    iterations N_ACTIONS mdps tree' w = Ok (this1', w1) ∧
    nulled N_ACTIONS this1' = this1 ∧
    same_nodes this1 this1'.
Proof.
  intros HN Ht Hcopy.
  destruct (nulled_copy tree tree' Ht Hcopy) as [Hn Hw].
  destruct (iterations_spec N_ACTIONS mdps tree w HN Ht) as (this1 & w1 & Heq & _).
  pose proof (iterations_nulled mdps tree' w Hw) as Hit. rewrite Hn, Heq in Hit.
  destruct (iterations N_ACTIONS mdps tree' w) as [[this1' w1']|f]; [|done].
  destruct Hit as [[= -> ->] Hw1].
  exists (nulled N_ACTIONS this1'), this1', w1'. split_and!; [done..|].
  by apply nulled_same_nodes.
Qed.

End CopySearch.

Section Default.
Context {W : Type} `{!Libc W}.
Variable N_ACTIONS : nat.

(** *** The default random source *)

Lemma SimpleURand_call (g : SimpleURand) (w : W) :
  urand_call g w
  = ((double_of_int (Z.rem (c_rand w).1 RAND_MAX) / double_of_int RAND_MAX)%float,
     g, (c_rand w).2).
Proof. simpl. by destruct (c_rand w). Qed.

Lemma rem_div_unit (r : Z) :
  0 < RAND_MAX <= INT_MAX -> 0 <= r ->
  PrimFloat.leb 0 (double_of_int (Z.rem r RAND_MAX) / double_of_int RAND_MAX) = true ∧
  PrimFloat.ltb (double_of_int (Z.rem r RAND_MAX) / double_of_int RAND_MAX) 1 = true.
Proof.
  intros HM Hr. apply div_below_one.
  - destruct HM as [HM0 _]. pose proof (Z.rem_bound_pos r RAND_MAX Hr HM0). lia.
  - apply (Z.le_lt_trans _ INT_MAX); [lia|done].
Qed.

(** X7: [SimpleURand::operator()] calls [rand()] once and returns a
    double in [0, 1), whatever result from 0 on [rand()] gives
    ([RAND_MAX] being a positive [int]); for the result [RAND_MAX] it
    returns 0, as it does for 0. *)
Theorem SimpleURand_range (g : SimpleURand) (w : W) :
  0 < RAND_MAX <= INT_MAX -> 0 <= (c_rand w).1 ->
  ∃ x, urand_call g w = (x, g, (c_rand w).2) ∧
       PrimFloat.leb 0 x = true ∧ PrimFloat.ltb x 1 = true ∧
       ((c_rand w).1 = 0 ∨ (c_rand w).1 = RAND_MAX -> x = 0%float).
Proof.
  intros HM Hr. eexists. split; [apply SimpleURand_call|].
  destruct (rem_div_unit _ HM Hr) as [H0 H1]. split_and!; [done..|].
  intros Hz.
  assert (Hrem : Z.rem (c_rand w).1 RAND_MAX = 0).
  { destruct Hz as [-> | ->]; [apply Z.rem_0_l|apply Z.rem_same]; lia. }
  rewrite Hrem.
  apply Prim2SF_inj. rewrite div_spec.
  destruct (Prim2SF_double_of_int RAND_MAX) as (m & e & -> & _).
  { split; [lia|]. apply (Z.le_lt_trans _ INT_MAX); [lia|done]. }
  done.
Qed.

(** X8: with the default random source [bestAction()] on a leaf returns
    an action in [0, N), calls [rand()] once and leaves the node as it
    is. *)
Theorem bestAction_leaf_default (this : UCTreeNode SimpleURand) (w : W) :
  isLeaf_i this = true ->
  0 < Z.of_nat N_ACTIONS <= INT_MAX ->
  0 < RAND_MAX <= INT_MAX -> 0 <= (c_rand w).1 ->
  ∃ action, bestAction N_ACTIONS this w = Ok (action, this, (c_rand w).2) ∧
            0 <= action < Z.of_nat N_ACTIONS.
Proof.
  intros Hleaf HN HM Hr. unfold bestAction. rewrite Hleaf, SimpleURand_call.
  eexists. split.
  - do 2 f_equal. destruct this as [? ? ? ? ? []]. done.
  - destruct (rem_div_unit _ HM Hr) as [H0 H1]. by apply double_to_int_unit.
Qed.
End Default.

Section Actions.
Context {W G : Type} `{!Libc W} `{!URand W G}.
Variable N_ACTIONS : nat.
Context {M : Type}.
Abbreviation node := (UCTreeNode G).

(** *** The actions a reward source is asked about *)

Lemma selectAction_loop_range (good : G -> Prop) (count k : nat) (this this' : node)
    (selected a : nat) (best : float) (w w' : W) :
  (∀ g w, good g -> good (urand_call g w).1.2) ->
  selectAction_loop count k this selected best w = Ok (a, this', w') ->
  (a = selected ∨ (k <= a < k + count)%nat) ∧
  (good (rand_i this) -> good (rand_i this')).
Proof.
  intros Hgood. revert k this selected best w.
  induction count as [|count IH]; intros k this selected best w Heq; simpl in Heq.
  - injection Heq as <- <- <-. auto.
  - destruct (vpChildren_i this !! k) as [[|c|]|]; try done.
    pose proof (Hgood (rand_i this) w) as Hg.
    destruct (urand_call (rand_i this) w) as [[r g] w1]. simpl in Hg.
    destruct (double_ge _ best); apply IH in Heq as [Ha Hr]; simpl in Hr;
      (split; [lia|auto]).
Qed.

Lemma call_at_selectAction_range (good : G -> Prop) (p : ptr) (this this' : node)
    (a : nat) (w w' : W) :
  (0 < N_ACTIONS)%nat ->
  (∀ g w, good g -> good (urand_call g w).1.2) ->
  call_at p (selectAction N_ACTIONS) this w = Ok (a, this', w') ->
  (a < N_ACTIONS)%nat ∧ (good (rand_i this) -> good (rand_i this')).
Proof.
  intros HN Hgood. unfold call_at.
  destruct (deref this p) as [cur|] eqn:Hcur; [|done].
  unfold selectAction. destruct (isLeaf_i cur); [done|].
  destruct (selectAction_loop N_ACTIONS 0 cur 0 _ w) as [[[a' cur'] w1]|] eqn:Hsel;
    [|done].
  simpl. intros [= <- <- <-].
  apply (selectAction_loop_range good) in Hsel as [Ha Hr]; [|done].
  split; [lia|]. destruct p as [|k p].
  - simpl in Hcur. injection Hcur as <-. done.
  - by destruct (store_fields k p cur' this) as (_ & _ & _ & _ & ->).
Qed.

Lemma update_at_rand (p : ptr) (method : node -> node) (this this' : node) :
  (∀ n, rand_i (method n) = rand_i n) ->
  update_at p method this = Ok this' -> rand_i this' = rand_i this.
Proof.
  intros Hm. unfold update_at.
  destruct (deref this p) as [cur|] eqn:Hcur; [|done]. intros [= <-].
  destruct p as [|k p].
  - simpl in Hcur. injection Hcur as <-. apply Hm.
  - by destruct (store_fields k p (method cur) this) as (_ & _ & _ & _ & ->).
Qed.

Section TwoSources.
Variables gen1 gen2 : Generator W M.
Variable good : G -> Prop.
Hypothesis HN : 0 < Z.of_nat N_ACTIONS <= INT_MAX.
Hypothesis Hunit : ∀ g w, good g ->
  PrimFloat.leb 0 (urand_call g w).1.1 = true ∧
  PrimFloat.ltb (urand_call g w).1.1 1 = true ∧
  good (urand_call g w).1.2.
Hypothesis Hagree : ∀ mdp action w, 0 <= action < Z.of_nat N_ACTIONS ->
  @generator_call W M gen1 mdp action w = @generator_call W M gen2 mdp action w.

Lemma traverse_agree (bound : nat) (this : node) (pCur : ptr)
    (visited : list ptr) (rewards : list float) (mdp : M) (w : W) :
  good (rand_i this) ->
  @traverse W G _ _ N_ACTIONS M gen1 bound this pCur visited rewards mdp w
  = @traverse W G _ _ N_ACTIONS M gen2 bound this pCur visited rewards mdp w ∧
  ∀ this' p' vs rs mdp' w',
    @traverse W G _ _ N_ACTIONS M gen1 bound this pCur visited rewards mdp w
    = Ok (this', p', vs, rs, mdp', w') -> good (rand_i this').
Proof.
  revert this pCur visited rewards mdp w.
  induction bound as [|bound IH]; intros this pCur visited rewards mdp w Hg;
    simpl; destruct (deref this pCur) as [cur|]; try done;
    destruct (isLeaf cur); try done.
  - split; [done|]. by intros ? ? ? ? ? ? [= <- <- <- <- <- <-].
  - split; [done|]. by intros ? ? ? ? ? ? [= <- <- <- <- <- <-].
  - destruct (call_at pCur (selectAction N_ACTIONS) this w)
      as [[[a this1] w1]|] eqn:Hsel; [|done].
    destruct (call_at_selectAction_range good _ _ _ _ _ _ ltac:(lia)
                ltac:(intros; by apply Hunit) Hsel) as [Ha Hg1].
    simpl. rewrite <- Hagree by lia.
    destruct (generator_call mdp (Z.of_nat a) w1) as [[curReward mdp1] w2].
    apply IH. auto.
Qed.

Lemma rollOut_loop_agree (count : nat) (this : node) (mdp : M)
    (discount totReward : float) (w : W) :
  good (rand_i this) ->
  @rollOut_loop W G _ N_ACTIONS M gen1 count this mdp discount totReward w
  = @rollOut_loop W G _ N_ACTIONS M gen2 count this mdp discount totReward w.
Proof.
  revert this mdp discount totReward w.
  induction count as [|count IH]; intros this mdp discount totReward w Hg; simpl;
    [done|].
  destruct (Hunit (rand_i this) w Hg) as (H0 & H1 & Hg').
  destruct (urand_call (rand_i this) w) as [[r g] w1]. simpl in H0, H1, Hg'.
  rewrite <- Hagree by (by apply double_to_int_unit).
  destruct (generator_call mdp _ w1) as [[reward mdp1] w2].
  by apply IH.
Qed.

(** X9: [iterate] asks the reward source about actions in [0, N) only:
    two reward sources that agree on these actions give the same tree
    and the same state of the C library, as long as the random source of
    the root returns numbers in [0, 1) (the property [good] of its
    states). *)
Theorem iterate_asks_actions_in_range (this : node) (mdp : M) (w : W) :
  good (rand_i this) ->
  @iterate W G _ _ N_ACTIONS M gen1 this mdp w
  = @iterate W G _ _ N_ACTIONS M gen2 this mdp w.
Proof.
  intros Hg. unfold iterate, iterate_descend. cbv zeta.
  match goal with
  | |- context [@traverse _ _ _ _ _ _ gen2 ?b ?t ?p ?vs ?rs ?m ?w0] =>
      destruct (traverse_agree b t p vs rs m w0 Hg) as [Heq Hg1];
      rewrite <- Heq; clear Heq;
      destruct (@traverse _ _ _ _ N_ACTIONS _ gen1 b t p vs rs m w0)
        as [[[[[[this1 p1] vs1] rs1] mdp1] w1]|];
      cbn [mbind result_bind]; [|done]
  end.
  specialize (Hg1 _ _ _ _ _ _ eq_refl).
  destruct (update_at p1 (expand N_ACTIONS) this1) as [this2|] eqn:Hexp;
    cbn [mbind result_bind]; [|done].
  apply update_at_rand in Hexp; [|intros n; unfold expand; by destruct (isLeaf_i n)].
  destruct (call_at p1 (selectAction N_ACTIONS) this2 w1)
    as [[[a this3] w3]|] eqn:Hsel; cbn [mbind result_bind]; [|done].
  destruct (call_at_selectAction_range good _ _ _ _ _ _ ltac:(lia)
              ltac:(intros; by apply Hunit) Hsel) as [Ha Hg3].
  rewrite <- Hagree by lia.
  destruct (generator_call mdp1 (Z.of_nat a) w3) as [[curReward mdp3] w4].
  unfold rollOut. rewrite <- rollOut_loop_agree; [done|].
  apply Hg3. by rewrite Hexp.
Qed.
End TwoSources.
End Actions.

(** *** Scores that are not numbers *)

Lemma scan_any_inv (pre values : list float) (k selected : nat) (best : float) :
  k = length pre ->
  ((∀ v, v ∈ pre -> ordered v = false) ∧ selected = O ∧ best = (- DBL_MAX)%float) ∨
  (pre !! selected = Some best ∧ ordered best = true ∧
   (∀ j v, pre !! j = Some v -> ordered v = true -> double_ge best v = true) ∧
   (∀ j v, (selected < j)%nat -> pre !! j = Some v -> double_ge v best = false)) ->
  selected_by_scan (pre ++ values) (scan values k selected best).
Proof.
  revert pre k selected best.
  induction values as [|x values IH]; intros pre k selected best Hk Hinv.
  - simpl. rewrite app_nil_r. destruct Hinv as [(Hno & -> & _)|(Hsel & Hord & Hge & Hlt)].
    + by left.
    + right. by exists best.
  - simpl. rewrite (cons_middle x pre values), app_assoc.
    assert (Hk' : S k = length (pre ++ [x])) by (rewrite length_app; simpl; lia).
    destruct (double_ge x best) eqn:Hxb.
    + apply IH; [done|]. right.
      assert (Hx : ordered x = true).
      { destruct Hinv as [(_ & _ & ->)|(_ & Hord & _)]; [done|].
        by apply (double_ge_trans _ best). }
      split_and!; [|done| |].
      * subst k. by apply list_lookup_middle.
      * intros j v Hj Hv. apply lookup_app_Some in Hj as [Hj|[_ Hj]].
        -- destruct Hinv as [(Hno & _)|(_ & _ & Hge & _)].
           ++ rewrite Hno in Hv; [done|]. by eapply list_elem_of_lookup_2.
           ++ apply (double_ge_trans _ best); eauto.
        -- apply list_lookup_singleton_Some in Hj as [_ <-].
           by apply (double_ge_refl_l x best).
      * intros j v Hlt' Hj. apply lookup_lt_Some in Hj. lia.
    + apply IH; [done|].
      destruct Hinv as [(Hno & -> & ->)|(Hsel & Hord & Hge & Hlt)].
      * left. split_and!; [|done..]. intros v Hv.
        apply elem_of_app in Hv as [Hv|Hv]; [by apply Hno|].
        apply list_elem_of_singleton in Hv as ->. done.
      * right. split_and!; [by apply lookup_app_l_Some|done| |].
        -- intros j v Hj Hv. apply lookup_app_Some in Hj as [Hj|[_ Hj]]; [by eauto|].
           apply list_lookup_singleton_Some in Hj as [_ <-].
           apply double_ge_total; [|by apply (double_ge_refl_l _ (- DBL_MAX))|done].
           by apply (double_ge_refl_l _ (- DBL_MAX)).
        -- intros j v Hlt' Hj. apply lookup_app_Some in Hj as [Hj|[_ Hj]]; [by eauto|].
           apply list_lookup_singleton_Some in Hj as [_ <-]. done.
Qed.

(** The doubles that are below the initial [bestValue], or not
    comparable with it: NaN and minus infinity. *)
Lemma ordered_false (v : float) :
  ordered v = false ↔ v = nan ∨ v = neg_infinity.
Proof.
  unfold ordered, double_ge. split.
  - intros Hv. rewrite leb_spec in Hv.
    pose proof (Prim2SF_valid v) as Hvalid.
    change (Prim2SF (- DBL_MAX)) with (S754_finite true 9007199254740991 971) in Hv.
    destruct (Prim2SF v) as [s|[]| |[] m e] eqn:Hp; try done.
    + right. by apply Prim2SF_inj.
    + left. by apply Prim2SF_inj.
    + exfalso. simpl in Hvalid. unfold bounded, canonical_mantissa in Hvalid.
      apply andb_prop in Hvalid as [Hcanon Hmax].
      apply Z.eqb_eq in Hcanon. apply Z.leb_le in Hmax.
      pose proof (digits2_pos_bounds m) as Hd.
      set (d := Z.pos (digits2_pos m)) in *. clearbody d.
      unfold fexp, SpecFloat.emin, prec, emax in *.
      unfold SFleb, SFcompare in Hv.
      destruct (Z.compare_spec 971 e) as [He|He|He]; simpl in Hv; [|lia|done].
      subst e. assert (Hd53 : d = 53) by (clear -Hcanon; lia). subst d.
      change (Pos.compare_cont Eq 9007199254740991 m)
        with (Pos.compare 9007199254740991 m) in Hv.
      destruct (Pos.compare_spec 9007199254740991 m) as [Hm|Hm|Hm];
        simpl in Hv; try done.
      apply Pos2Z.pos_lt_pos in Hm. destruct Hd as [_ Hd].
      change (2 ^ 53) with 9007199254740992 in Hd. clear -Hm Hd. lia.
  - by intros [->| ->].
Qed.

Section Scores.
Context {W G : Type} `{!Libc W} `{!URand W G}.
Variable N_ACTIONS : nat.
Abbreviation node := (UCTreeNode G).

(** X10: on a node with children that satisfies the invariant
    [selectAction] and [bestAction] return an action below N whatever
    the scores are.  A score that is NaN or minus infinity never wins
    the comparison with [bestValue]: the result is the last greatest of
    the other scores, and action 0 when there is no other score. *)
Theorem selection_skips_unordered (this : node) (w : W) :
  (0 < N_ACTIONS)%nat -> isLeaf_i this = false -> node_inv N_ACTIONS this ->
  (∀ v, ordered v = false ↔ v = nan ∨ v = neg_infinity) ∧
  (∀ noise g' w', urand_draws N_ACTIONS (rand_i this) w = (noise, g', w') ->
     ∃ a, selectAction N_ACTIONS this w = Ok (a, set_rand g' this, w') ∧
          (a < N_ACTIONS)%nat ∧ selected_by_scan (uct_scores this noise) a) ∧
  (∀ rands w', rand_draws N_ACTIONS w = (rands, w') ->
     ∃ a, bestAction N_ACTIONS this w = Ok (Z.of_nat a, this, w') ∧
          (a < N_ACTIONS)%nat ∧ selected_by_scan (exp_scores this rands) a).
Proof.
  intros HN Hleaf [Hlen Hall]. rewrite Hleaf in Hall.
  assert (Hsel : ∀ values, length values = N_ACTIONS ->
            selected_by_scan values (scan values 0 0 (- DBL_MAX)) ∧
            (scan values 0 0 (- DBL_MAX) < N_ACTIONS)%nat).
  { intros values Hlv.
    assert (Hs : selected_by_scan values (scan values 0 0 (- DBL_MAX))).
    { apply (scan_any_inv [] values 0 0 (- DBL_MAX) eq_refl). left.
      split_and!; [|done..]. intros v Hv. by apply elem_of_nil in Hv. }
    split; [done|]. destruct Hs as [[_ ->]|(va & Hva & _)]; [lia|].
    apply lookup_lt_Some in Hva. lia. }
  split_and!.
  - apply ordered_false.
  - intros noise g' w' Hd. unfold selectAction. rewrite Hleaf.
    rewrite (selectAction_loop_scan N_ACTIONS 0 this 0 (- DBL_MAX) w w' noise g');
      [|done|lia|done].
    rewrite drop_0. fold (uct_scores this noise).
    destruct (Hsel (uct_scores this noise)) as [Hs Hlt].
    { unfold uct_scores. rewrite length_zip_with, children_length, Hlen by done.
      rewrite (urand_draws_length _ _ _ _ _ _ Hd). lia. }
    eexists. by split_and!.
  - intros rands w' Hd. unfold bestAction. rewrite Hleaf.
    rewrite (bestAction_loop_scan N_ACTIONS 0 this 0 (- DBL_MAX) w w' rands);
      [|done|lia|done].
    rewrite drop_0. simpl. fold (exp_scores this rands).
    destruct (Hsel (exp_scores this rands)) as [Hs Hlt].
    { unfold exp_scores. rewrite length_zip_with, children_length, Hlen by done.
      rewrite (rand_draws_length _ _ _ _ Hd). lia. }
    eexists. by split_and!.
Qed.

End Scores.

Section Visits.
Context {W G : Type} `{!Libc W} `{!URand W G}.
Variable N_ACTIONS : nat.
Abbreviation node := (UCTreeNode G).
Context {M : Type} `{!Generator W M}.

(** *** Counting visits *)

(** One call of [iterate] counts one visit of the root. *)
Lemma iterate_root_visit (this : node) (mdp : M) (w : W) :
  (0 < N_ACTIONS)%nat -> tree_inv N_ACTIONS this ->
  ∃ this' w',
    iterate N_ACTIONS this mdp w = Ok (this', w') ∧
    tree_inv N_ACTIONS this' ∧
    nVisits_i this' = (nVisits_i this + 1)%float.
Proof.
  intros HN Ht.
  destruct (iterate_frame N_ACTIONS this mdp w HN Ht)
    as (this' & w' & p & a & leaf & Heq & Ht' & _ & _ & _ & _ & Hold & _).
  exists this', w'. split_and!; [done..|].
  destruct (Hold [] this eq_refl) as (n' & Hn' & _ & [[_ [v Hv]]|[Hnp _]]).
  - simpl in Hn'. injection Hn' as <-. unfold stats in Hv. simpl in Hv. congruence.
  - destruct Hnp. apply prefix_nil.
Qed.

Lemma iterations_root_visits (mdps : list M) (this : node) (w : W) (j : Z) :
  (0 < N_ACTIONS)%nat -> tree_inv N_ACTIONS this ->
  0 <= j -> j + Z.of_nat (length mdps) < 2 ^ 53 ->
  nVisits_i this = double_of_int j ->
  ∃ this' w',
    iterations N_ACTIONS mdps this w = Ok (this', w') ∧
    nVisits_i this' = double_of_int (j + Z.of_nat (length mdps)).
Proof.
  intros HN. revert this w j.
  induction mdps as [|mdp mdps IH]; intros this w j Ht Hj Hmax Hv.
  - exists this, w. split; [done|]. rewrite Hv. f_equal. simpl. lia.
  - cbn [iterations length] in *.
    destruct (iterate_root_visit this mdp w HN Ht) as (this1 & w1 & Heq & Ht1 & Hv1).
    rewrite Heq. cbn [mbind result_bind].
    destruct (IH this1 w1 (j + 1) Ht1) as (this' & w' & Heq' & Hv'); [lia|lia| |].
    { rewrite Hv1, Hv. apply double_succ; lia. }
    exists this', w'. split; [done|]. rewrite Hv'. f_equal. lia.
Qed.

(** X11: after [k] calls of [iterate] on a new root the visit count of
    the root is exactly [k], for every [k] below [2^53], where counting
    in a double stops being exact. *)
Theorem root_visits_count (inGamma : float) (inRand : G) (mdps : list M) (w : W) :
  (0 < N_ACTIONS)%nat -> Z.of_nat (length mdps) < 2 ^ 53 ->
  ∃ this' w',
    iterations N_ACTIONS mdps (new_UCTreeNode N_ACTIONS inGamma inRand) w
    = Ok (this', w') ∧
    nVisits_i this' = double_of_int (Z.of_nat (length mdps)).
Proof.
  intros HN Hmax.
  destruct (iterations_root_visits mdps (new_UCTreeNode N_ACTIONS inGamma inRand) w 0
              HN (tree_inv_new N_ACTIONS inGamma inRand))
    as (this' & w' & Heq & Hv); [lia|lia|done|].
  by exists this', w'.
Qed.

Lemma sum_list_insert (l : list nat) (i c : nat) :
  l !! i = Some c -> sum_list (<[i := S c]> l) = S (sum_list l).
Proof.
  revert i. induction l as [|x l IH]; intros [|i] Hi; simpl in *; try done.
  - injection Hi as ->. lia.
  - rewrite (IH i Hi). lia.
Qed.

Lemma sum_list_replicate_0 (n : nat) : sum_list (replicate n O) = O.
Proof. induction n; simpl; lia. Qed.

(** The first call of [iterate] on a new root: one child has been
    visited once. *)
Lemma iterate_first_visits (inGamma : float) (inRand : G) (mdp : M) (w : W) :
  (0 < N_ACTIONS)%nat ->
  ∃ this' w' counts,
    iterate N_ACTIONS (new_UCTreeNode N_ACTIONS inGamma inRand) mdp w = Ok (this', w') ∧
    tree_inv N_ACTIONS this' ∧ visits_counted N_ACTIONS this' counts ∧
    sum_list counts = 1%nat.
Proof.
  intros HN. set (root := new_UCTreeNode N_ACTIONS inGamma inRand).
  pose proof (tree_inv_new N_ACTIONS inGamma inRand) as Ht. fold root in Ht.
  destruct (iterate_frame N_ACTIONS root mdp w HN Ht)
    as (this' & w' & p & a & leaf & Heq & Ht' & _ & Hl & _ & Ha & Hold & Hnew & _).
  assert (Hp : p = []).
  { destruct p as [|k p]; [done|]. unfold root in Hl. by rewrite deref_new in Hl. }
  subst p. simpl in Hnew.
  assert (Hsum : sum_list (<[a := 1%nat]> (replicate N_ACTIONS O)) = 1%nat).
  { rewrite sum_list_insert by (by apply lookup_replicate_2).
    by rewrite sum_list_replicate_0. }
  exists this', w', (<[a := 1%nat]> (replicate N_ACTIONS O)).
  split_and!; [done|done| |done]. split_and!.
  - by rewrite length_insert, length_replicate.
  - rewrite Hsum. destruct (Hold [] root eq_refl) as (n' & Hn' & _ & [[_ [v Hv]]|[Hnp _]]).
    + simpl in Hn'. injection Hn' as <-. unfold stats in Hv. simpl in Hv.
      injection Hv as -> _. reflexivity.
    + destruct Hnp. apply prefix_nil.
  - intros i c Hi.
    assert (Hlt : (i < N_ACTIONS)%nat).
    { apply lookup_lt_Some in Hi. by rewrite length_insert, length_replicate in Hi. }
    destruct (Hnew i Hlt) as (child & Hc & _ & _ & Hstats).
    exists child. split; [done|].
    destruct (decide (i = a)) as [->|Hia].
    + rewrite list_lookup_insert_eq in Hi by (by rewrite length_replicate).
      injection Hi as <-. destruct Hstats as [v Hv]. unfold stats in Hv.
      injection Hv as -> _. reflexivity.
    + rewrite list_lookup_insert_ne in Hi by done.
      apply lookup_replicate in Hi as [-> _]. unfold stats in Hstats.
      by injection Hstats as -> _.
Qed.

(** A later call of [iterate]: one more visit of the root and of one of
    its children. *)
Lemma iterate_visits (this : node) (counts : list nat) (mdp : M) (w : W) :
  (0 < N_ACTIONS)%nat -> tree_inv N_ACTIONS this -> isLeaf_i this = false ->
  visits_counted N_ACTIONS this counts ->
  Z.of_nat (sum_list counts) + 1 < 2 ^ 53 ->
  ∃ this' w' counts',
    iterate N_ACTIONS this mdp w = Ok (this', w') ∧
    tree_inv N_ACTIONS this' ∧ isLeaf_i this' = false ∧
    visits_counted N_ACTIONS this' counts' ∧
    sum_list counts' = S (sum_list counts).
Proof.
  intros HN Ht Hroot (Hlen & Hv & Hcs) Hmax.
  destruct (iterate_frame N_ACTIONS this mdp w HN Ht)
    as (this' & w' & p & a & leaf & Heq & Ht' & _ & Hl & Hleaf & Ha & Hold & _).
  destruct p as [|i p].
  { simpl in Hl. injection Hl as <-. congruence. }
  assert (Hi : (i < N_ACTIONS)%nat).
  { simpl in Hl. destruct (vpChildren_i this !! i) as [s|] eqn:Hs; [|done].
    apply lookup_lt_Some in Hs.
    destruct (tree_inv_node N_ACTIONS this Ht) as [<- _]. done. }
  destruct (lookup_lt_is_Some_2 counts i) as [ci Hci]; [lia|].
  assert (Hle : ∀ j c, counts !! j = Some c -> (c <= sum_list counts)%nat).
  { clear. induction counts as [|x l IH]; intros [|j] c Hj; simpl in *; try done.
    - injection Hj as ->. lia.
    - specialize (IH j c Hj). lia. }
  exists this', w', (<[i := S ci]> counts).
  assert (Hsum : sum_list (<[i := S ci]> counts) = S (sum_list counts))
    by (by apply sum_list_insert).
  assert (Hkids : ∀ j c, <[i := S ci]> counts !! j = Some c ->
            ∃ child, deref this' [j] = Some child ∧
                     nVisits_i child = double_of_int (Z.of_nat c)).
  { intros j c Hj.
    assert (Hjlt : (j < N_ACTIONS)%nat).
    { apply lookup_lt_Some in Hj. rewrite length_insert in Hj. lia. }
    destruct (lookup_lt_is_Some_2 counts j) as [cj Hcj]; [lia|].
    destruct (Hcs j cj Hcj) as (child & Hchild & Hvc).
    destruct (Hold [j] child Hchild) as (n' & Hn' & _ & Hcase).
    exists n'. split; [done|].
    destruct (decide (j = i)) as [->|Hji].
    - rewrite list_lookup_insert_eq in Hj by lia. injection Hj as <-.
      rewrite Hci in Hcj. injection Hcj as <-.
      destruct Hcase as [[_ [v Hst]]|[Hnp _]].
      + unfold stats in Hst. simpl in Hst. injection Hst as -> _.
        rewrite Hvc, Nat2Z.inj_succ. apply double_succ; [lia|].
        specialize (Hle i ci Hci). lia.
      + destruct Hnp. by exists p.
    - rewrite list_lookup_insert_ne in Hj by done.
      rewrite Hcj in Hj. injection Hj as <-.
      destruct Hcase as [[[r Hr] _]|[_ Hm]].
      + simpl in Hr. congruence.
      + unfold members in Hm. congruence. }
  split_and!; [done|done| | |done].
  - destruct (Hkids i (S ci)) as (child & Hchild & _).
    { apply list_lookup_insert_eq. lia. }
    simpl in Hchild.
    destruct (vpChildren_i this' !! i) as [[|c|]|] eqn:Hs; try done.
    by apply (node_inv_parent N_ACTIONS this' c i (tree_inv_node N_ACTIONS this' Ht')).
  - split_and!; [by rewrite length_insert| |done].
    rewrite Hsum, Nat2Z.inj_succ.
    destruct (Hold [] this eq_refl) as (n' & Hn' & _ & [[_ [v Hst]]|[Hnp _]]).
    + simpl in Hn'. injection Hn' as <-. unfold stats in Hst. simpl in Hst.
      injection Hst as -> _. rewrite Hv. apply double_succ; lia.
    + destruct Hnp. apply prefix_nil.
Qed.

(** X12: after one or more calls of [iterate] on a new root every
    child of the root holds a whole visit count, and these counts add up
    to the visit count of the root, the number of calls. *)
Theorem children_visits_add_up (inGamma : float) (inRand : G)
    (mdps : list M) (w : W) :
  (0 < N_ACTIONS)%nat -> mdps ≠ [] -> Z.of_nat (length mdps) < 2 ^ 53 ->
  ∃ this' w' counts,
    iterations N_ACTIONS mdps (new_UCTreeNode N_ACTIONS inGamma inRand) w
    = Ok (this', w') ∧
    visits_counted N_ACTIONS this' counts ∧
    sum_list counts = length mdps.
Proof.
  intros HN Hne Hmax. destruct mdps as [|mdp mdps]; [done|]. clear Hne.
  cbn [iterations].
  destruct (iterate_first_visits inGamma inRand mdp w HN)
    as (this1 & w1 & counts1 & -> & Ht1 & Hc1 & Hs1).
  cbn [mbind result_bind].
  assert (Hleaf1 : isLeaf_i this1 = false).
  { destruct Hc1 as (Hlen & _ & Hcs).
    destruct (lookup_lt_is_Some_2 counts1 O) as [c Hc]; [lia|].
    destruct (Hcs O c Hc) as (child & Hchild & _). simpl in Hchild.
    destruct (vpChildren_i this1 !! O) as [[|c'|]|] eqn:Hs; try done.
    by apply (node_inv_parent N_ACTIONS this1 c' O (tree_inv_node N_ACTIONS this1 Ht1)). }
  assert (Hgen : ∀ mdps this w counts,
    tree_inv N_ACTIONS this -> isLeaf_i this = false ->
    visits_counted N_ACTIONS this counts ->
    Z.of_nat (sum_list counts) + Z.of_nat (length mdps) < 2 ^ 53 ->
    ∃ this' w' counts',
      iterations N_ACTIONS mdps this w = Ok (this', w') ∧
      visits_counted N_ACTIONS this' counts' ∧
      sum_list counts' = (sum_list counts + length mdps)%nat).
  { clear -HN. intros mdps. induction mdps as [|mdp mdps IH];
      intros this w counts Ht Hleaf Hc Hmax.
    - exists this, w, counts. split_and!; [done..|]. simpl. lia.
    - cbn [iterations length] in *.
      destruct (iterate_visits this counts mdp w HN Ht Hleaf Hc)
        as (this1 & w1 & counts1 & -> & Ht1 & Hleaf1 & Hc1 & Hs1); [lia|].
      cbn [mbind result_bind].
      destruct (IH this1 w1 counts1 Ht1 Hleaf1 Hc1)
        as (this' & w' & counts' & Heq & Hc' & Hs'); [lia|].
      exists this', w', counts'. split_and!; [done..|]. lia. }
  destruct (Hgen mdps this1 w1 counts1 Ht1 Hleaf1 Hc1)
    as (this' & w' & counts' & Heq & Hc' & Hs').
  { simpl length in Hmax. lia. }
  exists this', w', counts'. split_and!; [done..|]. simpl. lia.
Qed.
End Visits.

(** *** Printing *)

Section Printing.
Variable N_ACTIONS : nat.

Lemma operator_lshift_loop_spec (count k : nat) (tree : UCTreeNode SimpleURand)
    (out : list output) :
  Forall (λ s, ∃ child, s = Ptr child) (vpChildren_i tree) ->
  length (vpChildren_i tree) = N_ACTIONS -> Z.of_nat N_ACTIONS <= INT_MAX ->
  (k + count = N_ACTIONS)%nat ->
  operator_lshift_loop N_ACTIONS count (Z.of_nat k) tree out
  = Ok (out ++ q_pieces k (drop k (children tree))).
Proof.
  intros Hall Hlen Hmax. revert k out.
  induction count as [|count IH]; intros k out Hk; simpl.
  - rewrite drop_ge by (rewrite children_length by done; lia).
    by rewrite app_nil_r.
  - destruct (lookup_lt_is_Some_2 (vpChildren_i tree) k) as [s Hs]; [lia|].
    pose proof Hall as Hall'. rewrite Forall_lookup in Hall'.
    destruct (Hall' k s Hs) as [c ->].
    unfold qValue.
    destruct (Z.leb_spec 0 (Z.of_nat k)); [|lia].
    destruct (Z.ltb_spec (Z.of_nat k) (Z.of_nat N_ACTIONS)); [|lia].
    simpl. rewrite Nat2Z.id, Hs. simpl.
    assert (Hk1 : int_add (Z.of_nat k) 1 = Z.of_nat (S k)).
    { unfold int_add. rewrite int_wrap_small; unfold INT_MIN, INT_MAX in *; lia. }
    rewrite Hk1, IH by lia.
    rewrite (drop_S _ c k) by (by apply children_lookup).
    unfold q_pieces. simpl. rewrite <- app_assoc. simpl.
    rewrite Nat.add_0_r. do 7 f_equal.
    apply imap_ext. intros j x _. simpl. do 3 f_equal. lia.
Qed.

(** X13: on a node that satisfies the invariant [operator<<] writes
    [[V=], the value of the node, then for each action in turn [,Q], the
    action, [=] and the value of the child, then []]; the assertions of
    [qValue] hold at each call.  For a leaf it writes the value only,
    and does not call [qValue], which on a leaf reads through a null
    pointer. *)
Theorem operator_lshift_spec (out : list output) (tree : UCTreeNode SimpleURand) :
  node_inv N_ACTIONS tree -> Z.of_nat N_ACTIONS <= INT_MAX ->
  operator_lshift N_ACTIONS out tree
  = Ok (out ++ [OutString "[V="; OutDouble (vValue tree)]
            ++ q_pieces 0 (children tree) ++ [OutChar "]"%char]) ∧
  (isLeaf_i tree = true ->
   children tree = [] ∧
   ∀ action, 0 <= action < Z.of_nat N_ACTIONS ->
     qValue N_ACTIONS tree action = Fault UndefinedBehaviour).
Proof.
  intros [Hlen Hall] Hmax.
  assert (Hnone : isLeaf_i tree = true -> children tree = []).
  { intros Hleaf. rewrite Hleaf in Hall. unfold children. clear Hlen.
    induction (vpChildren_i tree) as [|s cs IH]; [done|].
    apply Forall_cons in Hall as [-> Hall]. simpl. by apply IH. }
  split.
  - unfold operator_lshift, isLeaf. destruct (isLeaf_i tree).
    + rewrite Hnone by done. simpl. by rewrite <- app_assoc.
    + rewrite (operator_lshift_loop_spec N_ACTIONS 0) by (done || lia).
      simpl. rewrite drop_0. by rewrite <- !app_assoc.
  - intros Hleaf. split; [by apply Hnone|]. intros action [Hlo Hhi].
    rewrite Hleaf in Hall. unfold qValue.
    destruct (Z.leb_spec 0 action); [|lia].
    destruct (Z.ltb_spec action (Z.of_nat N_ACTIONS)); [|lia]. simpl.
    destruct (lookup_lt_is_Some_2 (vpChildren_i tree) (Z.to_nat action)) as [s Hs];
      [lia|].
    rewrite Hs. rewrite Forall_lookup in Hall. by rewrite (Hall _ _ Hs).
Qed.
End Printing.

(** * The properties on the concrete environment *)

Import Sample.

(** C1, run: three calls of [iterate] with four actions give 13 nodes. *)
Lemma numOfNodes_after_iterations_witness :
  (0 < 4)%nat ∧
  1 + Z.of_nat 4 * Z.of_nat (length [unit_reward; unit_reward; unit_reward]) <= INT_MAX ∧
  ∃ this' w',
    iterations 4 [unit_reward; unit_reward; unit_reward] (fresh 4 DEFAULT_GAMMA) []
    = Ok (this', w') ∧
    numOfNodes this' = Ok 13.
Proof.
  split; [lia|]. split; [vm_compute; discriminate|].
  apply (numOfNodes_after_iterations (W := list Z) 4 DEFAULT_GAMMA []
           [unit_reward; unit_reward; unit_reward] []).
  - lia.
  - vm_compute. discriminate.
Defined.

(** C2, run: on an expanded root with two actions the first loop goes
    down one step; the stacks hold the root, the leaf it stops at and the
    new child of that leaf, and the root receives one update. *)
Lemma iterate_backup_lockstep_witness :
  (0 < 2)%nat ∧ tree_inv 2 (expanded 2 DEFAULT_GAMMA) ∧
  ∃ p a leaf this1 visited rewards value w1 this',
    p ≠ [] ∧
    deref (expanded 2 DEFAULT_GAMMA) p = Some leaf ∧ isLeaf_i leaf = true ∧
    deref (expanded 2 DEFAULT_GAMMA) (p ++ [a]) = None ∧
    iterate_descend (W := list Z) 2 (expanded 2 DEFAULT_GAMMA) unit_reward []
    = Ok (this1, visited, rewards, value, w1) ∧
    backup visited rewards value this1 = Ok this' ∧
    iterate 2 (expanded 2 DEFAULT_GAMMA) unit_reward [] = Ok (this', w1) ∧
    visited = reverse (path_from [] (p ++ [a])) ∧
    length visited = length rewards ∧
    nVisits_i this' = (nVisits_i (expanded 2 DEFAULT_GAMMA) + 1)%float ∧
    totValue_i this'
    = (totValue_i (expanded 2 DEFAULT_GAMMA)
       + unwind (gamma_i (expanded 2 DEFAULT_GAMMA)) rewards value)%float.
Proof.
  assert (Ht : tree_inv 2 (expanded 2 DEFAULT_GAMMA))
    by apply (tree_inv_expand (W := list Z)), tree_inv_new.
  split; [lia|]. split; [exact Ht|].
  destruct (iterate_backup_lockstep (W := list Z) 2 (expanded 2 DEFAULT_GAMMA)
              unit_reward [] ltac:(lia) Ht)
    as (p & a & leaf & this1 & visited & rewards & value & w1 & this' & _ & Hl &
        Hleaf & _ & Hnone & H1 & H2 & H3 & Hvis & _ & _ & H4 & _ & _ & _ & _ & _ &
        _ & _ & _ & _ & H7 & H8).
  exists p, a, leaf, this1, visited, rewards, value, w1, this'.
  split_and!; [|exact Hl|exact Hleaf|exact Hnone|exact H1|exact H2|exact H3|
               exact Hvis|exact H4|exact H7|exact H8].
  intros ->. simpl in Hl. injection Hl as <-. discriminate Hleaf.
Defined.

(** C3, the claim fails: a root constructed with discount factor 0.5 gets
    children with discount factor 0.9. *)
Lemma expand_forgets_gamma :
  ∃ this' w' child,
    iterate (W := list Z) 2 (fresh 2 0.5) unit_reward [] = Ok (this', w') ∧
    gamma_i (fresh 2 0.5) = 0.5%float ∧
    deref this' [0%nat] = Some child ∧
    gamma_i child = 0.9%float ∧ gamma_i child ≠ gamma_i (fresh 2 0.5).
Proof.
  eexists _, _, _. split_and!; [vm_compute; reflexivity|reflexivity..|].
  simpl. intros H.
  assert (E : PrimFloat.eqb 0.9 0.5 = PrimFloat.eqb 0.5 0.5) by (by rewrite H).
  vm_compute in E. discriminate.
Defined.

(** C3, run of the statement as the code has it. *)
Lemma descendants_have_default_gamma_witness :
  (0 < 2)%nat ∧
  ∃ this' w',
    iterations (W := list Z) 2 [unit_reward; unit_reward] (fresh 2 0.5) []
    = Ok (this', w') ∧
    gamma_i this' = 0.5%float ∧
    (∀ k r n, deref this' (k :: r) = Some n -> gamma_i n = DEFAULT_GAMMA).
Proof.
  split; [lia|].
  apply (descendants_have_default_gamma (W := list Z) 2 0.5 []
           [unit_reward; unit_reward] []). lia.
Defined.


(** C5, run: the first call on a fresh root with two actions. *)
Lemma iterate_changes_path_only_witness :
  (0 < 2)%nat ∧ tree_inv 2 (fresh 2 DEFAULT_GAMMA) ∧
  ∃ this' w' p a leaf,
    iterate (W := list Z) 2 (fresh 2 DEFAULT_GAMMA) unit_reward [] = Ok (this', w') ∧
    deref (fresh 2 DEFAULT_GAMMA) p = Some leaf ∧ isLeaf_i leaf = true ∧
    (a < 2)%nat ∧ length (p ++ [a]) = S (length p) ∧
    (∀ k, (k < 2)%nat -> k ≠ a ->
       ∃ c, deref this' (p ++ [k]) = Some c ∧ isLeaf_i c = true ∧
            nVisits_i c = 0%float ∧ totValue_i c = 0%float).
Proof.
  split; [lia|]. split; [apply tree_inv_new|].
  destruct (iterate_changes_path_only (W := list Z) 2 (fresh 2 DEFAULT_GAMMA)
              unit_reward [] ltac:(lia) (tree_inv_new 2 DEFAULT_GAMMA []))
    as (this' & w' & p & a & leaf & H1 & H2 & H3 & H4 & H5 & _ & _ & _ & H6 & _).
  exists this', w', p, a, leaf. auto 10.
Defined.

(** C6, the invariant fails: the copy of a leaf has a child array that was
    never written, where the invariant of [isLeaf_i] wants null
    pointers. *)
Theorem copy_of_leaf_breaks_invariant :
  node_inv 2 (fresh 2 DEFAULT_GAMMA) ∧
  ∃ c, copy 2 (fresh 2 DEFAULT_GAMMA) = Ok c ∧ isLeaf_i c = true ∧
       vpChildren_i c = [Indeterminate; Indeterminate] ∧ ¬ node_inv 2 c.
Proof.
  split; [apply (tree_inv_node 2), tree_inv_new|].
  eexists. split_and!; [reflexivity..|].
  intros [_ Hall]. simpl in Hall. by apply Forall_cons in Hall as [? _].
Qed.


(** C8, run: a fresh root with three actions. *)
Lemma expand_idempotent_witness :
  length (vpChildren_i (fresh 3 DEFAULT_GAMMA)) = 3%nat ∧
  isLeaf_i (expand (W := list Z) 3 (fresh 3 DEFAULT_GAMMA)) = false ∧
  expand (W := list Z) 3 (expand (W := list Z) 3 (fresh 3 DEFAULT_GAMMA))
  = expand (W := list Z) 3 (fresh 3 DEFAULT_GAMMA).
Proof.
  split; [reflexivity|].
  destruct (expand_idempotent (W := list Z) 3 (fresh 3 DEFAULT_GAMMA) eq_refl)
    as (Hleaf & _ & Hidem).
  split; [|exact Hidem].
  destruct (Hleaf eq_refl) as (-> & _). reflexivity.
Defined.

(** C9, the result depends on [rand()]: the same node, with the same
    random source, gives action 0 when [rand()] returns 1 then 0, and
    action 1 when it returns 0 then 1. *)
Theorem bestAction_depends_on_global_rand :
  bestAction 2 (expanded 2 DEFAULT_GAMMA) [1; 0]
  = Ok (0, expanded 2 DEFAULT_GAMMA, []) ∧
  bestAction 2 (expanded 2 DEFAULT_GAMMA) [0; 1]
  = Ok (1, expanded 2 DEFAULT_GAMMA, []).
Proof. split; vm_compute; reflexivity. Qed.

(** C10, the claim fails: on a node that was never visited [vValue]
    returns NaN, and [qValue] of a child that was never visited returns
    NaN; no assertion fails. *)
Lemma vValue_of_unvisited_is_nan :
  nVisits_i (fresh 2 DEFAULT_GAMMA) = 0%float ∧
  vValue (fresh 2 DEFAULT_GAMMA) = nan ∧
  qValue 2 (expanded 2 DEFAULT_GAMMA) 0 = Ok nan ∧
  qValue 2 (expanded 2 DEFAULT_GAMMA) 0 ≠ Fault AssertionFailed.
Proof. split_and!; [reflexivity..|discriminate]. Defined.

(** C10, run of the statement as the code has it. *)
Lemma vValue_qValue_spec_witness :
  vValue (fresh 2 DEFAULT_GAMMA) = nan ∧
  qValue 2 (expanded 2 DEFAULT_GAMMA) 2 = Fault AssertionFailed ∧
  qValue 2 (expanded 2 DEFAULT_GAMMA) (-1) = Fault AssertionFailed ∧
  qValue 2 (expanded 2 DEFAULT_GAMMA) 1 = Ok nan.
Proof.
  destruct (vValue_qValue_spec (G := list float) 2 (fresh 2 DEFAULT_GAMMA) 0)
    as (_ & Hnan & _).
  destruct (vValue_qValue_spec 2 (expanded 2 DEFAULT_GAMMA) 2) as (_ & _ & Hhigh & _).
  destruct (vValue_qValue_spec 2 (expanded 2 DEFAULT_GAMMA) (-1)) as (_ & _ & Hlow & _).
  destruct (vValue_qValue_spec 2 (expanded 2 DEFAULT_GAMMA) 1) as (_ & _ & _ & Hin).
  split_and!.
  - by apply Hnan.
  - apply Hhigh. simpl. lia.
  - apply Hlow. lia.
  - rewrite (Hin (fresh 2 DEFAULT_GAMMA)); [reflexivity|simpl; lia|reflexivity].
Defined.

(** ** Further properties, run *)

(** X1, run: an expanded root with two actions has depth 2. *)
Lemma maxDepth_longest_path_witness :
  (0 < 2)%nat ∧ tree_inv 2 (expanded 2 DEFAULT_GAMMA) ∧
  Z.of_nat (size (expanded 2 DEFAULT_GAMMA)) <= INT_MAX ∧
  ∃ d, maxDepth (expanded 2 DEFAULT_GAMMA) 0 = Ok d ∧ d = 2 ∧
       (∃ r leaf, deref (expanded 2 DEFAULT_GAMMA) r = Some leaf ∧
                  isLeaf_i leaf = true ∧ d = Z.of_nat (length r) + 1) ∧
       (∀ r, is_Some (deref (expanded 2 DEFAULT_GAMMA) r) ->
             Z.of_nat (length r) + 1 <= d).
Proof.
  assert (Ht : tree_inv 2 (expanded 2 DEFAULT_GAMMA))
    by apply (tree_inv_expand (W := list Z)), tree_inv_new.
  assert (Hsz : Z.of_nat (size (expanded 2 DEFAULT_GAMMA)) <= INT_MAX)
    by (vm_compute; discriminate).
  split; [lia|]. split; [exact Ht|]. split; [exact Hsz|].
  destruct (maxDepth_longest_path 2 (expanded 2 DEFAULT_GAMMA)
              ltac:(lia) Ht Hsz) as (d & Hd & Hlong & Hall).
  exists d. split_and!; [exact Hd| |exact Hlong|exact Hall].
  vm_compute in Hd. by injection Hd as <-.
Defined.

(** X2, run: on an expanded root [maxDepth(-5)] is 0 and [maxDepth(3)]
    is 5. *)
Lemma maxDepth_parentDepth_witness :
  (0 < 2)%nat ∧ tree_inv 2 (expanded 2 DEFAULT_GAMMA) ∧
  maxDepth (expanded 2 DEFAULT_GAMMA) 0 = Ok 2 ∧
  Z.of_nat (size (expanded 2 DEFAULT_GAMMA)) <= INT_MAX ∧
  INT_MIN <= -5 ∧ -5 + 2 <= INT_MAX ∧
  maxDepth (expanded 2 DEFAULT_GAMMA) (-5) = Ok 0 ∧
  maxDepth (expanded 2 DEFAULT_GAMMA) 3 = Ok 5.
Proof.
  assert (Ht : tree_inv 2 (expanded 2 DEFAULT_GAMMA))
    by apply (tree_inv_expand (W := list Z)), tree_inv_new.
  assert (Hsz : Z.of_nat (size (expanded 2 DEFAULT_GAMMA)) <= INT_MAX)
    by (vm_compute; discriminate).
  split_and!; [lia|exact Ht|reflexivity|exact Hsz|vm_compute; discriminate|
               vm_compute; discriminate| |].
  - apply (maxDepth_parentDepth 2 (expanded 2 DEFAULT_GAMMA) (-5) 2);
      [lia|exact Ht|reflexivity|exact Hsz|vm_compute; discriminate|
       vm_compute; discriminate].
  - apply (maxDepth_parentDepth 2 (expanded 2 DEFAULT_GAMMA) 3 2);
      [lia|exact Ht|reflexivity|exact Hsz|vm_compute; discriminate|
       vm_compute; discriminate].
Defined.

(** X3, run: the first call on a new root. *)
Lemma maxDepth_iterate_witness :
  (0 < 2)%nat ∧ tree_inv 2 (fresh 2 DEFAULT_GAMMA) ∧
  Z.of_nat (size (fresh 2 DEFAULT_GAMMA)) + Z.of_nat 2 <= INT_MAX ∧
  ∃ this' w' d d',
    iterate (W := list Z) 2 (fresh 2 DEFAULT_GAMMA) unit_reward [] = Ok (this', w') ∧
    maxDepth (fresh 2 DEFAULT_GAMMA) 0 = Ok d ∧ maxDepth this' 0 = Ok d' ∧
    d <= d' <= d + 1 ∧ 2 <= d'.
Proof.
  split; [lia|]. split; [apply tree_inv_new|]. split; [vm_compute; discriminate|].
  apply (maxDepth_iterate (W := list Z) 2 (fresh 2 DEFAULT_GAMMA) unit_reward []);
    [lia|apply tree_inv_new|vm_compute; discriminate].
Defined.

(** X4, run: two calls on a new root. *)
Lemma maxDepth_after_iterations_witness :
  (0 < 2)%nat ∧
  1 + Z.of_nat 2 * Z.of_nat (length [unit_reward; unit_reward]) <= INT_MAX ∧
  ∃ this' w' d,
    iterations (W := list Z) 2 [unit_reward; unit_reward] (fresh 2 DEFAULT_GAMMA) []
    = Ok (this', w') ∧
    maxDepth this' 0 = Ok d ∧ 2 <= d <= 3.
Proof.
  split; [lia|]. split; [vm_compute; discriminate|].
  destruct (maxDepth_after_iterations (W := list Z) 2 DEFAULT_GAMMA []
              [unit_reward; unit_reward] [] ltac:(lia) ltac:(vm_compute; discriminate))
    as (this' & w' & d & Heq & Hd & _ & Hne).
  exists this', w', d. split_and!; [exact Heq|exact Hd|apply Hne; done|].
  destruct (Hne ltac:(done)) as [_ Hle]. simpl in Hle. lia.
Defined.

(** X6, run: the copy of an expanded root. *)
Lemma copy_is_deep_witness :
  tree_inv 2 (expanded 2 DEFAULT_GAMMA) ∧
  ∃ tree', copy 2 (expanded 2 DEFAULT_GAMMA) = Ok tree' ∧
    same_nodes (expanded 2 DEFAULT_GAMMA) tree' ∧
    numOfNodes tree' = Ok 3 ∧ maxDepth tree' 0 = Ok 2.
Proof.
  assert (Ht : tree_inv 2 (expanded 2 DEFAULT_GAMMA))
    by apply (tree_inv_expand (W := list Z)), tree_inv_new.
  split; [exact Ht|].
  destruct (copy_is_deep 2 (expanded 2 DEFAULT_GAMMA) Ht)
    as (tree' & Hc & Hsame & Hn & Hd).
  exists tree'. split_and!; [exact Hc|exact Hsame| |].
  - rewrite Hn. reflexivity.
  - rewrite Hd. reflexivity.
Defined.

(** X7, run: [rand()] returns 5. *)
Lemma SimpleURand_range_witness :
  0 < RAND_MAX (W := list Z) <= INT_MAX ∧ 0 <= (c_rand [5]).1 ∧
  ∃ x, urand_call mkSimpleURand [5] = (x, mkSimpleURand, []) ∧
       PrimFloat.leb 0 x = true ∧ PrimFloat.ltb x 1 = true.
Proof.
  assert (HM : 0 < RAND_MAX (W := list Z) <= INT_MAX).
  { split; [reflexivity|]. vm_compute. discriminate. }
  split; [exact HM|]. split; [simpl; lia|].
  destruct (SimpleURand_range (W := list Z) mkSimpleURand [5] HM ltac:(simpl; lia))
    as (x & Hx & H0 & H1 & _).
  exists x. split_and!; [exact Hx|exact H0|exact H1].
Defined.

(** X8, run: a new root over the default random source. *)
Lemma bestAction_leaf_default_witness :
  isLeaf_i (default_root 2) = true ∧
  0 < Z.of_nat 2 <= INT_MAX ∧ 0 < RAND_MAX (W := list Z) <= INT_MAX ∧
  0 <= (c_rand [5]).1 ∧
  ∃ action, bestAction 2 (default_root 2) [5] = Ok (action, default_root 2, []) ∧
            0 <= action < Z.of_nat 2.
Proof.
  assert (HN : 0 < Z.of_nat 2 <= INT_MAX).
  { split; [reflexivity|]. vm_compute. discriminate. }
  assert (HM : 0 < RAND_MAX (W := list Z) <= INT_MAX).
  { split; [reflexivity|]. vm_compute. discriminate. }
  split; [reflexivity|]. split; [exact HN|]. split; [exact HM|].
  split; [simpl; lia|].
  apply (bestAction_leaf_default (W := list Z) 2 (default_root 2) [5] eq_refl HN HM).
  simpl. lia.
Defined.

(** X9, run: a reward source and the same source answering NaN outside
    [0, 2). *)
Lemma iterate_asks_actions_in_range_witness :
  0 < Z.of_nat 2 <= INT_MAX ∧
  (∀ (g : list float) (w : list Z),
     Forall (λ x, PrimFloat.leb 0 x = true ∧ PrimFloat.ltb x 1 = true) g ->
     PrimFloat.leb 0 (urand_call g w).1.1 = true ∧
     PrimFloat.ltb (urand_call g w).1.1 1 = true ∧
     Forall (λ x, PrimFloat.leb 0 x = true ∧ PrimFloat.ltb x 1 = true)
            (urand_call g w).1.2) ∧
  (∀ (mdp : Z -> float) action (w : list Z), 0 <= action < Z.of_nat 2 ->
     generator_call (Generator := rewards) mdp action w
     = generator_call (Generator := in_range_only 2) mdp action w) ∧
  Forall (λ x, PrimFloat.leb 0 x = true ∧ PrimFloat.ltb x 1 = true)
         (rand_i (new_UCTreeNode 2 DEFAULT_GAMMA [0.75%float])) ∧
  @iterate (list Z) (list float) _ _ 2 (Z -> float) rewards
    (new_UCTreeNode 2 DEFAULT_GAMMA [0.75%float]) unit_reward []
  = @iterate (list Z) (list float) _ _ 2 (Z -> float) (in_range_only 2)
    (new_UCTreeNode 2 DEFAULT_GAMMA [0.75%float]) unit_reward [].
Proof.
  assert (HN : 0 < Z.of_nat 2 <= INT_MAX).
  { split; [reflexivity|]. vm_compute. discriminate. }
  assert (Hunit : ∀ (g : list float) (w : list Z),
     Forall (λ x, PrimFloat.leb 0 x = true ∧ PrimFloat.ltb x 1 = true) g ->
     PrimFloat.leb 0 (urand_call g w).1.1 = true ∧
     PrimFloat.ltb (urand_call g w).1.1 1 = true ∧
     Forall (λ x, PrimFloat.leb 0 x = true ∧ PrimFloat.ltb x 1 = true)
            (urand_call g w).1.2).
  { intros [|x g] w Hg; simpl.
    - split_and!; [reflexivity|reflexivity|constructor].
    - apply Forall_cons in Hg as [[H0 H1] Hg]. by split_and!. }
  assert (Hagree : ∀ (mdp : Z -> float) action (w : list Z),
     0 <= action < Z.of_nat 2 ->
     generator_call (Generator := rewards) mdp action w
     = generator_call (Generator := in_range_only 2) mdp action w).
  { intros mdp action w [Hlo Hhi]. change (Z.of_nat 2) with 2 in Hhi.
    apply Z.leb_le in Hlo. apply Z.ltb_lt in Hhi.
    unfold in_range_only, generator_call at 2. by rewrite Hlo, Hhi. }
  assert (Hg : Forall (λ x, PrimFloat.leb 0 x = true ∧ PrimFloat.ltb x 1 = true)
                 (rand_i (new_UCTreeNode 2 DEFAULT_GAMMA [0.75%float]))).
  { repeat constructor. }
  split; [exact HN|]. split; [exact Hunit|]. split; [exact Hagree|].
  split; [exact Hg|].
  exact (iterate_asks_actions_in_range 2 rewards (in_range_only 2) _ HN Hunit Hagree
           (new_UCTreeNode 2 DEFAULT_GAMMA [0.75%float]) unit_reward [] Hg).
Defined.

(** X10, run: both scores are NaN, and action 0 is selected. *)
Lemma selection_skips_unordered_witness :
  (0 < 2)%nat ∧ isLeaf_i nan_children = false ∧ node_inv 2 nan_children ∧
  uct_scores (W := list Z) nan_children [0; 0]%float = [nan; nan] ∧
  selectAction (W := list Z) 2 nan_children []
  = Ok (0%nat, set_rand [] nan_children, []) ∧
  bestAction (W := list Z) 2 nan_children [7; 7] = Ok (0, nan_children, []).
Proof.
  assert (Hn : node_inv 2 nan_children).
  { split; [reflexivity|]. simpl. repeat constructor; eauto. }
  destruct (selection_skips_unordered (W := list Z) 2 nan_children [] ltac:(lia)
              eq_refl Hn) as (Hord & Hsel & _).
  destruct (selection_skips_unordered (W := list Z) 2 nan_children [7; 7] ltac:(lia)
              eq_refl Hn) as (_ & _ & Hbest).
  split; [lia|]. split; [reflexivity|]. split; [exact Hn|]. split; [reflexivity|].
  split.
  - destruct (Hsel [0; 0]%float [] [] eq_refl) as (a & Ha & _ & [[_ ->]|Hcase]);
      [exact Ha|].
    destruct Hcase as (va & Hva & Hnan & _). exfalso.
    assert (Hv : va = nan).
    { apply list_elem_of_lookup_2 in Hva. vm_compute in Hva.
      repeat (apply elem_of_cons in Hva as [->|Hva]; [reflexivity|]).
      by apply elem_of_nil in Hva. }
    subst va. vm_compute in Hnan. discriminate.
  - destruct (Hbest [7; 7] [] eq_refl) as (a & Ha & _ & [[_ ->]|Hcase]);
      [exact Ha|].
    destruct Hcase as (va & Hva & Hnan & _). exfalso.
    assert (Hv : va = nan).
    { apply list_elem_of_lookup_2 in Hva. vm_compute in Hva.
      repeat (apply elem_of_cons in Hva as [->|Hva]; [reflexivity|]).
      by apply elem_of_nil in Hva. }
    subst va. vm_compute in Hnan. discriminate.
Defined.

(** X11, run: three calls. *)
Lemma root_visits_count_witness :
  (0 < 2)%nat ∧
  Z.of_nat (length [unit_reward; unit_reward; unit_reward]) < 2 ^ 53 ∧
  ∃ this' w',
    iterations (W := list Z) 2 [unit_reward; unit_reward; unit_reward]
      (fresh 2 DEFAULT_GAMMA) [] = Ok (this', w') ∧
    nVisits_i this' = 3%float.
Proof.
  split; [lia|]. split; [reflexivity|].
  apply (root_visits_count (W := list Z) 2 DEFAULT_GAMMA []
           [unit_reward; unit_reward; unit_reward] []); [lia|reflexivity].
Defined.

(** X12, run: three calls. *)
Lemma children_visits_add_up_witness :
  (0 < 2)%nat ∧ [unit_reward; unit_reward; unit_reward] ≠ [] ∧
  Z.of_nat (length [unit_reward; unit_reward; unit_reward]) < 2 ^ 53 ∧
  ∃ this' w' counts,
    iterations (W := list Z) 2 [unit_reward; unit_reward; unit_reward]
      (fresh 2 DEFAULT_GAMMA) [] = Ok (this', w') ∧
    visits_counted 2 this' counts ∧ sum_list counts = 3%nat.
Proof.
  split; [lia|]. split; [done|]. split; [reflexivity|].
  apply (children_visits_add_up (W := list Z) 2 DEFAULT_GAMMA []
           [unit_reward; unit_reward; unit_reward] []); [lia|done|reflexivity].
Defined.

(** X13, run: an expanded root that was never visited. *)
Lemma operator_lshift_spec_witness :
  node_inv 2 (expand (W := list Z) 2 (default_root 2)) ∧ Z.of_nat 2 <= INT_MAX ∧
  operator_lshift 2 [] (expand (W := list Z) 2 (default_root 2))
  = Ok [OutString "[V="; OutDouble nan;
        OutString ",Q"; OutInt 0; OutChar "="%char; OutDouble nan;
        OutString ",Q"; OutInt 1; OutChar "="%char; OutDouble nan;
        OutChar "]"%char].
Proof.
  assert (Hn : node_inv 2 (expand (W := list Z) 2 (default_root 2))).
  { apply (tree_inv_node 2), (tree_inv_expand (W := list Z)), tree_inv_new. }
  assert (HN : Z.of_nat 2 <= INT_MAX) by (vm_compute; discriminate).
  split; [exact Hn|]. split; [exact HN|].
  destruct (operator_lshift_spec 2 [] _ Hn HN) as [-> _]. reflexivity.
Defined.

(** X5, run: an expanded root with two actions. *)
Lemma numOfNodes_maxDepth_witness :
  (0 < 2)%nat ∧ tree_inv 2 (expanded 2 DEFAULT_GAMMA) ∧
  Z.of_nat (size (expanded 2 DEFAULT_GAMMA)) <= INT_MAX ∧
  ∃ n d, numOfNodes (expanded 2 DEFAULT_GAMMA) = Ok n ∧
         maxDepth (expanded 2 DEFAULT_GAMMA) 0 = Ok d ∧
         1 <= d <= n ∧ 1 + Z.of_nat 2 * (d - 1) <= n.
Proof.
  assert (Ht : tree_inv 2 (expanded 2 DEFAULT_GAMMA))
    by apply (tree_inv_expand (W := list Z)), tree_inv_new.
  assert (Hsz : Z.of_nat (size (expanded 2 DEFAULT_GAMMA)) <= INT_MAX)
    by (vm_compute; discriminate).
  split; [lia|]. split; [exact Ht|]. split; [exact Hsz|].
  apply (numOfNodes_maxDepth 2 (expanded 2 DEFAULT_GAMMA) ltac:(lia) Ht Hsz).
Defined.

(** X14, run: an expanded root and its copy; two nodes are deleted. *)
Lemma destructor_frees_all_witness :
  tree_inv 2 (expanded 2 DEFAULT_GAMMA) ∧
  copy 2 (expanded 2 DEFAULT_GAMMA) = Ok expanded_copy ∧
  ∃ d d',
    destructor (expanded 2 DEFAULT_GAMMA) = Ok (d, 2%nat) ∧
    destructor expanded_copy = Ok (d', 2%nat) ∧
    vpChildren_i d = [Null; Null] ∧ vpChildren_i d' = [Null; Null].
Proof.
  assert (Ht : tree_inv 2 (expanded 2 DEFAULT_GAMMA))
    by apply (tree_inv_expand (W := list Z)), tree_inv_new.
  split; [exact Ht|]. split; [reflexivity|].
  destruct (destructor_frees_all 2 (expanded 2 DEFAULT_GAMMA) expanded_copy Ht eq_refl)
    as (d & d' & Hd & Hd' & Hs).
  exists d, d'. split_and!; [exact Hd|exact Hd'|apply Hs; reflexivity..].
Defined.

(** X15, run: two calls on an expanded root and on its copy. *)
Lemma iterations_on_copy_witness :
  (0 < 2)%nat ∧ tree_inv 2 (expanded 2 DEFAULT_GAMMA) ∧
  copy 2 (expanded 2 DEFAULT_GAMMA) = Ok expanded_copy ∧
  ∃ this1 this1' w1,
    iterations (W := list Z) 2 [unit_reward; unit_reward] (expanded 2 DEFAULT_GAMMA) []
    = Ok (this1, w1) ∧
    iterations (W := list Z) 2 [unit_reward; unit_reward] expanded_copy []
    = Ok (this1', w1) ∧
    nulled 2 this1' = this1 ∧ same_nodes this1 this1'.
Proof.
  assert (Ht : tree_inv 2 (expanded 2 DEFAULT_GAMMA))
    by apply (tree_inv_expand (W := list Z)), tree_inv_new.
  split; [lia|]. split; [exact Ht|]. split; [reflexivity|].
  apply (iterations_on_copy (W := list Z) 2 (expanded 2 DEFAULT_GAMMA) expanded_copy
           [unit_reward; unit_reward] [] ltac:(lia) Ht eq_refl).
Defined.
